(** * js-web-crawler: the crawl engine of [src/webCrawler.js] and the
      program of [src/app.js]

    A shallow embedding of the [WebCrawler] class: the instance state
    ([visitedUrls], [failedUrls], [results], [robotsCache]) is threaded
    through a small state-and-exception monad; the collaborators the class
    imports (axios, cheerio, url-parse, robots-parser, the clock) are the
    fields of a [Platform] record, so that every theorem holds for every
    behaviour of the network.  *)

From stdpp Require Import base gmap sets list sorting strings.
From Stdlib Require Import ZArith Ascii.
From Stdlib Require QArith.

Set Warnings "-clear-no-such-hyp".

Local Open Scope string_scope.
Local Open Scope list_scope.

(** ** Data model *)

(** The [{url, text, title}] objects built by [extractLinks]. *)
Module Link.
Record t := mk { url : string; text : string; title : string }.
End Link.

(** The objects built by [extractImages]. *)
Module Image.
Record t := mk {
  url : string; alt : string; title : string;
  width : string; height : string }.
End Image.

(** The [{url, depth, parent}] objects held by the local [queue] of [crawl]. *)
Module Item.
Record t := mk { url : string; depth : nat; parent : option string }.
End Item.

(** The object literal built by [crawlPage] (lines 167-183).  [headings] is
    the JS object filled by [extractHeadings]; [crawlTime] is a difference
    of two clock readings; [timestamp] keeps the instant that the source
    prints with [toISOString]. *)
Record PageResult := {
  url : string;
  originalUrl : string;
  title : string;
  description : string;
  keywords : string;
  headings : gmap string (list string);
  links : list Link.t;
  images : list Image.t;
  statusCode : nat;
  contentLength : nat;
  contentType : string;
  crawlTime : Z;
  depth : nat;
  parent : option string;
  timestamp : Z
}.

(** What the code throws or sees thrown. *)
Inductive Error :=
| HttpError (message : string)
    (* a rejected [httpClient.get]: error status, network error, time-out *)
| TypeError (message : string)
    (* [pLimit] refusing a concurrency below 1 *)
| RegExpSyntaxError (pattern : string)
    (* [new RegExp(pattern)] on a pattern that does not compile *)
| UnhandledError (url : string) (cause : Error).
    (* what [EventEmitter.prototype.emit] throws for an 'error' event that
       has no listener and whose payload is not an [Error] instance *)

(** [this.options] after the constructor has merged the defaults. *)
Record Options := {
  maxDepth : nat;
  maxPages : nat;
  maxConcurrency : nat;
  delay : nat;
  timeout : Z;
  followExternalLinks : bool;
  respectRobotsTxt : bool;
  userAgent : string;
  allowedDomains : list string;
  excludePatterns : list string;
  includePatterns : list string;
  maxRetries : nat
}.

(** The argument of the constructor: every key may be absent. *)
Module UserOptions.
Record t := mk {
  maxDepth : option nat;
  maxPages : option nat;
  maxConcurrency : option nat;
  delay : option nat;
  timeout : option Z;
  followExternalLinks : option bool;
  respectRobotsTxt : option bool;
  userAgent : option string;
  allowedDomains : option (list string);
  excludePatterns : option (list string);
  includePatterns : option (list string);
  maxRetries : option nat }.
Definition empty : t :=
  mk None None None None None None None None None None None None.
End UserOptions.

(** [options.k || d, ...options]: the spread at the end of the literal
    writes every key the caller gave over the [||] default, so a key that
    is present wins even when its value is falsy. *)
Definition defaulted {A} (given : option A) (d : A) : A :=
  match given with Some a => a | None => d end.

Definition mergeOptions (o : UserOptions.t) : Options := {|
  maxDepth := defaulted (UserOptions.maxDepth o) 3;
  maxPages := defaulted (UserOptions.maxPages o) 100;
  maxConcurrency := defaulted (UserOptions.maxConcurrency o) 5;
  delay := defaulted (UserOptions.delay o) 1000;
  timeout := defaulted (UserOptions.timeout o) 30000%Z;
  followExternalLinks := defaulted (UserOptions.followExternalLinks o) false;
  respectRobotsTxt := defaulted (UserOptions.respectRobotsTxt o) true;
  userAgent := defaulted (UserOptions.userAgent o) "WebCrawler-JS/1.0";
  allowedDomains := defaulted (UserOptions.allowedDomains o) [];
  excludePatterns := defaulted (UserOptions.excludePatterns o) [];
  includePatterns := defaulted (UserOptions.includePatterns o) [];
  maxRetries := defaulted (UserOptions.maxRetries o) 3
|}.

(** ** The document a page parses to

    cheerio is used through five selectors only ([title],
    [meta[name=...]], [h1]..[h6], [a[href]], [img[src]]) and through
    [.text()], [.attr()] and [.each()]; a document is therefore the list
    of its elements in document order, each with its attributes and the
    text of its subtree. *)
Record Element := {
  tagName : string;
  attribs : list (string * string);
  textContent : string
}.

(** The response object of axios, reduced to the fields the crawler reads:
    [status], [headers['content-type']], [data] and
    [request.res.responseUrl]. *)
Record Response := {
  status : nat;
  content_type : option string;
  data : string;
  responseUrl : option string
}.

(** ** Strings as JavaScript treats them *)

(** [s || d] for a string that may be [undefined]: the empty string is
    falsy. *)
Definition js_or (s : option string) (d : string) : string :=
  match s with
  | Some (String c r) => String c r
  | _ => d
  end.

(** [hay.includes(needle)]. *)
Fixpoint includes (needle hay : string) : bool :=
  String.prefix needle hay ||
  match hay with
  | EmptyString => false
  | String _ rest => includes needle rest
  end.

(** A string holds its text in UTF-8.  Being empty, equality and
    [includes] are the same on the encoding as on the text; [length] and
    [trim] are not, and are written out here. *)

(** [s.length]: the number of UTF-16 code units of the text.  A code
    point encoded in one to three bytes is one unit, one encoded in four
    bytes is a surrogate pair; a continuation byte counts with the byte
    that leads it. *)
Definition codeUnits (c : ascii) : nat :=
  let n := nat_of_ascii c in
  if Nat.ltb n 128 then 1
  else if Nat.ltb n 192 then 0
  else if Nat.ltb n 240 then 1
  else 2.

Fixpoint js_length (s : string) : nat :=
  match s with
  | String c r => codeUnits c + js_length r
  | EmptyString => 0
  end.

Definition utf8 (bytes : list nat) : string :=
  String.string_of_list_ascii (map ascii_of_nat bytes).

(** What [String.prototype.trim] removes: the WhiteSpace and the
    LineTerminator code points of ECMAScript, that is tab, line feed,
    vertical tab, form feed, carriage return, space, no-break space, the
    byte order mark, the line and the paragraph separator and the other
    space separators of Unicode. *)
Definition whiteSpace : list string :=
  map utf8
    [ [9]; [10]; [11]; [12]; [13];        (* U+0009 .. U+000D *)
      [32];                               (* U+0020 *)
      [194; 160];                         (* U+00A0 *)
      [225; 154; 128];                    (* U+1680 *)
      [226; 128; 128]; [226; 128; 129];   (* U+2000, U+2001 *)
      [226; 128; 130]; [226; 128; 131];   (* U+2002, U+2003 *)
      [226; 128; 132]; [226; 128; 133];   (* U+2004, U+2005 *)
      [226; 128; 134]; [226; 128; 135];   (* U+2006, U+2007 *)
      [226; 128; 136]; [226; 128; 137];   (* U+2008, U+2009 *)
      [226; 128; 138];                    (* U+200A *)
      [226; 128; 168]; [226; 128; 169];   (* U+2028, U+2029 *)
      [226; 128; 175];                    (* U+202F *)
      [226; 129; 159];                    (* U+205F *)
      [227; 128; 128];                    (* U+3000 *)
      [239; 187; 191] ].                  (* U+FEFF *)

Definition isWhiteSpace (s : string) : bool :=
  existsb (String.eqb s) whiteSpace.

(** [trimStart]: white space is at most three bytes long. *)
Fixpoint trimStart (s : string) : string :=
  match s with
  | String a r1 =>
      if isWhiteSpace (String a "") then trimStart r1
      else
        match r1 with
        | String b r2 =>
            if isWhiteSpace (String a (String b "")) then trimStart r2
            else
              match r2 with
              | String c r3 =>
                  if isWhiteSpace (String a (String b (String c "")))
                  then trimStart r3
                  else s
              | EmptyString => s
              end
        | EmptyString => s
        end
  | EmptyString => EmptyString
  end.

(** [trimEnd]: from the right, what is left of the tail is dropped as long
    as it is one white space. *)
Fixpoint trimEnd (s : string) : string :=
  match s with
  | String c r =>
      let kept := String c (trimEnd r) in
      if isWhiteSpace kept then EmptyString else kept
  | EmptyString => EmptyString
  end.

Definition trim (s : string) : string := trimEnd (trimStart s).

(** [[...new Set(xs)]]: a [Set] keeps the first insertion of each value, in
    insertion order. *)
Fixpoint uniq_acc (seen : list string) (xs : list string) : list string :=
  match xs with
  | [] => []
  | x :: xs' =>
      if decide (x ∈ seen) then uniq_acc seen xs'
      else x :: uniq_acc (x :: seen) xs'
  end.

Definition set_spread (xs : list string) : list string := uniq_acc [] xs.

(** ** The collaborators

    Everything the class reaches through its imports.  [World] is the
    state of all that lies outside the process (servers, network, clock);
    a request and a wait both move it.  A function that may throw returns
    [None] or [inl]. *)
Class Platform := {
  World : Type;
  Robots : Type;
  (** [Date.now()] *)
  date_now : World → Z;
  (** the world once a [setTimeout] of so many milliseconds has fired *)
  set_timeout : nat → World → World;
  (** [httpClient.get(url)]: a response, or the rejection *)
  axios_get : string → World → (Error + Response) * World;
  (** [cheerio.load(html)] *)
  cheerio_load : string → list Element;
  (** [new URL(ref, base).toString()], [None] when it throws *)
  url_resolve : string → string → option string;
  (** the [protocol], [hostname] and [host] of [new URL(u)] (url-parse
      accepts every string) *)
  url_protocol : string → string;
  url_hostname : string → string;
  url_host : string → string;
  (** [robotsParser(robotsUrl, body)], [None] when it throws *)
  robotsParser : string → string → option Robots;
  (** [robots.isAllowed(url, userAgent)]: [inl] when the call throws,
      otherwise the truthiness of what it returns *)
  robots_isAllowed : Robots → string → string → Error + bool;
  (** [new RegExp(pattern).test(s)], [None] when the pattern does not
      compile *)
  regexp_test : string → string → option bool
}.

(** ** The instance *)

(** Ghost record of what a run does, most recent first. *)
Inductive Event :=
| EvSkip (u : string)             (* [crawlPage(u, ..)] finds u visited *)
| EvVisit (u : string)            (* [visitedUrls.add(u)] *)
| EvGetRobots (robotsUrl : string) (* [httpClient.get(robotsUrl)] *)
| EvGetPage (u : string)          (* [httpClient.get(u)] in the retry loop *)
| EvSleep (ms : nat)              (* [sleep(ms)] *)
| EvPush (item : Item.t)          (* [queue.push(item)] *)
| EvResult (r : PageResult)       (* [results.push(r)] *)
| EvFailed (u : string)           (* [failedUrls.add(u)] *)
| EvEmitPage (r : PageResult)     (* [emit('page', r)] *)
| EvEmitError (u : string) (cause : Error) (* [emit('error', {url, error})] *)
| EvEmitFatal (e : Error)         (* [emit('error', error)] in the catch *)
| EvEmitComplete (n : nat).       (* [emit('complete', ..)], n results *)

Section Crawler.
Context `{P : Platform}.

(** The fields of a [WebCrawler] instance, the number of listeners its
    [EventEmitter] part holds for 'error', the world and the ghost trace. *)
Record Crawler := {
  options : Options;
  visitedUrls : gset string;
  failedUrls : gset string;
  results : list PageResult;
  robotsCache : gmap string (option Robots);
  errorListeners : nat;
  world : World;
  trace : list Event
}.

Definition set_visitedUrls (f : gset string → gset string) (c : Crawler) :=
  {| options := options c; visitedUrls := f (visitedUrls c);
     failedUrls := failedUrls c; results := results c;
     robotsCache := robotsCache c; errorListeners := errorListeners c;
     world := world c; trace := trace c |}.

Definition set_failedUrls (f : gset string → gset string) (c : Crawler) :=
  {| options := options c; visitedUrls := visitedUrls c;
     failedUrls := f (failedUrls c); results := results c;
     robotsCache := robotsCache c; errorListeners := errorListeners c;
     world := world c; trace := trace c |}.

Definition set_results (f : list PageResult → list PageResult) (c : Crawler) :=
  {| options := options c; visitedUrls := visitedUrls c;
     failedUrls := failedUrls c; results := f (results c);
     robotsCache := robotsCache c; errorListeners := errorListeners c;
     world := world c; trace := trace c |}.

Definition set_robotsCache
    (f : gmap string (option Robots) → gmap string (option Robots))
    (c : Crawler) :=
  {| options := options c; visitedUrls := visitedUrls c;
     failedUrls := failedUrls c; results := results c;
     robotsCache := f (robotsCache c); errorListeners := errorListeners c;
     world := world c; trace := trace c |}.

Definition set_errorListeners (f : nat → nat) (c : Crawler) :=
  {| options := options c; visitedUrls := visitedUrls c;
     failedUrls := failedUrls c; results := results c;
     robotsCache := robotsCache c; errorListeners := f (errorListeners c);
     world := world c; trace := trace c |}.

Definition set_world (f : World → World) (c : Crawler) :=
  {| options := options c; visitedUrls := visitedUrls c;
     failedUrls := failedUrls c; results := results c;
     robotsCache := robotsCache c; errorListeners := errorListeners c;
     world := f (world c); trace := trace c |}.

Definition set_trace (f : list Event → list Event) (c : Crawler) :=
  {| options := options c; visitedUrls := visitedUrls c;
     failedUrls := failedUrls c; results := results c;
     robotsCache := robotsCache c; errorListeners := errorListeners c;
     world := world c; trace := f (trace c) |}.

(** The fields as the constructor sets them (lines 29-32): nothing
    visited, nothing failed, no result, an empty cache; and no listener
    yet. *)
Definition fresh (opts : Options) (w : World) : Crawler :=
  {| options := opts; visitedUrls := ∅; failedUrls := ∅;
     results := []; robotsCache := ∅; errorListeners := 0;
     world := w; trace := [] |}.

(** The constructor: the merged options, the fresh fields, and [pLimit],
    which throws on a concurrency that is not at least 1. *)
Definition WebCrawler (o : UserOptions.t) (w : World) : Error + Crawler :=
  let opts := mergeOptions o in
  if Nat.ltb (maxConcurrency opts) 1
  then inl (TypeError "Expected `concurrency` to be a number from 1 and up")
  else inr (fresh opts w).

(** [crawler.on('error', listener)], inherited from [EventEmitter]. *)
Definition on_error (c : Crawler) : Crawler := set_errorListeners S c.

(** ** Computations of the instance

    A method runs on the instance and either returns, or throws, or (for
    the two loops, which carry a fuel) is cut short. *)
Inductive Completion (A : Type) :=
| Normal (a : A)
| Throw (e : Error)
| OutOfFuel.
Global Arguments Normal {A} a.
Global Arguments Throw {A} e.
Global Arguments OutOfFuel {A}.

Definition M (A : Type) : Type := Crawler → Completion A * Crawler.

Definition ret {A} (a : A) : M A := fun st => (Normal a, st).
Definition throw {A} (e : Error) : M A := fun st => (Throw e, st).
Definition out_of_fuel {A} : M A := fun st => (OutOfFuel, st).

Definition bind {A B} (m : M A) (k : A → M B) : M B :=
  fun st =>
    match m st with
    | (Normal a, st') => k a st'
    | (Throw e, st') => (Throw e, st')
    | (OutOfFuel, st') => (OutOfFuel, st')
    end.

(** [try { m } catch (e) { h(e) }] *)
Definition try_catch {A} (m : M A) (h : Error → M A) : M A :=
  fun st =>
    match m st with
    | (Throw e, st') => h e st'
    | r => r
    end.

Definition get : M Crawler := fun st => (Normal st, st).
Definition modify (f : Crawler → Crawler) : M unit :=
  fun st => (Normal tt, f st).

Notation "'let*' x ':=' m 'in' k" := (bind m (fun x => k))
  (at level 10, x name, m at level 100, k at level 200,
   format "'[v' 'let*'  x  ':='  m  'in' '/' k ']'").

Definition log (e : Event) : M unit := modify (set_trace (cons e)).

(** [await this.sleep(ms)] *)
Definition sleep (ms : nat) : M unit :=
  let* _ := log (EvSleep ms) in
  modify (set_world (set_timeout ms)).

(** [Date.now()] *)
Definition now : M Z := fun st => (Normal (date_now (world st)), st).

(** [httpClient.get(u)] inside a [try]: the rejection is handed to the
    [catch] as a value.  [ev] is the ghost event of the call site. *)
Definition httpClient_get (ev : Event) (u : string) : M (Error + Response) :=
  let* _ := log ev in
  fun st =>
    let '(r, w) := axios_get u (world st) in
    (Normal r, set_world (fun _ => w) st).

(** ** Extraction from the parsed page *)

(** [$(tag)] *)
Definition select_tag (tag : string) (doc : list Element) : list Element :=
  filter (fun el => tagName el = tag) doc.

(** [.attr(name)] of one element, [None] for [undefined] *)
Definition attr (name : string) (el : Element) : option string :=
  snd <$> List.find (fun kv => bool_decide (fst kv = name)) (attribs el).

(** [$('meta[name="n"]')] *)
Definition select_meta (n : string) (doc : list Element) : list Element :=
  filter (fun el => tagName el = "meta" ∧ attr "name" el = Some n) doc.

(** [$('tag[a]')]: the elements of that tag that carry attribute [a] *)
Definition select_with_attr (tag a : string) (doc : list Element)
  : list Element :=
  filter (fun el => tagName el = tag ∧ is_Some (attr a el)) doc.

(** [.text()] of a selection: the texts of all its elements, joined *)
Definition text (sel : list Element) : string :=
  foldr (fun el acc => textContent el +:+ acc) "" sel.

(** [.attr(name)] of a selection: that of its first element *)
Definition attr_first (name : string) (sel : list Element) : option string :=
  match sel with
  | el :: _ => attr name el
  | [] => None
  end.

(** The inner [.each] of [extractHeadings]: the trimmed texts that are not
    empty. *)
Definition headingTexts (tag : string) (doc : list Element) : list string :=
  filter (fun t => t ≠ "") (map (fun el => trim (textContent el))
                                (select_tag tag doc)).

Definition headingTags : list string := ["h1"; "h2"; "h3"; "h4"; "h5"; "h6"].

Definition extractHeadings (doc : list Element) : gmap string (list string) :=
  foldl (fun headings tag => <[tag := headingTexts tag doc]> headings)
        ∅ headingTags.

Definition extractLinks (doc : list Element) (baseUrl : string)
  : list Link.t :=
  foldl (fun links el =>
           match attr "href" el with
           | Some (String c r as href) =>
               match url_resolve href baseUrl with
               | Some absoluteUrl =>
                   links ++ [Link.mk absoluteUrl (trim (textContent el))
                                     (js_or (attr "title" el) "")]
               | None => links
               end
           | _ => links
           end)
        [] (select_with_attr "a" "href" doc).

Definition extractImages (doc : list Element) (baseUrl : string)
  : list Image.t :=
  foldl (fun images el =>
           match attr "src" el with
           | Some (String c r as src) =>
               match url_resolve src baseUrl with
               | Some absoluteUrl =>
                   images ++ [Image.mk absoluteUrl
                                (js_or (attr "alt" el) "")
                                (js_or (attr "title" el) "")
                                (js_or (attr "width" el) "")
                                (js_or (attr "height" el) "")]
               | None => images
               end
           | _ => images
           end)
        [] (select_with_attr "img" "src" doc).

(** The object literal of [crawlPage], lines 167-183. *)
Definition pageResult (u : string) (depth : nat) (parent : option string)
    (response : Response) (contentType : string)
    (startTime endTime stamp : Z) : PageResult :=
  let doc := cheerio_load (data response) in
  {| url := js_or (responseUrl response) u;
     originalUrl := u;
     title := js_or (Some (trim (text (select_tag "title" doc)))) "No title";
     description :=
       js_or (attr_first "content" (select_meta "description" doc)) "";
     keywords := js_or (attr_first "content" (select_meta "keywords" doc)) "";
     headings := extractHeadings doc;
     links := extractLinks doc u;
     images := extractImages doc u;
     statusCode := status response;
     contentLength := js_length (data response);
     contentType := contentType;
     crawlTime := endTime - startTime;
     depth := depth;
     parent := parent;
     timestamp := stamp |}.

(** ** The URL filter *)

(** [patterns.some(pattern => new RegExp(pattern).test(u))]: stops at the
    first match; a pattern that does not compile throws. *)
Fixpoint some_match (patterns : list string) (u : string) : Error + bool :=
  match patterns with
  | [] => inr false
  | pattern :: rest =>
      match regexp_test pattern u with
      | None => inl (RegExpSyntaxError pattern)
      | Some true => inr true
      | Some false => some_match rest u
      end
  end.

(** One turn of the [for] loop of [extractAndFilterUrls]: [inr true] when
    the link reaches [filteredUrls.push], [inr false] on a [continue]. *)
Definition keepUrl (o : Options) (baseUrl u : string) : Error + bool :=
  if negb (bool_decide (url_protocol u ∈ ["http:"; "https:"])) then inr false
  else if negb (followExternalLinks o)
          && negb (bool_decide (url_hostname u = url_hostname baseUrl))
  then inr false
  else if Nat.ltb 0 (length (allowedDomains o))
          && negb (bool_decide (url_hostname u ∈ allowedDomains o))
  then inr false
  else
    match some_match (excludePatterns o) u with
    | inl e => inl e
    | inr true => inr false
    | inr false =>
        if Nat.ltb 0 (length (includePatterns o)) then
          match some_match (includePatterns o) u with
          | inl e => inl e
          | inr matched => inr matched
          end
        else inr true
    end.

Fixpoint filterUrls (o : Options) (baseUrl : string) (ls : list Link.t)
  : Error + list string :=
  match ls with
  | [] => inr []
  | link :: rest =>
      match keepUrl o baseUrl (Link.url link) with
      | inl e => inl e
      | inr keep =>
          match filterUrls o baseUrl rest with
          | inl e => inl e
          | inr filteredUrls =>
              inr (if keep then Link.url link :: filteredUrls
                   else filteredUrls)
          end
      end
  end.

(** [extractAndFilterUrls(links, baseUrl, depth)]; the third argument is
    not used by the source either. *)
Definition extractAndFilterUrls (o : Options) (ls : list Link.t)
    (baseUrl : string) (depth : nat) : Error + list string :=
  match filterUrls o baseUrl ls with
  | inl e => inl e
  | inr filteredUrls => inr (set_spread filteredUrls)
  end.

(** ** robots.txt *)

Definition robotsUrlOf (u : string) : string :=
  url_protocol u +:+ "//" +:+ url_host u +:+ "/robots.txt".

(** The body of the outer [try] of [isAllowedByRobots]. *)
Definition checkRobots (u : string) : M bool :=
  let robotsUrl := robotsUrlOf u in
  let* st := get in
  let* _ :=
    if bool_decide (is_Some (robotsCache st !! robotsUrl)) then ret tt
    else
      let* r := httpClient_get (EvGetRobots robotsUrl) robotsUrl in
      match r with
      | inr response =>
          match robotsParser robotsUrl (data response) with
          | Some robots =>
              modify (set_robotsCache (insert robotsUrl (Some robots)))
          | None => modify (set_robotsCache (insert robotsUrl None))
          end
      | inl _ => modify (set_robotsCache (insert robotsUrl None))
      end in
  let* st := get in
  match robotsCache st !! robotsUrl with
  | Some (Some robots) =>
      match robots_isAllowed robots u (userAgent (options st)) with
      | inr allowed => ret allowed
      | inl e => throw e
      end
  | _ => ret true
  end.

Definition isAllowedByRobots (u : string) : M bool :=
  try_catch (checkRobots u) (fun _ => ret true).

(** ** Fetching one page *)

(** The [while (retries <= maxRetries)] loop of [crawlPage].  [None] is
    the [null] (or the [undefined] of falling out of the loop) that the
    caller tests for truthiness. *)
Fixpoint fetchLoop (fuel : nat) (u : string) (depth : nat)
    (parent : option string) (startTime : Z) (retries : nat)
  : M (option PageResult) :=
  match fuel with
  | 0 => out_of_fuel
  | S fuel' =>
      let* st := get in
      if Nat.leb retries (maxRetries (options st)) then
        let* r := httpClient_get (EvGetPage u) u in
        match r with
        | inr response =>
            let* endTime := now in
            let contentType := js_or (content_type response) "" in
            if negb (includes "text/html" contentType) then ret None
            else
              let* stamp := now in
              ret (Some (pageResult u depth parent response contentType
                                    startTime endTime stamp))
        | inl error =>
            let retries := S retries in
            if Nat.ltb (maxRetries (options st)) retries then throw error
            else
              let* _ := sleep (1000 * retries) in
              fetchLoop fuel' u depth parent startTime retries
        end
      else ret None
  end.

Definition crawlPage (u : string) (depth : nat) (parent : option string)
  : M (option PageResult) :=
  let* st := get in
  if bool_decide (u ∈ visitedUrls st) then
    let* _ := log (EvSkip u) in
    ret None
  else
    let* _ := log (EvVisit u) in
    let* _ := modify (set_visitedUrls (union {[u]})) in
    let* blocked :=
      if respectRobotsTxt (options st)
      then let* allowed := isAllowedByRobots u in ret (negb allowed)
      else ret false in
    if blocked then ret None
    else
      let* startTime := now in
      fetchLoop (S (maxRetries (options st))) u depth parent startTime 0.

(** ** The scheduler *)

(** What [Promise.allSettled] reports for one promise. *)
Inductive Settled :=
| Fulfilled (value : option PageResult)
| Rejected (reason : Error).

Definition settle (m : M (option PageResult)) : M Settled :=
  fun st =>
    match m st with
    | (Normal v, st') => (Normal (Fulfilled v), st')
    | (Throw e, st') => (Normal (Rejected e), st')
    | (OutOfFuel, st') => (OutOfFuel, st')
    end.

(** [await Promise.allSettled(batch.map(item => this.limit(() =>
    this.crawlPage(item.url, item.depth, item.parent))))].

    The tasks of a batch are started in batch order, and the test and the
    insertion on [visitedUrls] at the head of [crawlPage] run before its
    first [await]; the model runs the tasks one after the other in that
    order.  A batch is never longer than [maxConcurrency], so the limiter
    holds none of them back. *)
Fixpoint dispatch (batch : list Item.t) : M (list Settled) :=
  match batch with
  | [] => ret []
  | item :: rest =>
      let* r := settle (crawlPage (Item.url item) (Item.depth item)
                                  (Item.parent item)) in
      let* rs := dispatch rest in
      ret (r :: rs)
  end.

(** [emit('error', {url, error})].  The class extends the [EventEmitter]
    of Node's [events] module, for which 'error' is a special event: when
    it is emitted and no listener is registered for it, [emit] throws.
    The payload here is a plain object, not an [Error], so what is thrown
    is the wrapper error that carries it. *)
Definition emit_error (u : string) (cause : Error) : M unit :=
  let* _ := log (EvEmitError u cause) in
  let* st := get in
  if Nat.ltb 0 (errorListeners st) then ret tt
  else throw (UnhandledError u cause).

(** [emit('error', error)] of the [catch] of [crawl]: with no listener the
    [Error] instance itself is thrown. *)
Definition emit_fatal (error : Error) : M unit :=
  let* _ := log (EvEmitFatal error) in
  let* st := get in
  if Nat.ltb 0 (errorListeners st) then ret tt
  else throw error.

(** The [newUrls.forEach] of lines 93-97. *)
Fixpoint enqueueNew (newUrls : list string) (depth : nat) (parent : string)
    (queue : list Item.t) : M (list Item.t) :=
  match newUrls with
  | [] => ret queue
  | u :: rest =>
      let* st := get in
      if negb (bool_decide (u ∈ visitedUrls st))
         && negb (bool_decide (u ∈ failedUrls st))
      then
        let item := Item.mk u depth (Some parent) in
        let* _ := log (EvPush item) in
        enqueueNew rest depth parent (queue ++ [item])
      else enqueueNew rest depth parent queue
  end.

(** The body of the [for] loop over [batchResults], lines 78-105. *)
Definition handleResult (item : Item.t) (result : Settled)
    (queue : list Item.t) : M (list Item.t) :=
  match result with
  | Fulfilled (Some crawlResult) =>
      let* _ := log (EvResult crawlResult) in
      let* _ := modify (set_results (fun rs => rs ++ [crawlResult])) in
      let* st := get in
      let* queue :=
        if Nat.ltb (Item.depth item) (maxDepth (options st)) then
          match extractAndFilterUrls (options st) (links crawlResult)
                  (url crawlResult) (Item.depth item + 1) with
          | inl e => throw e
          | inr newUrls =>
              enqueueNew newUrls (Item.depth item + 1) (url crawlResult)
                         queue
          end
        else ret queue in
      let* _ := log (EvEmitPage crawlResult) in
      ret queue
  | Rejected reason =>
      let* _ := log (EvFailed (Item.url item)) in
      let* _ := modify (set_failedUrls (union {[Item.url item]})) in
      let* _ := emit_error (Item.url item) reason in
      ret queue
  | Fulfilled None => ret queue
  end.

(** The [for (let i = 0; i < batchResults.length; i++)] loop. *)
Fixpoint handleResults (batch : list Item.t) (batchResults : list Settled)
    (queue : list Item.t) : M (list Item.t) :=
  match batch, batchResults with
  | item :: batch', result :: batchResults' =>
      let* queue := handleResult item result queue in
      handleResults batch' batchResults' queue
  | _, _ => ret queue
  end.

(** The [while] loop of [crawl], lines 69-112. *)
Fixpoint crawlLoop (fuel : nat) (queue : list Item.t) : M unit :=
  match fuel with
  | 0 => out_of_fuel
  | S fuel' =>
      let* st := get in
      if Nat.ltb 0 (length queue)
         && Nat.ltb (length (results st)) (maxPages (options st))
      then
        let batch := take (maxConcurrency (options st)) queue in
        let queue := drop (maxConcurrency (options st)) queue in
        let* batchResults := dispatch batch in
        let* queue := handleResults batch batchResults queue in
        let* _ :=
          if Nat.ltb 0 (length queue) && Nat.ltb 0 (delay (options st))
          then sleep (delay (options st))
          else ret tt in
        crawlLoop fuel' queue
      else ret tt
  end.

(** The [summary] object.  [averageTime] is a quotient of two integers;
    it is kept as the exact rational. *)
Record Summary := {
  totalPages : nat;
  failedPages : nat;
  totalTime : Z;
  averageTime : QArith_base.Q
}.

Definition summarize (st : Crawler) (startTime endTime : Z) : Summary :=
  {| totalPages := length (results st);
     failedPages := size (failedUrls st);
     totalTime := endTime - startTime;
     averageTime :=
       if Nat.ltb 0 (length (results st))
       then QArith_base.Qdiv (QArith_base.inject_Z (endTime - startTime))
              (QArith_base.inject_Z (Z.of_nat (length (results st))))
       else QArith_base.inject_Z 0 |}.

(** [crawl(startUrl)].  [fuel] bounds the number of batches. *)
Definition crawl (fuel : nat) (startUrl : string)
  : M (list PageResult * Summary) :=
  let* startTime := now in
  let queue := [Item.mk startUrl 0 None] in
  try_catch
    (let* _ := crawlLoop fuel queue in
     let* endTime := now in
     let* st := get in
     let summary := summarize st startTime endTime in
     let* _ := log (EvEmitComplete (length (results st))) in
     ret (results st, summary))
    (fun error =>
       let* _ := emit_fatal error in
       throw error).

End Crawler.

(** ** The read-only methods *)

(** The object returned by [getSummary()]. *)
Module Stats.
Record t := mk {
  totalPages : nat;
  visitedUrls : nat;
  failedUrls : nat;
  uniqueDomains : nat }.
End Stats.

Section Utilities.
Context `{P : Platform}.

(** [getResults()] *)
Definition getResults (st : Crawler) : list PageResult := results st.

(** [getSummary()]: [uniqueDomains] is the size of the [Set] of the host
    names of the results' URLs. *)
Definition getSummary (st : Crawler) : Stats.t :=
  Stats.mk (length (results st)) (size (visitedUrls st))
    (size (failedUrls st))
    (size (list_to_set (map (fun r => url_hostname (url r)) (results st))
           : gset string)).

End Utilities.

(** ** The program of [src/app.js] *)

Module App.

(** The [startUrl] and the options literal of [runCrawler]. *)
Definition startUrl : string := "https://www.example.com".

Definition options : UserOptions.t :=
  UserOptions.mk (Some 1) (Some 10) None None None None None None None
                 None None None.

(** How [runCrawler] ends once the instance is built: the [try] block
    has printed the number of results and the summary that [crawl]
    returned, or the [catch] block has printed a fatal error. *)
Inductive Ending :=
| Returned (results : list PageResult) (summary : Summary)
| Caught.

End App.

Section Application.
Context `{P : Platform}.

(** [runCrawler()], once the module of the class is loaded (the import
    names it [./WebCrawler.js]).  The constructor call stands outside the
    [try]; the three [on] calls attach one listener each, of which only
    the one for 'error' matters to the crawler.  What the listeners and
    the two blocks print is left out, and with it the error that the
    [catch] block is handed. *)
Definition runCrawler (fuel : nat) (w : World)
  : Error + Completion App.Ending * Crawler :=
  match WebCrawler App.options w with
  | inl e => inl e
  | inr crawler =>
      inr (try_catch
             (bind (crawl fuel App.startUrl)
                (fun r => ret (App.Returned r.1 r.2)))
             (fun _ => ret App.Caught)
             (on_error crawler))
  end.

End Application.

(** * Specification

    The predicates in which the properties of the crawler are stated. *)

Section Specification.
Context `{P : Platform}.

(** ** Weakest preconditions

    [wp m Q I st]: run from [st], [m] ends in a state that satisfies [Q]
    with the value returned or, when it throws or is cut short, [I]. *)
Definition wp {A} (m : M A) (Q : A → Crawler → Prop) (I : Crawler → Prop)
    (st : Crawler) : Prop :=
  match m st with
  | (Normal a, st') => Q a st'
  | (_, st') => I st'
  end.

(** ** Nothing is ever reset

    Every method leaves the options and the listeners alone and only adds
    to the sets, the results, the cache and the trace. *)
Record extends (st0 st : Crawler) : Prop := {
  ext_options : options st = options st0;
  ext_listeners : errorListeners st = errorListeners st0;
  ext_visited : visitedUrls st0 ⊆ visitedUrls st;
  ext_failed : failedUrls st0 ⊆ failedUrls st;
  ext_results : results st0 `prefix_of` results st;
  ext_cache : robotsCache st0 ⊆ robotsCache st;
  ext_trace : trace st0 `suffix_of` trace st
}.

(** ** The trace as a run of a guarded transition system

    Each ghost event stands for one mutation of the instance
    ([apply_event]) and is logged only in states that satisfy its
    [guard].  [History st0 evs st] says that [st] is reached from [st0]
    by the events [evs] (most recent first), each one taken under its
    guard.  The world and the robots cache move freely. *)
Definition apply_event (e : Event) (st : Crawler) : Crawler :=
  set_trace (cons e)
    match e with
    | EvVisit u => set_visitedUrls (union {[u]}) st
    | EvFailed u => set_failedUrls (union {[u]}) st
    | EvResult r => set_results (fun rs => rs ++ [r]) st
    | _ => st
    end.

(** What the code has tested, in the state where it logs the event. *)
Definition guard (e : Event) (st : Crawler) : Prop :=
  match e with
  | EvSkip u => u ∈ visitedUrls st
  | EvVisit u => u ∉ visitedUrls st
  | EvGetPage u => u ∈ visitedUrls st
  | EvPush item =>
      (Item.url item ∉ visitedUrls st) ∧ (Item.url item ∉ failedUrls st) ∧
      ∃ r, r ∈ results st ∧ Item.parent item = Some (url r) ∧
           Item.depth item = (depth r + 1)%nat ∧
           (depth r < maxDepth (options st))%nat
  | EvResult r => (depth r ≤ maxDepth (options st))%nat
  | EvEmitError u _ => u ∈ failedUrls st
  | _ => True
  end.

(** Two states that differ at most in the world and the robots cache. *)
Record same_fields (st st' : Crawler) : Prop := {
  same_options : options st' = options st;
  same_listeners : errorListeners st' = errorListeners st;
  same_visited : visitedUrls st' = visitedUrls st;
  same_failed : failedUrls st' = failedUrls st;
  same_results : results st' = results st;
  same_trace : trace st' = trace st
}.

Inductive History (st0 : Crawler) : list Event → Crawler → Prop :=
| History_nil st :
    same_fields st0 st → History st0 [] st
| History_cons evs st e st' :
    History st0 evs st → guard e st → same_fields (apply_event e st) st' →
    History st0 (e :: evs) st'.

(** [st] is reached from [st0] by some history. *)
Definition Reach (st0 st : Crawler) : Prop := ∃ evs, History st0 evs st.

(** What ties a settled promise to the queue item it was started for. *)
Definition settled_for (item : Item.t) (result : Settled) : Prop :=
  ∀ r, result = Fulfilled (Some r) → depth r = Item.depth item.

(** The depth an item may have in the queue. *)
Definition within_depth (o : Options) (item : Item.t) : Prop :=
  (Item.depth item ≤ maxDepth o)%nat.

(** ** What a history tells *)

(** The URLs added to [visitedUrls], those added to [failedUrls] and the
    results pushed, as a list of events records them. *)
Definition visits (evs : list Event) : list string :=
  omap (fun e => match e with EvVisit u => Some u | _ => None end) evs.

Definition failures (evs : list Event) : list string :=
  omap (fun e => match e with EvFailed u => Some u | _ => None end) evs.

Definition pushedResults (evs : list Event) : list PageResult :=
  omap (fun e => match e with EvResult r => Some r | _ => None end) evs.

(** What [keepUrl] has checked when it lets a URL through. *)
Definition passes (o : Options) (baseUrl u : string) : Prop :=
  (url_protocol u = "http:" ∨ url_protocol u = "https:") ∧
  (followExternalLinks o = false → url_hostname u = url_hostname baseUrl) ∧
  (allowedDomains o ≠ [] → url_hostname u ∈ allowedDomains o) ∧
  (∀ pattern, pattern ∈ excludePatterns o →
              regexp_test pattern u = Some false) ∧
  (includePatterns o ≠ [] →
   ∃ pattern, pattern ∈ includePatterns o ∧
              regexp_test pattern u = Some true).

(** ** robots.txt *)

(** The host of [u] has no cache entry yet, and its robots.txt either
    cannot be fetched or cannot be parsed. *)
Definition robots_unavailable (u : string) (st : Crawler) : Prop :=
  robotsCache st !! robotsUrlOf u = None ∧
  ∀ response, (axios_get (robotsUrlOf u) (world st)).1 = inr response →
              robotsParser (robotsUrlOf u) (data response) = None.

(** ** Running out of fuel

    [fueled m st]: the run of [m] from [st] is not cut short. *)
Definition fueled {A} (m : M A) (st : Crawler) : Prop :=
  (m st).1 ≠ OutOfFuel.

(** ** Retrying a page that never answers *)

(** The requests and waits of a page whose fetch fails every time, in the
    order they happen: [n] more attempts follow the one made after
    [retries] failures. *)
Fixpoint attempts (u : string) (retries n : nat) : list Event :=
  match n with
  | 0 => [EvGetPage u]
  | S n' =>
      EvGetPage u :: EvSleep (1000 * S retries)
        :: attempts u (S retries) n'
  end.

(** The events of the retry loop: page requests and waits. *)
Definition is_retry_event (e : Event) : bool :=
  match e with
  | EvGetPage _ | EvSleep _ => true
  | _ => false
  end.

(** The page requests and the waits that a list of events records. *)
Definition fetchesOf (evs : list Event) : list string :=
  omap (fun e => match e with EvGetPage u => Some u | _ => None end) evs.

Definition sleepsOf (evs : list Event) : list nat :=
  omap (fun e => match e with EvSleep ms => Some ms | _ => None end) evs.

(** Every request for [u] is rejected, whatever the state of the world. *)
Definition always_fails (u : string) : Prop :=
  ∀ w, ∃ e, (axios_get u w).1 = inl e.

(** The instance just after [visitedUrls.add(u)]. *)
Definition afterVisit (u : string) (st : Crawler) : Crawler :=
  set_visitedUrls (union {[u]}) (set_trace (cons (EvVisit u)) st).

(** The robots check, where it is enabled, lets [u] through. *)
Definition robots_allow (u : string) (st : Crawler) : Prop :=
  respectRobotsTxt (options st) = true →
  (isAllowedByRobots u (afterVisit u st)).1 = Normal true.

(** ** Completion

    What fetching a page leaves alone: the options, the listeners, the
    results and the failed set. *)
Record keeps (st st' : Crawler) : Prop := {
  keeps_options : options st' = options st;
  keeps_listeners : errorListeners st' = errorListeners st;
  keeps_results : results st' = results st;
  keeps_failed : failedUrls st' = failedUrls st
}.

(** [wpx m Q E D st] tells a throw ([E]) from a cut ([D]). *)
Definition wpx {A} (m : M A) (Q : A → Crawler → Prop)
    (E : Error → Crawler → Prop) (D : Crawler → Prop) (st : Crawler)
  : Prop :=
  match m st with
  | (Normal a, st') => Q a st'
  | (Throw e, st') => E e st'
  | (OutOfFuel, st') => D st'
  end.

(** All the patterns of the configuration compile. *)
Definition valid_patterns (o : Options) : Prop :=
  ∀ pattern u, pattern ∈ excludePatterns o ++ includePatterns o →
               regexp_test pattern u ≠ None.

(** An instance that has an 'error' listener, patterns that compile and
    the concurrency that its constructor insists on. *)
Record ready (st : Crawler) : Prop := {
  ready_listener : (0 < errorListeners st)%nat;
  ready_patterns : valid_patterns (options st);
  ready_concurrency : (1 ≤ maxConcurrency (options st))%nat
}.

(** [st'] is [st] with the results [new] appended, the options and the
    listeners being the same. *)
Record grows (st st' : Crawler) (new : list PageResult) : Prop := {
  grows_options : options st' = options st;
  grows_listeners : errorListeners st' = errorListeners st;
  grows_results : results st' = results st ++ new
}.

(** ** What the extractors keep *)

(** The link that one anchor gives: none when its [href] is empty or does
    not resolve. *)
Definition linkOf (baseUrl : string) (el : Element) : option Link.t :=
  match attr "href" el with
  | Some (String c r as href) =>
      match url_resolve href baseUrl with
      | Some absoluteUrl =>
          Some (Link.mk absoluteUrl (trim (textContent el))
                        (js_or (attr "title" el) ""))
      | None => None
      end
  | _ => None
  end.

(** The record that one image element gives. *)
Definition imageOf (baseUrl : string) (el : Element) : option Image.t :=
  match attr "src" el with
  | Some (String c r as src) =>
      match url_resolve src baseUrl with
      | Some absoluteUrl =>
          Some (Image.mk absoluteUrl
                  (js_or (attr "alt" el) "") (js_or (attr "title" el) "")
                  (js_or (attr "width" el) "")
                  (js_or (attr "height" el) ""))
      | None => None
      end
  | _ => None
  end.

(** ** More of the page fetch *)

(** The instance when the retry loop of [crawlPage] starts: after the
    visit and, where it is enabled, the robots check. *)
Definition atFetch (u : string) (st : Crawler) : Crawler :=
  if respectRobotsTxt (options st)
  then (isAllowedByRobots u (afterVisit u st)).2
  else afterVisit u st.

(** The world after [k] failed requests for [u], each followed by the
    wait of the retry loop, the first of them being the request made after
    [retries] failures. *)
Fixpoint retryWorld (u : string) (retries k : nat) (w : World) : World :=
  match k with
  | 0 => w
  | S k' =>
      retryWorld u (S retries) k'
        (set_timeout (1000 * S retries) (axios_get u w).2)
  end.

(** The robots.txt requests that a list of events records. *)
Definition robotsOf (evs : list Event) : list string :=
  omap (fun e => match e with EvGetRobots k => Some k | _ => None end) evs.

(** What a cache entry answers for [u]. *)
Definition entryAllows (u : string) (st : Crawler)
    (entry : option Robots) : bool :=
  match entry with
  | Some robots =>
      match robots_isAllowed robots u (userAgent (options st)) with
      | inr allowed => allowed
      | inl _ => true
      end
  | None => true
  end.

(** ** More of the scheduler *)

(** The result in a slot of [batchResults] belongs to the item in the same
    slot of the batch. *)
Definition answers (item : Item.t) (result : Settled) : Prop :=
  ∀ r, result = Fulfilled (Some r) →
       originalUrl r = Item.url item ∧ depth r = Item.depth item ∧
       parent r = Item.parent item.

(** The items that [enqueueNew] pushes: one for each URL that is neither
    visited nor failed, in the order given. *)
Definition pushed (st : Crawler) (newUrls : list string) (depth : nat)
    (parent : string) : list Item.t :=
  map (fun u => Item.mk u depth (Some parent))
      (filter (fun u => (u ∉ visitedUrls st) ∧ (u ∉ failedUrls st))
              newUrls).

(** The invariant of the breadth-first order, on the depths [handled] of
    the results and [waiting] of the items still to handle, in order:
    together they never decrease, and nothing waits more than one level
    below the first in line. *)
Definition breadth_first (handled waiting : list nat) : Prop :=
  StronglySorted le (handled ++ waiting) ∧
  ∀ w, w ∈ waiting → (w ≤ hd 0%nat waiting + 1)%nat.

Definition in_order (st : Crawler) (waiting : list Item.t) : Prop :=
  breadth_first (map depth (results st)) (map Item.depth waiting).

(** One outcome for each URL.  Every failed URL and the original URL of
    every result is visited, no URL is both failed and the original URL of
    a result, and no two results have the same original URL. *)
Record consistent (st : Crawler) : Prop := {
  failed_visited : failedUrls st ⊆ visitedUrls st;
  results_visited : ∀ r, r ∈ results st → originalUrl r ∈ visitedUrls st;
  results_apart : ∀ r, r ∈ results st → originalUrl r ∉ failedUrls st;
  results_once : NoDup (map originalUrl (results st))
}.

(** The URLs of the items of a batch whose promise did not settle with
    null: those for which the loop over [batchResults] pushes a result or
    records a failure. *)
Fixpoint outcomes (batch : list Item.t) (batchResults : list Settled)
  : list string :=
  match batch, batchResults with
  | item :: batch', Fulfilled None :: batchResults' =>
      outcomes batch' batchResults'
  | item :: batch', _ :: batchResults' =>
      Item.url item :: outcomes batch' batchResults'
  | _, _ => []
  end.

(** The instance is consistent and the URLs [urls], all different, are
    visited but have no outcome yet. *)
Definition pending (st : Crawler) (urls : list string) : Prop :=
  consistent st ∧ NoDup urls ∧
  ∀ u, u ∈ urls →
       u ∈ visitedUrls st ∧ (u ∉ failedUrls st) ∧
       (u ∉ map originalUrl (results st)).

(** ** Which pages are asked for *)

(** The pages a run from [startUrl] may ask for, given the results [rs]
    so far: the start URL, and the URLs that pass the filter against the
    final URL of one of the results. *)
Definition admitted (o : Options) (startUrl : string)
    (rs : list PageResult) (u : string) : Prop :=
  u = startUrl ∨ ∃ r, r ∈ rs ∧ passes o (url r) u.

(** The instance has the options [o] and the results [rs], and every page
    request logged since the trace was [tr0] is for an admitted page. *)
Record polite (o : Options) (startUrl : string) (tr0 : list Event)
    (rs : list PageResult) (st : Crawler) : Prop := {
  polite_options : options st = o;
  polite_results : results st = rs;
  polite_trace :
    ∃ evs, trace st = evs ++ tr0 ∧
           Forall (admitted o startUrl rs) (fetchesOf evs)
}.

(** ** How long the crawler waits *)

(** The waits that the code schedules: the [delay] between two batches,
    when it is not zero, and the back-off of 1000 * k ms before the k-th
    retry of a page. *)
Definition scheduled (o : Options) (ms : nat) : Prop :=
  (ms = delay o ∧ (0 < delay o)%nat) ∨
  ∃ k, (1 ≤ k ≤ maxRetries o)%nat ∧ ms = (1000 * k)%nat.

(** The instance has the options [o], and every wait logged since the
    trace was [tr0] is a scheduled one. *)
Record paced (o : Options) (tr0 : list Event) (st : Crawler) : Prop := {
  paced_options : options st = o;
  paced_trace :
    ∃ evs, trace st = evs ++ tr0 ∧ Forall (scheduled o) (sleepsOf evs)
}.

(** ** What the listeners are told *)

(** The results announced by 'page' events, the URLs announced by 'error'
    events for a page, and the 'complete' events, as a list of events
    records them. *)
Definition pagesOf (evs : list Event) : list PageResult :=
  omap (fun e => match e with EvEmitPage r => Some r | _ => None end) evs.

Definition errorsOf (evs : list Event) : list string :=
  omap (fun e => match e with EvEmitError u _ => Some u | _ => None end)
       evs.

Definition completions (evs : list Event) : list nat :=
  omap (fun e => match e with EvEmitComplete n => Some n | _ => None end)
       evs.

(** Since [st0] every new result has been announced, in order, but for
    the last ones [late]; every failure has been announced; nothing has
    been declared complete. *)
Definition told (st0 st : Crawler) (late : list PageResult) : Prop :=
  ∃ evs,
    trace st = evs ++ trace st0 ∧
    results st = results st0 ++ rev (pagesOf evs) ++ late ∧
    errorsOf evs = failures evs ∧
    completions evs = [].

(** Between [st] and [st'] no robots.txt has been asked for: the options
    and the cache are the same, and no event logged since is a robots
    request. *)
Definition is_robots_request (e : Event) : bool :=
  match e with
  | EvGetRobots _ => true
  | _ => false
  end.

Record robotless (st st' : Crawler) : Prop := {
  robotless_options : options st' = options st;
  robotless_cache : robotsCache st' = robotsCache st;
  robotless_trace :
    ∃ evs, trace st' = evs ++ trace st ∧
           Forall (fun e => is_robots_request e = false) evs
}.

(** One pass of the [while] loop of [crawl], with what follows it as
    [next]: [crawlLoop (S fuel)] is [loopBody (crawlLoop fuel)]. *)
Definition loopBody (next : list Item.t → M unit) (queue : list Item.t)
  : M unit :=
  bind get (fun st =>
  if Nat.ltb 0 (length queue)
     && Nat.ltb (length (results st)) (maxPages (options st))
  then
    let batch := take (maxConcurrency (options st)) queue in
    let queue := drop (maxConcurrency (options st)) queue in
    bind (dispatch batch) (fun batchResults =>
    bind (handleResults batch batchResults queue) (fun queue =>
    bind (if Nat.ltb 0 (length queue) && Nat.ltb 0 (delay (options st))
          then sleep (delay (options st))
          else ret tt) (fun _ =>
    next queue)))
  else ret tt).

End Specification.

(** ** A small web to run the crawler on

    A platform whose world is the clock: every request takes 200 ms.
    [https://site.test/] links to [/a], [/b], [/c] and to another host;
    [/a] and [/b] both link to [/d].  [https://shop.test/] links to [/ok]
    and to [/dead], which never answers, as nothing on [down.test] does.
    No host serves a robots.txt, except [private.test], which forbids
    everything. *)
Module Toy.

Fixpoint upto (c : ascii) (s : string) : string :=
  match s with
  | String a r => if Ascii.eqb a c then "" else String a (upto c r)
  | EmptyString => ""
  end.

Fixpoint after (c : ascii) (s : string) : string :=
  match s with
  | String a r => if Ascii.eqb a c then r else after c r
  | EmptyString => ""
  end.

Definition protocol (u : string) : string := upto ":" u +:+ ":".
Definition host (u : string) : string :=
  match after ":" u with
  | String "/" (String "/" r) => upto "/" r
  | _ => ""
  end.
Definition hostname (u : string) : string := upto ":" (host u).

Definition resolve (ref base : string) : option string :=
  if includes "://" ref then Some ref
  else match ref with
       | String "/" _ => Some (protocol base +:+ "//" +:+ host base +:+ ref)
       | _ => None
       end.

Definition anchor (href : string) : Element :=
  {| tagName := "a"; attribs := [("href", href)]; textContent := href |}.

Definition doc (name : string) (hrefs : list string) : list Element :=
  {| tagName := "title"; attribs := []; textContent := name |}
  :: {| tagName := "h1"; attribs := []; textContent := " " +:+ name |}
  :: map anchor hrefs.

Definition load (body : string) : list Element :=
  if String.eqb body "home" then
    doc "Home" ["/a"; "/b"; "/c"; "https://other.test/x"]
  else if String.eqb body "a" then doc "A" ["https://site.test/d"]
  else if String.eqb body "b" then doc "B" ["https://site.test/d"]
  else if String.eqb body "shop" then doc "Shop" ["/ok"; "/dead"]
  else if String.eqb body "bare" then []
  else doc body [].

Definition html (body : string) : Error + Response :=
  inr {| status := 200; content_type := Some "text/html; charset=utf-8";
         data := body; responseUrl := None |}.

Definition serve (u : string) : Error + Response :=
  if String.eqb u "https://site.test/" then html "home"
  else if String.eqb u "https://site.test/a" then html "a"
  else if String.eqb u "https://site.test/b" then html "b"
  else if String.eqb u "https://site.test/c" then html "c"
  else if String.eqb u "https://site.test/d" then html "d"
  else if String.eqb u "https://site.test/bare" then html "bare"
  else if String.eqb u "https://shop.test/" then html "shop"
  else if String.eqb u "https://shop.test/ok" then html "ok"
  else if String.eqb u "https://private.test/robots.txt" then
    inr {| status := 200; content_type := Some "text/plain";
           data := "Disallow: /"; responseUrl := None |}
  else if String.eqb (hostname u) "down.test" then
    inl (HttpError "connect ECONNREFUSED")
  else inl (HttpError "Request failed with status code 404").

#[export] Instance platform : Platform := {|
  World := Z;
  Robots := bool;
  date_now := fun w => w;
  set_timeout := fun ms w => (w + Z.of_nat ms)%Z;
  axios_get := fun u w => (serve u, (w + 200)%Z);
  cheerio_load := load;
  url_resolve := resolve;
  url_protocol := protocol;
  url_hostname := hostname;
  url_host := host;
  robotsParser := fun _ body => Some (includes "Disallow: /" body);
  robots_isAllowed := fun forbidden _ _ => inr (negb forbidden);
  regexp_test := fun pattern s =>
    if includes "(" pattern then None else Some (includes pattern s)
|}.

(** What [new WebCrawler(o)] returns at time 0 (for options that the
    constructor accepts), after [n] calls of [on('error', ..)]. *)
Definition instance (o : UserOptions.t) (listeners : nat) : Crawler :=
  Nat.iter listeners on_error (fresh (mergeOptions o) 0%Z).

(** The options of [app.js]. *)
Definition appOptions : UserOptions.t :=
  UserOptions.mk (Some 1) (Some 10) None None None None None None None
                 None None None.

Definition maxPages2 : UserOptions.t :=
  UserOptions.mk None (Some 2) None None None None None None None
                 None None None.

End Toy.

(** ** A second web, whose server takes its time

    [slow.test] refuses every connection until 3 s have passed on the
    clock.  It has a home page, a PDF and a page whose title and heading
    are a no-break space and whose one link is padded with such spaces,
    and no robots.txt.  The rest is as in the first web. *)
Module Slow.

Definition nbsp : string := utf8 [194; 160].

Definition load (body : string) : list Element :=
  if String.eqb body "blank" then
    [ {| tagName := "title"; attribs := []; textContent := nbsp |};
      {| tagName := "h1"; attribs := []; textContent := nbsp |};
      {| tagName := "a"; attribs := [("href", "/next")];
         textContent := nbsp +:+ "next" +:+ nbsp |} ]
  else Toy.load body.

Definition serve (u : string) (w : Z) : Error + Response :=
  if (w <? 3000)%Z then inl (HttpError "connect ECONNREFUSED")
  else if String.eqb u "https://slow.test/" then Toy.html "slow"
  else if String.eqb u "https://slow.test/blank" then Toy.html "blank"
  else if String.eqb u "https://slow.test/paper.pdf" then
    inr {| status := 200; content_type := Some "application/pdf";
           data := "%PDF-1.7"; responseUrl := None |}
  else inl (HttpError "Request failed with status code 404").

Definition platform : Platform := {|
  World := Z;
  Robots := bool;
  date_now := fun w => w;
  set_timeout := fun ms w => (w + Z.of_nat ms)%Z;
  axios_get := fun u w => (serve u w, (w + 200)%Z);
  cheerio_load := load;
  url_resolve := Toy.resolve;
  url_protocol := Toy.protocol;
  url_hostname := Toy.hostname;
  url_host := Toy.host;
  robotsParser := fun _ body => Some (includes "Disallow: /" body);
  robots_isAllowed := fun forbidden _ _ => inr (negb forbidden);
  regexp_test := fun pattern s =>
    if includes "(" pattern then None else Some (includes pattern s)
|}.

(** What [new WebCrawler({})] returns when the clock shows [t]. *)
Definition instance (t : Z) : @Crawler platform :=
  @fresh platform (mergeOptions UserOptions.empty) t.

End Slow.

(** * Properties *)

Section Reasoning.
Context `{P : Platform}.

Local Arguments Nat.mul : simpl never.

(** ** Rules of the weakest precondition *)

Lemma wp_bind {A B} (m : M A) (k : A → M B) Q I st :
  wp m (fun a => wp (k a) Q I) I st → wp (bind m k) Q I st.
Proof. unfold wp, bind. by destruct (m st) as [[a|e|] st']. Qed.

Lemma wp_mono {A} (m : M A) (Q Q' : A → Crawler → Prop)
    (I I' : Crawler → Prop) st :
  wp m Q I st →
  (∀ a st', Q a st' → Q' a st') → (∀ st', I st' → I' st') →
  wp m Q' I' st.
Proof. unfold wp. destruct (m st) as [[a|e|] st']; eauto. Qed.

Lemma wp_conj {A} (m : M A) (Q1 Q2 : A → Crawler → Prop)
    (I1 I2 : Crawler → Prop) st :
  wp m Q1 I1 st → wp m Q2 I2 st →
  wp m (fun a s => Q1 a s ∧ Q2 a s) (fun s => I1 s ∧ I2 s) st.
Proof. unfold wp. by destruct (m st) as [[a|e|] st']. Qed.

Lemma wp_True {A} (m : M A) st : wp m (fun _ _ => True) (fun _ => True) st.
Proof. unfold wp. by destruct (m st) as [[a|e|] st']. Qed.

Lemma wp_ret {A} (a : A) Q I st : Q a st → wp (ret a) Q I st.
Proof. done. Qed.

Lemma wp_throw {A} e (Q : A → Crawler → Prop) I st :
  I st → wp (throw e) Q I st.
Proof. done. Qed.

Lemma wp_out_of_fuel {A} (Q : A → Crawler → Prop) I st :
  I st → wp out_of_fuel Q I st.
Proof. done. Qed.

Lemma wp_get Q I st : Q st st → wp get Q I st.
Proof. done. Qed.

Lemma wp_modify f Q I st : Q tt (f st) → wp (modify f) Q I st.
Proof. done. Qed.

Lemma wp_log e Q I st : Q tt (set_trace (cons e) st) → wp (log e) Q I st.
Proof. done. Qed.

Lemma wp_now Q I st : Q (date_now (world st)) st → wp now Q I st.
Proof. done. Qed.

Lemma wp_sleep ms Q I st :
  Q tt (set_world (set_timeout ms) (set_trace (cons (EvSleep ms)) st)) →
  wp (sleep ms) Q I st.
Proof. done. Qed.

Lemma wp_httpClient_get ev u Q I st :
  Q (axios_get u (world st)).1
    (set_world (fun _ => (axios_get u (world st)).2)
               (set_trace (cons ev) st)) →
  wp (httpClient_get ev u) Q I st.
Proof.
  unfold wp, httpClient_get, bind, log, modify. simpl.
  by destruct (axios_get u (world st)).
Qed.

Lemma wp_try_catch {A} (m : M A) h Q I st :
  wp m Q (fun st' => I st' ∧ ∀ e, m st = (Throw e, st') → wp (h e) Q I st') st →
  wp (try_catch m h) Q I st.
Proof.
  unfold wp, try_catch.
  destruct (m st) as [[a|e|] st']; [done| |tauto].
  intros [_ H]. by apply H.
Qed.

Lemma wp_settle m Q I st :
  wp m (fun v => Q (Fulfilled v))
     (fun st' => I st' ∧ ∀ e, m st = (Throw e, st') → Q (Rejected e) st') st →
  wp (settle m) Q I st.
Proof.
  unfold wp, settle. destruct (m st) as [[a|e|] st']; [done| |tauto].
  intros [_ H]. by apply H.
Qed.

(** One step of symbolic execution of a monadic term. *)
Ltac wp_step :=
  lazymatch goal with
  | |- wp (bind _ _) _ _ _ => apply wp_bind
  | |- wp (ret _) _ _ _ => apply wp_ret
  | |- wp (throw _) _ _ _ => apply wp_throw
  | |- wp out_of_fuel _ _ _ => apply wp_out_of_fuel
  | |- wp get _ _ _ => apply wp_get
  | |- wp (modify _) _ _ _ => apply wp_modify
  | |- wp (log _) _ _ _ => apply wp_log
  | |- wp now _ _ _ => apply wp_now
  | |- wp (sleep _) _ _ _ => apply wp_sleep
  | |- wp (httpClient_get _ _) _ _ _ => apply wp_httpClient_get
  | |- wp (if ?b then _ else _) _ _ _ => destruct b eqn:?
  | |- wp (match ?x with _ => _ end) _ _ _ => destruct x eqn:?
  | |- wp (let _ := _ in _) _ _ _ => cbv zeta
  end.

Ltac wp_steps := repeat (wp_step; cbv beta).

(** Uses the lemma [H] for the call at the head of the goal, and leaves
    the continuation. *)
Ltac wp_call H :=
  lazymatch goal with
  | |- wp (bind _ _) _ _ _ =>
      apply wp_bind; eapply wp_mono; [eapply H | cbv beta | cbv beta]
  | |- _ => eapply wp_mono; [eapply H | cbv beta | cbv beta]
  end.

(** ** Nothing is ever reset *)

Lemma extends_refl st : extends st st.
Proof. by split. Qed.

Lemma extends_trans st0 st1 st2 :
  extends st0 st1 → extends st1 st2 → extends st0 st2.
Proof.
  intros [] []; split; try congruence; try (etrans; eassumption).
Qed.

Lemma extends_log st0 st e :
  extends st0 st → extends st0 (set_trace (cons e) st).
Proof.
  intros []; split; simpl; try done. by apply suffix_cons_r.
Qed.

Lemma extends_world st0 st f :
  extends st0 st → extends st0 (set_world f st).
Proof. by intros []; split. Qed.

Lemma extends_visit st0 st u :
  extends st0 st → extends st0 (set_visitedUrls (union {[u]}) st).
Proof. intros []; split; simpl; try done. set_solver. Qed.

Lemma extends_fail st0 st u :
  extends st0 st → extends st0 (set_failedUrls (union {[u]}) st).
Proof. intros []; split; simpl; try done. set_solver. Qed.

Lemma extends_result st0 st r :
  extends st0 st → extends st0 (set_results (fun rs => rs ++ [r]) st).
Proof.
  intros []; split; simpl; try done. by apply prefix_app_r.
Qed.

Lemma extends_cache st0 st k v :
  robotsCache st !! k = None →
  extends st0 st → extends st0 (set_robotsCache (insert k v) st).
Proof.
  intros Hk []; split; simpl; try done.
  etrans; [eassumption|]. by apply insert_subseteq.
Qed.

Create HintDb ext.
Hint Resolve extends_refl extends_log extends_world extends_visit
  extends_fail extends_result extends_cache : ext.

Ltac ext_auto := intros; cbv beta in *; eauto 10 with ext.

Lemma checkRobots_extends st0 u st :
  extends st0 st →
  wp (checkRobots u) (fun _ => extends st0) (extends st0) st.
Proof.
  intros H. unfold checkRobots. wp_steps; try ext_auto.
  all: try (apply bool_decide_eq_false_1 in Heqb;
            rewrite <- eq_None_not_Some in Heqb; simpl; ext_auto).
Qed.

Lemma isAllowedByRobots_extends st0 u st :
  extends st0 st →
  wp (isAllowedByRobots u) (fun _ => extends st0) (extends st0) st.
Proof.
  intros H. unfold isAllowedByRobots. apply wp_try_catch.
  wp_call (checkRobots_extends st0); [done|done|].
  intros st' H'. split; [done|]. intros. by wp_steps.
Qed.

Lemma fetchLoop_extends st0 fuel u d p t0 retries st :
  extends st0 st →
  wp (fetchLoop fuel u d p t0 retries) (fun _ => extends st0) (extends st0) st.
Proof.
  revert retries st. induction fuel as [|fuel IH]; intros retries st H;
    simpl; wp_steps; ext_auto.
Qed.

Lemma crawlPage_extends st0 u d p st :
  extends st0 st →
  wp (crawlPage u d p) (fun _ => extends st0) (extends st0) st.
Proof.
  intros H. unfold crawlPage. wp_steps; try ext_auto.
  - wp_call (isAllowedByRobots_extends st0); [ext_auto| |done].
    intros a st' H'. wp_steps; try ext_auto.
    by apply fetchLoop_extends.
  - apply fetchLoop_extends. ext_auto.
Qed.

Lemma dispatch_extends st0 batch st :
  extends st0 st →
  wp (dispatch batch) (fun _ => extends st0) (extends st0) st.
Proof.
  revert st. induction batch as [|item rest IH]; intros st H; simpl;
    wp_steps; [done|].
  apply wp_settle. wp_call (crawlPage_extends st0); [done| |].
  - intros v st' H'. wp_call IH; [done| |done]. intros; by wp_steps.
  - intros st' H'. split; [done|]. intros e _.
    wp_call IH; [done| |done]. intros; by wp_steps.
Qed.

Lemma enqueueNew_extends st0 newUrls d parent queue st :
  extends st0 st →
  wp (enqueueNew newUrls d parent queue) (fun _ => extends st0)
     (extends st0) st.
Proof.
  revert queue st. induction newUrls as [|u rest IH]; intros queue st H;
    simpl; wp_steps; try done; apply IH; ext_auto.
Qed.

Lemma emit_error_extends st0 u cause st :
  extends st0 st →
  wp (emit_error u cause) (fun _ => extends st0) (extends st0) st.
Proof. intros H. unfold emit_error. wp_steps; ext_auto. Qed.

Lemma emit_fatal_extends st0 e st :
  extends st0 st →
  wp (emit_fatal e) (fun _ => extends st0) (extends st0) st.
Proof. intros H. unfold emit_fatal. wp_steps; ext_auto. Qed.

Lemma handleResult_extends st0 item result queue st :
  extends st0 st →
  wp (handleResult item result queue) (fun _ => extends st0)
     (extends st0) st.
Proof.
  intros H. unfold handleResult. wp_steps; try ext_auto.
  - wp_call (enqueueNew_extends st0); [ext_auto| |done].
    intros; wp_steps; ext_auto.
  - wp_call (emit_error_extends st0); [ext_auto| |done].
    intros; by wp_steps.
Qed.

Lemma handleResults_extends st0 batch batchResults queue st :
  extends st0 st →
  wp (handleResults batch batchResults queue) (fun _ => extends st0)
     (extends st0) st.
Proof.
  revert batchResults queue st.
  induction batch as [|item batch IH]; intros [|r rs] queue st H; simpl;
    wp_steps; try done.
  wp_call (handleResult_extends st0); [done| |done].
  intros; by apply IH.
Qed.

Lemma crawlLoop_extends st0 fuel queue st :
  extends st0 st →
  wp (crawlLoop fuel queue) (fun _ => extends st0) (extends st0) st.
Proof.
  revert queue st. induction fuel as [|fuel IH]; intros queue st H; simpl;
    wp_steps; try done.
  wp_call (dispatch_extends st0); [done| |done]. intros rs st1 H1.
  wp_call (handleResults_extends st0); [done| |done]. intros q st2 H2.
  wp_steps; try apply IH; ext_auto.
Qed.

Lemma crawl_extends st0 fuel startUrl st :
  extends st0 st →
  wp (crawl fuel startUrl) (fun _ => extends st0) (extends st0) st.
Proof.
  intros H. unfold crawl. wp_steps. apply wp_try_catch.
  wp_call (crawlLoop_extends st0); [done| |].
  - intros _ st1 H1. wp_steps. ext_auto.
  - intros st1 H1. split; [done|]. intros e _.
    wp_call (emit_fatal_extends st0); [done| |done]. intros; by wp_steps.
Qed.

(** ** Histories *)

Lemma same_fields_refl st : same_fields st st.
Proof. by split. Qed.

Lemma same_fields_trans st1 st2 st3 :
  same_fields st1 st2 → same_fields st2 st3 → same_fields st1 st3.
Proof. intros [] []; split; congruence. Qed.

Lemma History_silent st0 evs st st' :
  History st0 evs st → same_fields st st' → History st0 evs st'.
Proof.
  intros H Hs. destruct H.
  - constructor. by eapply same_fields_trans.
  - econstructor; [eassumption..|]. by eapply same_fields_trans.
Qed.

Lemma Reach_refl st : Reach st st.
Proof. exists []. constructor. apply same_fields_refl. Qed.

Lemma Reach_silent st0 st st' :
  Reach st0 st → same_fields st st' → Reach st0 st'.
Proof. intros [evs H] Hs. exists evs. by eapply History_silent. Qed.

Lemma Reach_event st0 st e st' :
  Reach st0 st → guard e st → same_fields (apply_event e st) st' →
  Reach st0 st'.
Proof. intros [evs H] Hg Hs. exists (e :: evs). by econstructor. Qed.

Lemma History_options st0 evs st :
  History st0 evs st → options st = options st0.
Proof.
  induction 1 as [st []|evs st e st' _ IH _ []]; [done|].
  rewrite same_options0. by destruct e.
Qed.

Lemma Reach_options st0 st : Reach st0 st → options st = options st0.
Proof. intros [evs H]. by eapply History_options. Qed.

(** Closes, or reduces to its guards, a goal [Reach st0 st'] where [st']
    is a state known to be reachable to which the code has applied up to
    two logged mutations. *)
Ltac reach :=
  lazymatch goal with
  | H : Reach ?s0 ?st |- Reach ?s0 ?st' =>
      let t := eval simpl in (trace st') in
      lazymatch t with
      | trace st => apply (Reach_silent s0 st st' H); by split
      | ?e :: trace st =>
          apply (Reach_event s0 st e st' H); [simpl | by split]
      | ?e2 :: ?e1 :: trace st =>
          apply (Reach_event s0 (apply_event e1 st) e2 st');
          [ apply (Reach_event s0 st e1 _ H); [simpl | by split]
          | simpl | by split ]
      end
  end.

(** ** Every run is a history

    Method by method: from a state that a history leads to, the method
    ends in such a state, whether it returns or throws. *)

Lemma checkRobots_Reach st0 u st :
  Reach st0 st →
  wp (checkRobots u) (fun _ => Reach st0) (Reach st0) st.
Proof.
  intros H. unfold checkRobots. wp_steps; reach; done.
Qed.

Lemma isAllowedByRobots_Reach st0 u st :
  Reach st0 st →
  wp (isAllowedByRobots u) (fun _ => Reach st0) (Reach st0) st.
Proof.
  intros H. unfold isAllowedByRobots. apply wp_try_catch.
  wp_call (checkRobots_Reach st0); [done|done|].
  intros st' H'. split; [done|]. intros. by wp_steps.
Qed.

Lemma fetchLoop_Reach st0 fuel u d p t0 retries st :
  Reach st0 st → u ∈ visitedUrls st →
  wp (fetchLoop fuel u d p t0 retries)
     (fun v st' => Reach st0 st' ∧ ∀ r, v = Some r → depth r = d)
     (Reach st0) st.
Proof.
  revert retries st. induction fuel as [|fuel IH]; intros retries st H Hu;
    simpl; wp_steps; try done.
  - reach; done.
  - apply IH; [reach; done | done].
  - split; [reach; done | done].
  - split; [reach; done | by intros r' [= <-]].
Qed.

Lemma crawlPage_Reach st0 u d p st :
  Reach st0 st →
  wp (crawlPage u d p)
     (fun v st' => Reach st0 st' ∧ ∀ r, v = Some r → depth r = d)
     (Reach st0) st.
Proof.
  intros H. unfold crawlPage. wp_steps.
  - apply bool_decide_eq_true_1 in Heqb. split; [reach; done | done].
  - apply bool_decide_eq_false_1 in Heqb.
    set (st1 := set_visitedUrls _ _).
    assert (Reach st0 st1) as H1 by (subst st1; reach; done).
    assert (u ∈ visitedUrls st1) as Hu by (subst st1; simpl; set_solver).
    clearbody st1.
    eapply wp_mono.
    + apply wp_conj;
        [by apply (isAllowedByRobots_Reach st0)
        |apply (isAllowedByRobots_extends st1), extends_refl].
    + intros allowed st2 [H2 E2]. wp_steps; [done|].
      apply fetchLoop_Reach; [done|]. by apply (ext_visited _ _ E2).
    + by intros st2 [H2 _].
  - apply bool_decide_eq_false_1 in Heqb.
    apply fetchLoop_Reach; [reach; done | simpl; set_solver].
Qed.

Lemma dispatch_Reach st0 batch st :
  Reach st0 st →
  wp (dispatch batch)
     (fun rs st' => Reach st0 st' ∧ Forall2 settled_for batch rs)
     (Reach st0) st.
Proof.
  revert st. induction batch as [|item rest IH]; intros st H; simpl;
    wp_steps; [by split|].
  apply wp_settle. wp_call (crawlPage_Reach st0); [done| |].
  - intros v st' [H' Hv]. wp_call IH; [done| |done].
    intros rs st'' [H'' Hrs]. wp_steps. split; [done|].
    constructor; [|done]. by intros r [= ->]; apply Hv.
  - intros st' H'. split; [done|]. intros e _.
    wp_call IH; [done| |done].
    intros rs st'' [H'' Hrs]. wp_steps. split; [done|].
    by constructor.
Qed.

Lemma enqueueNew_Reach st0 newUrls r queue st :
  Reach st0 st → r ∈ results st →
  (depth r < maxDepth (options st0))%nat →
  Forall (within_depth (options st0)) queue →
  wp (enqueueNew newUrls (depth r + 1) (url r) queue)
     (fun queue' st' =>
        Reach st0 st' ∧ Forall (within_depth (options st0)) queue')
     (Reach st0) st.
Proof.
  intros H Hr Hd. revert queue st H Hr.
  induction newUrls as [|u rest IH]; intros queue st H Hr Hq; simpl;
    wp_steps; try done.
  - apply andb_true_iff in Heqb as [Hv Hf].
    apply negb_true_iff, bool_decide_eq_false_1 in Hv, Hf.
    apply IH.
    + reach. rewrite (Reach_options _ _ H). split_and!; [done..|].
      by exists r.
    + done.
    + apply Forall_app. split; [done|]. constructor; [|done].
      unfold within_depth. simpl. lia.
  - by apply IH.
Qed.

Lemma handleResult_Reach st0 item result queue st :
  Reach st0 st → within_depth (options st0) item →
  settled_for item result →
  Forall (within_depth (options st0)) queue →
  wp (handleResult item result queue)
     (fun queue' st' =>
        Reach st0 st' ∧ Forall (within_depth (options st0)) queue')
     (Reach st0) st.
Proof.
  intros H Hi Hr Hq. unfold handleResult, emit_error.
  pose proof (Reach_options _ _ H) as Ho.
  assert (∀ r, result = Fulfilled (Some r) →
               (depth r ≤ maxDepth (options st))%nat) as Hd.
  { intros r Er. rewrite (Hr r Er), Ho. exact Hi. }
  wp_steps; try (split; [reach|]; done).
  - reach. by apply Hd.
  - simpl in *. apply Nat.ltb_lt in Heqb. rewrite Ho in Heqb.
    rewrite <- (Hr p eq_refl) in Heqb |- *.
    wp_call (enqueueNew_Reach st0);
      [reach; by apply Hd|simpl; set_solver|exact Heqb|exact Hq| |by intros].
    intros queue1 st1 [H1 Hq1]. wp_steps. split; [reach|]; done.
  - split; [reach|]; try done. by apply Hd.
  - split; [reach|]; try done. simpl. set_solver.
  - reach; try done. simpl. set_solver.
Qed.

Lemma handleResults_Reach st0 batch batchResults queue st :
  Reach st0 st → Forall (within_depth (options st0)) batch →
  Forall2 settled_for batch batchResults →
  Forall (within_depth (options st0)) queue →
  wp (handleResults batch batchResults queue)
     (fun queue' st' =>
        Reach st0 st' ∧ Forall (within_depth (options st0)) queue')
     (Reach st0) st.
Proof.
  intros H Hb Hr. revert queue st H.
  induction Hr as [|item r batch rs Hir Hrs IH]; intros queue st H Hq;
    simpl; wp_steps; [done|].
  apply Forall_cons in Hb as [Hi Hb].
  wp_call (handleResult_Reach st0); [done..| |done].
  intros queue' st' [H' Hq']. by apply IH.
Qed.

Lemma crawlLoop_Reach st0 fuel queue st :
  Reach st0 st → Forall (within_depth (options st0)) queue →
  wp (crawlLoop fuel queue) (fun _ => Reach st0) (Reach st0) st.
Proof.
  revert queue st. induction fuel as [|fuel IH]; intros queue st H Hq;
    simpl; wp_steps; try done.
  wp_call (dispatch_Reach st0); [done| |done]. intros rs st1 [H1 Hrs].
  wp_call (handleResults_Reach st0);
    [done|by apply Forall_take|done|by apply Forall_drop| |done].
  intros queue' st2 [H2 Hq']. wp_steps; apply IH; try done.
  reach; done.
Qed.

Lemma crawl_Reach fuel startUrl st :
  wp (crawl fuel startUrl) (fun _ => Reach st) (Reach st) st.
Proof.
  unfold crawl, emit_fatal. wp_steps. apply wp_try_catch.
  wp_call (crawlLoop_Reach st); [apply Reach_refl| | |].
  - repeat constructor. unfold within_depth. simpl. lia.
  - intros _ st1 H1. wp_steps. reach; done.
  - intros st1 H1. split; [done|]. intros e _. wp_steps; reach; done.
Qed.

(** ** Reading a history *)

Lemma elem_of_visits u evs : u ∈ visits evs ↔ EvVisit u ∈ evs.
Proof.
  unfold visits. rewrite list_elem_of_omap. split.
  - intros (e & He & Hu). destruct e; try done. by injection Hu as ->.
  - intros He. by exists (EvVisit u).
Qed.

Lemma elem_of_failures u evs : u ∈ failures evs ↔ EvFailed u ∈ evs.
Proof.
  unfold failures. rewrite list_elem_of_omap. split.
  - intros (e & He & Hu). destruct e; try done. by injection Hu as ->.
  - intros He. by exists (EvFailed u).
Qed.

Lemma elem_of_pushedResults r evs : r ∈ pushedResults evs ↔ EvResult r ∈ evs.
Proof.
  unfold pushedResults. rewrite list_elem_of_omap. split.
  - intros (e & He & Hu). destruct e; try done. by injection Hu as ->.
  - intros He. by exists (EvResult r).
Qed.

Lemma History_trace st0 evs st :
  History st0 evs st → trace st = evs ++ trace st0.
Proof.
  induction 1 as [st Hs|evs st e st' _ IH _ Hs];
    rewrite (same_trace _ _ Hs); [done|].
  destruct e; simpl; by rewrite IH.
Qed.

Lemma History_visited st0 evs st :
  History st0 evs st →
  visitedUrls st = list_to_set (visits evs) ∪ visitedUrls st0.
Proof.
  induction 1 as [st Hs|evs st e st' _ IH _ Hs];
    rewrite (same_visited _ _ Hs).
  - set_solver.
  - destruct e; simpl; try done. rewrite IH. set_solver.
Qed.

Lemma History_failed st0 evs st :
  History st0 evs st →
  failedUrls st = list_to_set (failures evs) ∪ failedUrls st0.
Proof.
  induction 1 as [st Hs|evs st e st' _ IH _ Hs];
    rewrite (same_failed _ _ Hs).
  - set_solver.
  - destruct e; simpl; try done. rewrite IH. set_solver.
Qed.

Lemma History_results st0 evs st :
  History st0 evs st →
  results st = results st0 ++ rev (pushedResults evs).
Proof.
  induction 1 as [st Hs|evs st e st' _ IH _ Hs];
    rewrite (same_results _ _ Hs).
  - simpl. by rewrite app_nil_r.
  - destruct e; simpl; try done. rewrite IH. by rewrite <- app_assoc.
Qed.

(** Every event of a history was logged in a state that its own past
    leads to, and under its guard. *)
Lemma History_inv st0 l1 e l2 st :
  History st0 (l1 ++ e :: l2) st →
  ∃ st2, History st0 l2 st2 ∧ guard e st2.
Proof.
  revert st. induction l1 as [|e1 l1 IH]; intros st H; simpl in H;
    inversion H; subst; eauto.
Qed.

Lemma History_visits_fresh st0 evs st :
  History st0 evs st →
  NoDup (visits evs) ∧ ∀ u, u ∈ visits evs → u ∉ visitedUrls st0.
Proof.
  induction 1 as [st _|evs st e st' H [IH1 IH2] Hg _]; simpl.
  - split; [constructor|]. intros u Hu. by apply elem_of_nil in Hu.
  - destruct e; try (by split). simpl in Hg.
    rewrite (History_visited _ _ _ H) in Hg.
    split.
    + constructor; [set_solver|done].
    + intros u' [->|Hu']%elem_of_cons; [set_solver|by apply IH2].
Qed.

(** ** The URL filter *)

Lemma uniq_acc_spec seen xs :
  NoDup (uniq_acc seen xs) ∧
  ∀ x, x ∈ uniq_acc seen xs ↔ x ∈ xs ∧ x ∉ seen.
Proof.
  revert seen. induction xs as [|x xs IH]; intros seen; simpl.
  - split; [constructor|]. intros y. set_solver.
  - case_decide as Hx.
    + destruct (IH seen) as [IH1 IH2]. split; [done|].
      intros y. rewrite IH2. set_solver.
    + destruct (IH (x :: seen)) as [IH1 IH2]. split.
      * constructor; [|done]. rewrite IH2. set_solver.
      * intros y. rewrite elem_of_cons, IH2.
        destruct (decide (y = x)) as [->|]; set_solver.
Qed.

Lemma set_spread_NoDup xs : NoDup (set_spread xs).
Proof. apply uniq_acc_spec. Qed.

Lemma elem_of_set_spread x xs : x ∈ set_spread xs ↔ x ∈ xs.
Proof.
  unfold set_spread. rewrite (proj2 (uniq_acc_spec [] xs)). set_solver.
Qed.

Lemma some_match_false patterns u :
  some_match patterns u = inr false →
  ∀ pattern, pattern ∈ patterns → regexp_test pattern u = Some false.
Proof.
  induction patterns as [|q rest IH]; simpl; intros H pattern Hp.
  - by apply elem_of_nil in Hp.
  - destruct (regexp_test q u) as [[|]|] eqn:E; try done.
    apply elem_of_cons in Hp as [->|Hp]; [done|by apply IH].
Qed.

Lemma some_match_true patterns u :
  some_match patterns u = inr true →
  ∃ pattern, pattern ∈ patterns ∧ regexp_test pattern u = Some true.
Proof.
  induction patterns as [|q rest IH]; simpl; intros H; [done|].
  destruct (regexp_test q u) as [[|]|] eqn:E; try done.
  - exists q. split; [left|done].
  - destruct (IH H) as (pattern & Hp & Ht). exists pattern.
    split; [by right|done].
Qed.

Lemma keepUrl_passes o baseUrl u :
  keepUrl o baseUrl u = inr true → passes o baseUrl u.
Proof.
  unfold keepUrl, passes. intros H.
  destruct (bool_decide (url_protocol u ∈ ["http:"; "https:"])) eqn:Hp;
    simpl in H; [|done].
  apply bool_decide_eq_true_1 in Hp.
  destruct (negb (followExternalLinks o) && _) eqn:Hf; [done|].
  destruct (Nat.ltb 0 (length (allowedDomains o)) && _) eqn:Ha; [done|].
  destruct (some_match (excludePatterns o) u) as [|[|]] eqn:He; try done.
  split_and!.
  - set_solver.
  - intros Hx. rewrite Hx in Hf. simpl in Hf.
    by apply negb_false_iff, bool_decide_eq_true_1 in Hf.
  - intros Hx. destruct (allowedDomains o) as [|a ds]; [done|].
    simpl in Ha. by apply negb_false_iff, bool_decide_eq_true_1 in Ha.
  - by apply some_match_false.
  - intros Hx. destruct (includePatterns o) as [|q qs]; [done|].
    change (Nat.ltb 0 (length (q :: qs))) with true in H. cbv iota in H.
    destruct (some_match (q :: qs) u) as [|[|]] eqn:Hm; try done.
    by apply some_match_true.
Qed.

Lemma filterUrls_spec o baseUrl ls urls :
  filterUrls o baseUrl ls = inr urls →
  ∀ u, u ∈ urls →
       (∃ link, link ∈ ls ∧ Link.url link = u) ∧ passes o baseUrl u.
Proof.
  revert urls. induction ls as [|link rest IH]; simpl; intros urls H u Hu.
  - injection H as <-. by apply elem_of_nil in Hu.
  - destruct (keepUrl o baseUrl (Link.url link)) as [|keep] eqn:Hk;
      [done|].
    destruct (filterUrls o baseUrl rest) as [|kept] eqn:Hr; [done|].
    injection H as <-.
    assert (u ∈ kept → (∃ l, l ∈ link :: rest ∧ Link.url l = u)
                       ∧ passes o baseUrl u) as Hkept.
    { intros Hin. destruct (IH kept eq_refl u Hin) as [(l & Hl & El) Hp].
      split; [|done]. exists l. split; [by right|done]. }
    destruct keep; [|by apply Hkept].
    apply elem_of_cons in Hu as [->|Hu]; [|by apply Hkept].
    split; [|by apply keepUrl_passes].
    exists link. split; [left|done].
Qed.

(** ** robots.txt *)

Lemma checkRobots_cached u st :
  wp (checkRobots u)
     (fun allowed st' =>
        robots_unavailable u st →
        allowed = true ∧ robotsCache st' !! robotsUrlOf u = Some None)
     (fun _ => ¬ robots_unavailable u st)
     st.
Proof.
  unfold checkRobots. wp_steps; simpl in *.
  all: intros [Hn Hf]; rewrite ?lookup_insert_eq in *; simplify_eq; eauto.
  all: match goal with
       | Hs : _ = inr ?r |- _ => specialize (Hf r Hs); congruence
       end.
Qed.

Lemma fueled_bind {A B} (m : M A) (k : A → M B) st :
  fueled m st →
  (∀ a st', m st = (Normal a, st') → fueled (k a) st') →
  fueled (bind m k) st.
Proof.
  unfold fueled, bind. destruct (m st) as [[a|e|] st']; simpl; eauto.
Qed.

Lemma fueled_try_catch {A} (m : M A) h st :
  fueled m st →
  (∀ e st', m st = (Throw e, st') → fueled (h e) st') →
  fueled (try_catch m h) st.
Proof.
  unfold fueled, try_catch. destruct (m st) as [[a|e|] st']; simpl; eauto.
Qed.

Lemma fueled_httpClient_get ev u st : fueled (httpClient_get ev u) st.
Proof.
  unfold fueled, httpClient_get, bind, log, modify. simpl.
  by destruct (axios_get u _).
Qed.

Ltac fueled_step :=
  lazymatch goal with
  | |- fueled (bind _ _) _ => apply fueled_bind; [|intros ? ? ?]
  | |- fueled (httpClient_get _ _) _ => apply fueled_httpClient_get
  | |- fueled (if ?b then _ else _) _ => destruct b eqn:?
  | |- fueled (match ?x with _ => _ end) _ => destruct x eqn:?
  | |- fueled (let _ := _ in _) _ => cbv zeta
  | |- fueled (ret _) _ => done
  | |- fueled (throw _) _ => done
  | |- fueled get _ => done
  | |- fueled now _ => done
  | |- fueled (modify _) _ => done
  | |- fueled (log _) _ => done
  | |- fueled (sleep _) _ => done
  end.

Lemma checkRobots_fueled u st : fueled (checkRobots u) st.
Proof. unfold checkRobots. repeat fueled_step. Qed.

Lemma isAllowedByRobots_fueled u st : fueled (isAllowedByRobots u) st.
Proof.
  unfold isAllowedByRobots. apply fueled_try_catch;
    [apply checkRobots_fueled|done].
Qed.

(** C6. The robots check never raises: [isAllowedByRobots] always returns
    a boolean.  When the host has no cache entry and its robots.txt cannot
    be fetched or cannot be parsed, the entry [null] (allow all) is cached
    for the host and the answer is [true]; and whenever the check itself
    throws, the answer is [true] as well. *)
Theorem isAllowedByRobots_never_raises (u : string) (st : Crawler) :
  ∃ allowed,
    (isAllowedByRobots u st).1 = Normal allowed ∧
    (robots_unavailable u st →
     allowed = true ∧
     robotsCache (isAllowedByRobots u st).2 !! robotsUrlOf u = Some None) ∧
    (∀ e, (checkRobots u st).1 = Throw e → allowed = true).
Proof.
  pose proof (checkRobots_cached u st) as Hc.
  pose proof (checkRobots_fueled u st) as Hf.
  unfold isAllowedByRobots, try_catch, wp, fueled in *.
  destruct (checkRobots u st) as [[allowed|e|] st'] eqn:E; simpl in *.
  - exists allowed. split_and!; [done|done|by intros e [=]].
  - exists true. split_and!; [done|by intros Hu|done].
  - done.
Qed.


(** C5. The URL filter.  Whenever [extractAndFilterUrls] returns a list,
    the list has no duplicates and each of its URLs is the URL of one of
    the links given, has protocol http or https, has the host name of the
    base URL unless [followExternalLinks] is set, and is matched by no
    exclude pattern (and it satisfies the two remaining rules: allowed
    domains, include patterns). *)
Theorem extractAndFilterUrls_sound (o : Options) (ls : list Link.t)
    (baseUrl : string) (d : nat) (urls : list string) :
  extractAndFilterUrls o ls baseUrl d = inr urls →
  NoDup urls ∧
  ∀ u, u ∈ urls →
       (∃ link, link ∈ ls ∧ Link.url link = u) ∧
       (url_protocol u = "http:" ∨ url_protocol u = "https:") ∧
       (followExternalLinks o = false →
        url_hostname u = url_hostname baseUrl) ∧
       (∀ pattern, pattern ∈ excludePatterns o →
                   regexp_test pattern u ≠ Some true) ∧
       passes o baseUrl u.
Proof.
  unfold extractAndFilterUrls.
  destruct (filterUrls o baseUrl ls) as [|kept] eqn:Hk; [done|].
  intros [= <-]. split; [apply set_spread_NoDup|].
  intros u Hu. rewrite elem_of_set_spread in Hu.
  destruct (filterUrls_spec _ _ _ _ Hk u Hu) as [Hl Hp].
  pose proof Hp as (H1 & H2 & _ & H4 & _).
  split_and!; try done.
  intros pattern Hpat. by rewrite (H4 pattern Hpat).
Qed.

(** ** The page record *)

Lemma extractHeadings_lookup doc tag :
  tag ∈ headingTags →
  extractHeadings doc !! tag = Some (headingTexts tag doc).
Proof.
  unfold extractHeadings, headingTags. simpl. intros Ht.
  repeat (apply elem_of_cons in Ht as [->|Ht];
          [by simplify_map_eq|]).
  by apply elem_of_nil in Ht.
Qed.

Lemma fetchLoop_result fuel u d p t0 retries st :
  wp (fetchLoop fuel u d p t0 retries)
     (fun v _ =>
        ∀ r, v = Some r →
             ∃ response t1 stamp,
               includes "text/html" (js_or (content_type response) "")
                 = true ∧
               r = pageResult u d p response
                     (js_or (content_type response) "") t0 t1 stamp)
     (fun _ => True) st.
Proof.
  revert retries st. induction fuel as [|fuel IH]; intros retries st;
    simpl; wp_steps; try done.
  intros r' [= <-]. apply negb_false_iff in Heqb0. eauto.
Qed.

Lemma crawlPage_result u d p st :
  wp (crawlPage u d p)
     (fun v _ =>
        ∀ r, v = Some r →
             ∃ response t0 t1 stamp,
               includes "text/html" (js_or (content_type response) "")
                 = true ∧
               r = pageResult u d p response
                     (js_or (content_type response) "") t0 t1 stamp)
     (fun _ => True) st.
Proof.
  unfold crawlPage. wp_steps; try done.
  - eapply wp_mono; [apply wp_True| |done].
    intros allowed st' _. wp_steps; [done|].
    wp_call fetchLoop_result; [|done]. intros v _ Hv r Er.
    destruct (Hv r Er) as (response & t1 & stamp & ?). eauto.
  - wp_call fetchLoop_result; [|done]. intros v _ Hv r Er.
    destruct (Hv r Er) as (response & t1 & stamp & ?). eauto.
Qed.

(** ** The summary *)

Lemma crawl_returns fuel startUrl st :
  wp (crawl fuel startUrl)
     (fun v st' =>
        v.1 = results st' ∧
        ∃ endTime,
          v.2 = summarize st' (date_now (world st)) endTime)
     (fun _ => True) st.
Proof.
  unfold crawl. wp_steps. apply wp_try_catch. apply wp_bind.
  eapply wp_mono; [apply wp_True| |]; cbv beta.
  - intros [] st1 _. wp_steps. simpl. eauto.
  - intros st1 _. split; [done|]. intros e _.
    wp_steps. eapply wp_mono; [apply wp_True| |done]. by intros.
Qed.

(** C8. The summary of a completed run: [totalPages] is the length of the
    results, [failedPages] the size of the failed set, and [averageTime]
    is the elapsed time divided by [totalPages], or 0 when there is no
    result. *)
Theorem crawl_summary (fuel : nat) (startUrl : string) (st st' : Crawler)
    (rs : list PageResult) (summary : Summary) :
  crawl fuel startUrl st = (Normal (rs, summary), st') →
  rs = results st' ∧
  totalPages summary = length rs ∧
  failedPages summary = size (failedUrls st') ∧
  ((0 < totalPages summary)%nat →
   averageTime summary =
     QArith_base.Qdiv (QArith_base.inject_Z (totalTime summary))
       (QArith_base.inject_Z (Z.of_nat (totalPages summary)))) ∧
  (totalPages summary = 0%nat →
   averageTime summary = QArith_base.inject_Z 0).
Proof.
  intros E. pose proof (crawl_returns fuel startUrl st) as H.
  unfold wp in H. rewrite E in H. simpl in H.
  destruct H as [-> [endTime ->]]. unfold summarize. simpl.
  split_and!; try done.
  - intros Hn. apply Nat.ltb_lt in Hn. by rewrite Hn.
  - intros ->. done.
Qed.

(** ** Retrying a page that never answers *)

Lemma fetchesOf_attempts u retries n :
  fetchesOf (attempts u retries n) = replicate (S n) u.
Proof.
  revert retries. induction n as [|n IH]; intros retries; [done|].
  cbn [attempts fetchesOf omap list_omap]. fold (fetchesOf (attempts u (S retries) n)).
  by rewrite IH.
Qed.

Lemma sleepsOf_attempts u retries n :
  sleepsOf (attempts u retries n)
  = map (fun k => 1000 * k) (seq (S retries) n).
Proof.
  revert retries. induction n as [|n IH]; intros retries; [done|].
  cbn [attempts sleepsOf omap list_omap seq map].
  fold (sleepsOf (attempts u (S retries) n)). by rewrite IH.
Qed.

Lemma fetchLoop_failed_attempt fuel u d p t0 retries st e :
  (retries ≤ maxRetries (options st))%nat →
  (axios_get u (world st)).1 = inl e →
  fetchLoop (S fuel) u d p t0 retries st =
    let st1 := set_world (fun _ => (axios_get u (world st)).2)
                 (set_trace (cons (EvGetPage u)) st) in
    if Nat.ltb (maxRetries (options st)) (S retries) then (Throw e, st1)
    else fetchLoop fuel u d p t0 (S retries)
           (set_world (set_timeout (1000 * S retries))
              (set_trace (cons (EvSleep (1000 * S retries))) st1)).
Proof.
  intros Hr He. cbn [fetchLoop].
  unfold httpClient_get, sleep. unfold bind, get, log, modify, throw.
  simpl. rewrite (proj2 (Nat.leb_le _ _) Hr).
  destruct (axios_get u (world st)) as [r w]. simpl in *. subst r.
  by destruct (Nat.ltb _ _).
Qed.

Lemma fetchLoop_exhausts u d p t0 n retries fuel st :
  always_fails u →
  retries + n = maxRetries (options st) → (n < fuel)%nat →
  ∃ e st',
    fetchLoop fuel u d p t0 retries st = (Throw e, st') ∧
    trace st' = rev (attempts u retries n) ++ trace st.
Proof.
  intros Hfail. revert retries fuel st.
  induction n as [|n IH]; intros retries fuel st Hn Hfuel;
    (destruct fuel as [|fuel]; [lia|]).
  all: destruct (Hfail (world st)) as [e He].
  all: rewrite (fetchLoop_failed_attempt _ _ _ _ _ _ _ e) by (done || lia).
  all: cbv zeta.
  - rewrite (proj2 (Nat.ltb_lt _ _)) by lia. eauto.
  - rewrite (proj2 (Nat.ltb_ge _ _)) by lia.
    edestruct (IH (S retries) fuel) as (e' & st' & E' & Ht');
      [| |rewrite E'].
    + simpl. lia.
    + lia.
    + exists e', st'. split; [done|]. rewrite Ht'. simpl.
      by rewrite <- !app_assoc.
Qed.

Lemma checkRobots_trace u st :
  wp (checkRobots u)
     (fun _ st' =>
        options st' = options st ∧
        ∃ evs, trace st' = evs ++ trace st ∧
               Forall (fun e => is_retry_event e = false) evs)
     (fun st' =>
        options st' = options st ∧
        ∃ evs, trace st' = evs ++ trace st ∧
               Forall (fun e => is_retry_event e = false) evs)
     st.
Proof.
  unfold checkRobots. wp_steps; simpl; (split; [done|]).
  all: first [ by exists []
             | by eexists [_]; split; [done|repeat constructor] ].
Qed.

Lemma isAllowedByRobots_trace u st :
  wp (isAllowedByRobots u)
     (fun _ st' =>
        options st' = options st ∧
        ∃ evs, trace st' = evs ++ trace st ∧
               Forall (fun e => is_retry_event e = false) evs)
     (fun _ => True) st.
Proof.
  unfold isAllowedByRobots. apply wp_try_catch.
  wp_call checkRobots_trace; [done|].
  intros st' H. split; [done|]. intros. by wp_steps.
Qed.

Lemma filter_retry_none evs :
  Forall (fun e => is_retry_event e = false) evs →
  filter (fun e => is_retry_event e = true) evs = [].
Proof.
  induction 1 as [|e evs He _ IH]; [done|].
  rewrite filter_cons_False; [done|]. by rewrite He.
Qed.

Lemma fetchesOf_none evs :
  Forall (fun e => is_retry_event e = false) evs → fetchesOf evs = [].
Proof.
  induction 1 as [|e evs He _ IH]; [done|]. by destruct e.
Qed.

Lemma sleepsOf_none evs :
  Forall (fun e => is_retry_event e = false) evs → sleepsOf evs = [].
Proof.
  induction 1 as [|e evs He _ IH]; [done|]. by destruct e.
Qed.

Lemma filter_retry_attempts u retries n :
  filter (fun e => is_retry_event e = true) (attempts u retries n)
  = attempts u retries n.
Proof.
  revert retries. induction n as [|n IH]; intros retries; [done|].
  cbn [attempts]. rewrite !filter_cons_True by done. by rewrite IH.
Qed.

(** C2. A page whose fetch fails on every attempt.  When [u] is not yet
    visited and the robots check lets it through, [crawlPage] throws (it
    returns no result), and its requests for [u] and its waits are, in
    order: a request, then for each k from 1 to [maxRetries] a wait of
    1000 * k ms followed by a request; that is [maxRetries + 1] requests
    and the waits 1000, 2000, ... between them. *)
Theorem crawlPage_retries_then_throws (u : string) (d : nat)
    (p : option string) (st : Crawler) :
  u ∉ visitedUrls st → always_fails u → robots_allow u st →
  ∃ e st' evs,
    crawlPage u d p st = (Throw e, st') ∧
    trace st' = evs ++ trace st ∧
    filter (fun e => is_retry_event e = true) (rev evs)
      = attempts u 0 (maxRetries (options st)) ∧
    fetchesOf (rev evs) = replicate (maxRetries (options st) + 1) u ∧
    sleepsOf (rev evs)
      = map (fun k => 1000 * k) (seq 1 (maxRetries (options st))).
Proof.
  intros Hu Hfail Hrobots.
  assert (∃ st1 pre,
            options st1 = options st ∧
            trace st1 = pre ++ trace st ∧
            Forall (fun e => is_retry_event e = false) pre ∧
            ∀ c st', fetchLoop (S (maxRetries (options st))) u d p
                       (date_now (world st1)) 0 st1 = (c, st') →
                     crawlPage u d p st = (c, st'))
    as (st1 & pre & Ho & Ht & Hpre & Hrun).
  { unfold crawlPage, bind at 1, get at 1.
    rewrite bool_decide_eq_false_2 by done.
    unfold bind at 1, log at 1, modify at 1.
    unfold bind at 1, modify at 1. fold (afterVisit u st).
    unfold robots_allow in Hrobots.
    destruct (respectRobotsTxt (options st)).
    - specialize (Hrobots eq_refl).
      pose proof (isAllowedByRobots_trace u (afterVisit u st)) as Hr.
      unfold wp in Hr.
      destruct (isAllowedByRobots u (afterVisit u st)) as [c st1] eqn:Er.
      simpl in Hrobots. subst c. destruct Hr as (Ho & evs & Ht & Hevs).
      exists st1, (evs ++ [EvVisit u]). split_and!.
      + done.
      + rewrite Ht. simpl. by rewrite <- app_assoc.
      + apply Forall_app. split; [done|]. by repeat constructor.
      + intros c st' E. unfold bind at 1. unfold bind at 1. rewrite Er.
        unfold ret at 1. simpl. unfold bind at 1, now at 1. exact E.
    - exists (afterVisit u st), [EvVisit u]. split_and!; try done.
      by repeat constructor. }
  destruct (fetchLoop_exhausts u d p (date_now (world st1))
              (maxRetries (options st)) 0
              (S (maxRetries (options st))) st1 Hfail)
    as (e & st' & E & Ht'); [by rewrite Ho|lia|].
  exists e, st', (rev (attempts u 0 (maxRetries (options st))) ++ pre).
  rewrite rev_app_distr, rev_involutive.
  assert (Forall (fun e => is_retry_event e = false) (rev pre)) as Hrev
    by (by apply Forall_rev).
  split_and!.
  - by apply Hrun.
  - rewrite Ht', Ht. by rewrite <- app_assoc.
  - rewrite filter_app, filter_retry_none by done.
    apply filter_retry_attempts.
  - unfold fetchesOf. rewrite omap_app. fold (fetchesOf (rev pre)).
    rewrite fetchesOf_none by done.
    rewrite Nat.add_1_r. apply fetchesOf_attempts.
  - unfold sleepsOf. rewrite omap_app. fold (sleepsOf (rev pre)).
    rewrite sleepsOf_none by done. apply sleepsOf_attempts.
Qed.

(** ** Runs of [crawl] *)

Lemma elem_of_rev {A} (x : A) (l : list A) : x ∈ rev l ↔ x ∈ l.
Proof. rewrite !list_elem_of_In. symmetry. apply in_rev. Qed.

Lemma crawl_History fuel startUrl st :
  ∃ evs, History st evs (crawl fuel startUrl st).2.
Proof.
  pose proof (crawl_Reach fuel startUrl st) as H. unfold wp in H.
  by destruct (crawl fuel startUrl st) as [[v|e|] st'].
Qed.

Lemma crawl_result_list fuel startUrl st rs summary :
  (crawl fuel startUrl st).1 = Normal (rs, summary) →
  rs = results (crawl fuel startUrl st).2.
Proof.
  pose proof (crawl_returns fuel startUrl st) as H. unfold wp in H.
  destruct (crawl fuel startUrl st) as [[v|e|] st']; simpl; try done.
  intros [= ->]. by destruct H.
Qed.

(** C3. The depth bound.  If the results the instance already holds are
    within [maxDepth], then so are all results after a run of [crawl], in
    particular those of the list it returns; and every item that the run
    pushes on the queue comes from a result page [r] with
    [depth r < maxDepth] and has depth [depth r + 1]. *)
Theorem crawl_depth_bound (fuel : nat) (startUrl : string) (st : Crawler) :
  Forall (fun r => (depth r ≤ maxDepth (options st))%nat) (results st) →
  let st' := (crawl fuel startUrl st).2 in
  Forall (fun r => (depth r ≤ maxDepth (options st))%nat) (results st') ∧
  (∀ rs summary,
     (crawl fuel startUrl st).1 = Normal (rs, summary) →
     Forall (fun r => (depth r ≤ maxDepth (options st))%nat) rs) ∧
  ∃ evs,
    trace st' = evs ++ trace st ∧
    ∀ item, EvPush item ∈ evs →
            ∃ r, r ∈ results st' ∧
                 Item.parent item = Some (url r) ∧
                 Item.depth item = (depth r + 1)%nat ∧
                 (depth r < maxDepth (options st))%nat.
Proof.
  intros H0 st'. destruct (crawl_History fuel startUrl st) as [evs H].
  fold st' in H.
  assert (Forall (fun r => (depth r ≤ maxDepth (options st))%nat)
                 (results st')) as Hres.
  { rewrite (History_results _ _ _ H). apply Forall_app. split; [done|].
    apply Forall_rev, Forall_forall. intros r Hr.
    apply elem_of_pushedResults, list_elem_of_split in Hr
      as (l1 & l2 & ->).
    destruct (History_inv _ _ _ _ _ H) as (st2 & H2 & Hg). simpl in Hg.
    by rewrite (History_options _ _ _ H2) in Hg. }
  split_and!.
  - done.
  - intros rs summary E. by rewrite (crawl_result_list _ _ _ _ _ E).
  - exists evs. split; [by apply History_trace|].
    intros item (l1 & l2 & ->)%list_elem_of_split.
    destruct (History_inv _ _ _ _ _ H)
      as (st2 & H2 & _ & _ & r & Hr & Hp & Hd & Hlt).
    rewrite (History_options _ _ _ H2) in Hlt.
    exists r. split_and!; try done.
    rewrite (History_results _ _ _ H2) in Hr.
    rewrite (History_results _ _ _ H).
    apply elem_of_app in Hr as [Hr|Hr]; apply elem_of_app; [by left|].
    right. rewrite elem_of_rev in Hr |- *.
    rewrite elem_of_pushedResults in Hr |- *.
    apply elem_of_app. right. by right.
Qed.

(** C4. Visiting once.  The URLs that a run adds to [visitedUrls] are
    added one time each and were not in the set before; the set after the
    run is the set before it plus those URLs; every request for a page is
    made when its URL is already in the set.  A call of [crawlPage] on a
    visited URL returns [null] at once: nothing but the ghost trace
    changes, so nothing is fetched.  And the scheduler does nothing with a
    [null]: no result, no failure, no event. *)
Theorem visited_exactly_once (fuel : nat) (startUrl : string)
    (st : Crawler) :
  let st' := (crawl fuel startUrl st).2 in
  (∃ evs,
     trace st' = evs ++ trace st ∧
     NoDup (visits evs) ∧
     (∀ u, u ∈ visits evs → u ∉ visitedUrls st) ∧
     visitedUrls st' = list_to_set (visits evs) ∪ visitedUrls st ∧
     (∀ l1 u l2, evs = l1 ++ EvGetPage u :: l2 →
                 u ∈ visitedUrls st ∨ EvVisit u ∈ l2)) ∧
  (∀ u d p s, u ∈ visitedUrls s →
              crawlPage u d p s
              = (Normal None, set_trace (cons (EvSkip u)) s)) ∧
  (∀ item queue s,
     handleResult item (Fulfilled None) queue s = (Normal queue, s)).
Proof.
  intros st'. split_and!.
  - destruct (crawl_History fuel startUrl st) as [evs H]. fold st' in H.
    exists evs.
    destruct (History_visits_fresh _ _ _ H) as [Hnd Hfresh].
    split_and!; try done.
    + by apply History_trace.
    + by apply History_visited.
    + intros l1 u l2 ->.
      destruct (History_inv _ _ _ _ _ H) as (st2 & H2 & Hg). simpl in Hg.
      rewrite (History_visited _ _ _ H2) in Hg.
      apply elem_of_union in Hg as [Hg|Hg]; [right|by left].
      apply elem_of_list_to_set in Hg. by apply elem_of_visits.
  - intros u d p s Hu. unfold crawlPage, bind, get, log, modify, ret.
    by rewrite bool_decide_eq_true_2.
  - done.
Qed.

(** C10. [crawl] never resets the instance.  Whatever the instance holds
    before a run it still holds after it: the options and listeners are
    the same, the visited and failed sets and the robots cache have only
    grown, and the results of the run are appended to the earlier ones.
    So a second run appends to the results of the first, and at any later
    time a URL visited in the first run is skipped by [crawlPage], which
    returns [null] without fetching. *)
Theorem crawl_never_resets (fuel1 fuel2 : nat) (url1 url2 : string)
    (st : Crawler) :
  let st1 := (crawl fuel1 url1 st).2 in
  let st2 := (crawl fuel2 url2 st1).2 in
  extends st st1 ∧ extends st1 st2 ∧
  (∃ new1 new2,
     results st1 = results st ++ new1 ∧
     results st2 = (results st ++ new1) ++ new2) ∧
  (∀ u d p s, u ∈ visitedUrls st1 → extends st1 s →
              crawlPage u d p s
              = (Normal None, set_trace (cons (EvSkip u)) s)).
Proof.
  intros st1 st2.
  assert (∀ fuel u s, extends s (crawl fuel u s).2) as Hext.
  { intros fuel u s.
    pose proof (crawl_extends s fuel u s (extends_refl s)) as H.
    unfold wp in H. by destruct (crawl fuel u s) as [[v|e|] s']. }
  pose proof (Hext fuel1 url1 st) as E1.
  pose proof (Hext fuel2 url2 st1) as E2.
  fold st1 in E1. fold st2 in E2.
  split_and!; try done.
  - destruct (ext_results _ _ E1) as [new1 H1].
    destruct (ext_results _ _ E2) as [new2 H2].
    exists new1, new2. by rewrite <- H1.
  - intros u d p s Hu Es.
    unfold crawlPage, bind, get, log, modify, ret.
    rewrite bool_decide_eq_true_2; [done|].
    by apply (ext_visited _ _ Es).
Qed.

(** ** Completion

    A page fetch uses no more fuel than [crawlPage] gives it, the
    scheduler does not throw on a ready instance, and the loop of [crawl]
    ends: each pass either adds a result or shortens the queue. *)

Lemma keeps_refl st : keeps st st.
Proof. by split. Qed.

Lemma keeps_trans st1 st2 st3 : keeps st1 st2 → keeps st2 st3 → keeps st1 st3.
Proof. intros [] []; split; congruence. Qed.

Ltac keeps_auto :=
  lazymatch goal with
  | H : keeps ?s0 ?st |- keeps ?s0 ?st' =>
      apply (keeps_trans s0 st st' H); by split
  end.

Lemma checkRobots_keeps st0 u st :
  keeps st0 st → wp (checkRobots u) (fun _ => keeps st0) (keeps st0) st.
Proof. intros H. unfold checkRobots. wp_steps; keeps_auto. Qed.

Lemma isAllowedByRobots_keeps st0 u st :
  keeps st0 st →
  wp (isAllowedByRobots u) (fun _ => keeps st0) (keeps st0) st.
Proof.
  intros H. unfold isAllowedByRobots. apply wp_try_catch.
  wp_call (checkRobots_keeps st0); [done|done|].
  intros st' H'. split; [done|]. intros. by wp_steps.
Qed.

Lemma httpClient_get_eq ev u st :
  httpClient_get ev u st
  = (Normal (axios_get u (world st)).1,
     set_world (fun _ => (axios_get u (world st)).2)
               (set_trace (cons ev) st)).
Proof.
  unfold httpClient_get, bind, log, modify. simpl.
  by destruct (axios_get u (world st)).
Qed.

Lemma wpx_bind {A B} (m : M A) (k : A → M B) Q E D st :
  wpx m (fun a => wpx (k a) Q E D) E D st → wpx (bind m k) Q E D st.
Proof. unfold wpx, bind. by destruct (m st) as [[a|e|] st']. Qed.

Lemma wpx_mono {A} (m : M A) (Q Q' : A → Crawler → Prop)
    (E E' : Error → Crawler → Prop) (D D' : Crawler → Prop) st :
  wpx m Q E D st →
  (∀ a st', Q a st' → Q' a st') → (∀ e st', E e st' → E' e st') →
  (∀ st', D st' → D' st') →
  wpx m Q' E' D' st.
Proof. unfold wpx. destruct (m st) as [[a|e|] st']; eauto. Qed.

Lemma wpx_fueled {A} (m : M A) Q I st :
  fueled m st → wp m Q I st → wpx m Q (fun _ => I) (fun _ => False) st.
Proof. unfold fueled, wp, wpx. by destruct (m st) as [[a|e|] st']. Qed.

Lemma wpx_httpClient_get ev u Q E D st :
  Q (axios_get u (world st)).1
    (set_world (fun _ => (axios_get u (world st)).2)
               (set_trace (cons ev) st)) →
  wpx (httpClient_get ev u) Q E D st.
Proof. unfold wpx. by rewrite httpClient_get_eq. Qed.

Lemma wpx_settle m Q E D st :
  wpx m (fun v => Q (Fulfilled v)) (fun e => Q (Rejected e)) D st →
  wpx (settle m) Q E D st.
Proof. unfold wpx, settle. by destruct (m st) as [[a|e|] st']. Qed.

Ltac wpx_step :=
  lazymatch goal with
  | |- wpx (bind _ _) _ _ _ _ => apply wpx_bind
  | |- wpx (httpClient_get _ _) _ _ _ _ => apply wpx_httpClient_get
  | |- wpx (settle _) _ _ _ _ => apply wpx_settle
  | |- wpx (if ?b then _ else _) _ _ _ _ => destruct b eqn:?
  | |- wpx (match ?x with _ => _ end) _ _ _ _ => destruct x eqn:?
  | |- wpx (let _ := _ in _) _ _ _ _ => cbv zeta
  | |- wpx (ret _) _ _ _ _ => red; cbn [ret]
  | |- wpx (throw _) _ _ _ _ => red; cbn [throw]
  | |- wpx out_of_fuel _ _ _ _ => red; cbn [out_of_fuel]
  | |- wpx get _ _ _ _ => red; cbn [get]
  | |- wpx now _ _ _ _ => red; cbn [now]
  | |- wpx (modify _) _ _ _ _ => red; cbn [modify]
  | |- wpx (log _) _ _ _ _ => red; cbn [log modify]
  | |- wpx (sleep _) _ _ _ _ => red; cbn [sleep log modify bind]
  end.

Ltac wpx_steps := repeat (wpx_step; cbv beta).

Lemma fetchLoop_safe st0 fuel u d p t0 retries st :
  keeps st0 st →
  (retries ≤ maxRetries (options st))%nat →
  (maxRetries (options st) < retries + fuel)%nat →
  wpx (fetchLoop fuel u d p t0 retries)
      (fun _ => keeps st0) (fun _ => keeps st0) (fun _ => False) st.
Proof.
  revert retries st. induction fuel as [|fuel IH];
    intros retries st H Hr Hf; [lia|].
  cbn [fetchLoop]. wpx_steps; try keeps_auto.
  apply Nat.ltb_ge in Heqb0. apply IH; [keeps_auto|simpl; lia..].
Qed.

Lemma crawlPage_safe st0 u d p st :
  keeps st0 st →
  wpx (crawlPage u d p)
      (fun _ => keeps st0) (fun _ => keeps st0) (fun _ => False) st.
Proof.
  intros H. unfold crawlPage. wpx_steps; try keeps_auto.
  - eapply wpx_mono.
    + apply wpx_fueled; [apply isAllowedByRobots_fueled|].
      apply (isAllowedByRobots_keeps st0). keeps_auto.
    + intros allowed st1 H1. wpx_steps; [done|].
      apply fetchLoop_safe; [done|lia|].
      rewrite (keeps_options _ _ H1), <- (keeps_options _ _ H). lia.
    + done.
    + done.
  - apply fetchLoop_safe; [keeps_auto|simpl; lia..].
Qed.

Lemma dispatch_safe st0 batch st :
  keeps st0 st →
  wpx (dispatch batch)
      (fun rs st' => keeps st0 st' ∧ length rs = length batch)
      (fun _ _ => False) (fun _ => False) st.
Proof.
  revert st. induction batch as [|item rest IH]; intros st H; simpl;
    wpx_steps; [done|].
  eapply wpx_mono; [by apply (crawlPage_safe st0)| | |done]; cbv beta.
  - intros v st1 H1. wpx_steps.
    eapply wpx_mono; [by apply IH| |done|done]; cbv beta.
    intros rs st2 [H2 Hl]. wpx_steps. split; [done|]. simpl. by rewrite Hl.
  - intros e st1 H1. wpx_steps.
    eapply wpx_mono; [by apply IH| |done|done]; cbv beta.
    intros rs st2 [H2 Hl]. wpx_steps. split; [done|]. simpl. by rewrite Hl.
Qed.

Lemma ready_grows st st' new : ready st → grows st st' new → ready st'.
Proof.
  intros [] []; split; by rewrite ?grows_options0, ?grows_listeners0.
Qed.

(** What the constructor returns is ready as soon as an 'error' listener
    is attached, provided the patterns of the configuration compile. *)
Lemma WebCrawler_ready o w c :
  WebCrawler o w = inr c → valid_patterns (mergeOptions o) →
  ready (on_error c).
Proof.
  unfold WebCrawler. destruct (Nat.ltb _ 1) eqn:Hc; [done|].
  intros [= <-] Hv. apply Nat.ltb_ge in Hc. split; simpl; [lia|done..].
Qed.

Lemma keeps_grows st st' : keeps st st' → grows st st' [].
Proof. intros []; split; try done. by rewrite app_nil_r. Qed.

Lemma grows_trans st1 st2 st3 new1 new2 :
  grows st1 st2 new1 → grows st2 st3 new2 → grows st1 st3 (new1 ++ new2).
Proof.
  intros [] []; split; try congruence.
  rewrite grows_results1, grows_results0. by rewrite <- app_assoc.
Qed.

Lemma some_match_valid patterns u :
  (∀ pattern, pattern ∈ patterns → regexp_test pattern u ≠ None) →
  ∃ b, some_match patterns u = inr b.
Proof.
  induction patterns as [|q rest IH]; intros Hv; simpl; [by eexists|].
  destruct (regexp_test q u) as [[|]|] eqn:E.
  - by eexists.
  - apply IH. intros pattern Hp. apply Hv. by right.
  - exfalso. apply (Hv q); [left|done].
Qed.

Lemma keepUrl_valid o baseUrl u :
  valid_patterns o → ∃ b, keepUrl o baseUrl u = inr b.
Proof.
  intros Hv. unfold keepUrl.
  destruct (negb _); [by eexists|].
  destruct (negb _ && _); [by eexists|].
  destruct (_ && _); [by eexists|].
  destruct (some_match_valid (excludePatterns o) u) as [b ->].
  { intros pattern Hp. apply Hv, elem_of_app. by left. }
  destruct b; [by eexists|].
  destruct (Nat.ltb _ _); [|by eexists].
  destruct (some_match_valid (includePatterns o) u) as [b ->];
    [|by eexists].
  intros pattern Hp. apply Hv, elem_of_app. by right.
Qed.

Lemma extractAndFilterUrls_valid o ls baseUrl d :
  valid_patterns o → ∃ urls, extractAndFilterUrls o ls baseUrl d = inr urls.
Proof.
  intros Hv. unfold extractAndFilterUrls.
  assert (∃ kept, filterUrls o baseUrl ls = inr kept) as [kept ->];
    [|by eexists].
  induction ls as [|link rest [kept IH]]; simpl; [by eexists|].
  destruct (keepUrl_valid o baseUrl (Link.url link) Hv) as [b ->].
  rewrite IH. by eexists.
Qed.

Lemma enqueueNew_keeps st0 newUrls d parent queue st :
  keeps st0 st →
  wp (enqueueNew newUrls d parent queue) (fun _ => keeps st0)
     (fun _ => False) st.
Proof.
  revert queue st. induction newUrls as [|u rest IH]; intros queue st H;
    simpl; wp_steps; try done; apply IH; keeps_auto.
Qed.

Lemma handleResult_total item result queue st :
  ready st →
  wp (handleResult item result queue)
     (fun queue' st' =>
        ∃ new, grows st st' new ∧ (length new ≤ 1)%nat ∧
               (new = [] → queue' = queue))
     (fun _ => False) st.
Proof.
  intros [Hl Hv Hc]. unfold handleResult, emit_error.
  wp_steps; simpl in *.
  - destruct (extractAndFilterUrls_valid (options st) (links p) (url p)
                (Item.depth item + 1) Hv) as [urls Hu]. congruence.
  - eapply wp_mono;
      [apply (enqueueNew_keeps
                (set_results (fun rs => rs ++ [p])
                   (set_trace (cons (EvResult p)) st))), keeps_refl| |done].
    intros queue' st' [Ho Hli Hr Hf]. wp_steps. exists [p].
    split_and!; [by split|done|done].
  - exists [p]. split_and!; [by split|done|done].
  - exists []. split_and!; [split; simpl; by rewrite ?app_nil_r|simpl; lia|done].
  - exists []. split_and!; [split; simpl; by rewrite ?app_nil_r|simpl; lia|done].
  - apply Nat.ltb_ge in Heqb. lia.
Qed.

Lemma handleResults_total batch batchResults queue st :
  ready st →
  wp (handleResults batch batchResults queue)
     (fun queue' st' =>
        ∃ new, grows st st' new ∧ (length new ≤ length batchResults)%nat ∧
               (new = [] → queue' = queue))
     (fun _ => False) st.
Proof.
  revert batchResults queue st.
  induction batch as [|item batch IH]; intros [|r rs] queue st Hst; simpl;
    wp_steps.
  1-3: exists []; split_and!;
         [split; simpl; by rewrite ?app_nil_r|simpl; lia|done].
  wp_call handleResult_total; [done| |done].
  intros queue1 st1 (new1 & G1 & L1 & Q1).
  eapply wp_mono; [apply IH; by eapply ready_grows| |done]. cbv beta.
  intros queue2 st2 (new2 & G2 & L2 & Q2).
  exists (new1 ++ new2). split_and!.
  - by eapply grows_trans.
  - rewrite length_app. lia.
  - intros [-> ->]%app_eq_nil. rewrite Q2, Q1; done.
Qed.

(** One pass of the loop of [crawl], when the batch and its results are
    handled without a throw. *)
Lemma crawlLoop_pass fuel queue st rs st1 queue' st2 :
  Nat.ltb 0 (length queue)
    && Nat.ltb (length (results st)) (maxPages (options st)) = true →
  dispatch (take (maxConcurrency (options st)) queue) st = (Normal rs, st1) →
  handleResults (take (maxConcurrency (options st)) queue) rs
    (drop (maxConcurrency (options st)) queue) st1 = (Normal queue', st2) →
  crawlLoop (S fuel) queue st
  = crawlLoop fuel queue'
      (if Nat.ltb 0 (length queue') && Nat.ltb 0 (delay (options st))
       then set_world (set_timeout (delay (options st)))
              (set_trace (cons (EvSleep (delay (options st)))) st2)
       else st2).
Proof.
  intros Hc Ed Eh. cbn [crawlLoop]. unfold bind at 1, get at 1.
  cbv beta iota. rewrite Hc. unfold bind at 1. rewrite Ed.
  unfold bind at 1. rewrite Eh. unfold bind at 1.
  by destruct (Nat.ltb 0 (length queue') && Nat.ltb 0 (delay (options st))).
Qed.

Lemma crawlLoop_terminates queue st :
  ready st → ∃ fuel st', crawlLoop fuel queue st = (Normal tt, st').
Proof.
  remember (maxPages (options st) - length (results st))%nat as n eqn:En.
  revert queue st En. induction n as [n IHn] using lt_wf_ind.
  intros queue. remember (length queue) as len eqn:El.
  revert queue El. induction len as [len IHlen] using lt_wf_ind.
  intros queue -> st -> Hst.
  destruct (Nat.ltb 0 (length queue)
            && Nat.ltb (length (results st)) (maxPages (options st)))
    eqn:Hc.
  - apply andb_true_iff in Hc as Hc'. destruct Hc' as [Hq Hp].
    apply Nat.ltb_lt in Hq, Hp.
    set (batch := take (maxConcurrency (options st)) queue).
    pose proof (dispatch_safe st batch st (keeps_refl st)) as Hd.
    unfold wpx in Hd.
    destruct (dispatch batch st) as [[rs|e|] st1] eqn:Ed; try done.
    destruct Hd as [K1 Hrs].
    assert (ready st1) as Hst1
      by (eapply ready_grows; [done|by apply keeps_grows]).
    pose proof (handleResults_total batch rs
                  (drop (maxConcurrency (options st)) queue) st1 Hst1)
      as Hh.
    unfold wp in Hh.
    destruct (handleResults batch rs _ st1) as [[queue'|e|] st2] eqn:Eh;
      try done.
    destruct Hh as (new & G & Hnew & Hq').
    pose proof (grows_trans _ _ _ _ _ (keeps_grows _ _ K1) G) as G2.
    simpl in G2.
    assert (∃ fuel st',
              crawlLoop fuel queue'
                (if Nat.ltb 0 (length queue')
                    && Nat.ltb 0 (delay (options st))
                 then set_world (set_timeout (delay (options st)))
                        (set_trace (cons (EvSleep (delay (options st))))
                           st2)
                 else st2) = (Normal tt, st'))
      as (fuel & st' & E).
    { set (st3 := if _ && _ then _ else st2).
      assert (grows st st3 new) as G3.
      { subst st3.
        destruct (Nat.ltb 0 (length queue')
                  && Nat.ltb 0 (delay (options st))); [|done].
        destruct G2; by split. }
      pose proof (ready_grows _ _ _ Hst G3) as Hst3.
      destruct new as [|r new].
      - apply (IHlen (length queue')); try done.
        + rewrite (Hq' eq_refl), length_drop.
          pose proof (ready_concurrency _ Hst). lia.
        + rewrite (grows_options _ _ _ G3), (grows_results _ _ _ G3).
          by rewrite app_nil_r.
      - eapply (IHn (maxPages (options st3) - length (results st3))%nat);
          try done.
        rewrite (grows_options _ _ _ G3), (grows_results _ _ _ G3).
        rewrite length_app. simpl. lia. }
    exists (S fuel), st'.
    by rewrite (crawlLoop_pass fuel queue st rs st1 queue' st2 Hc Ed Eh).
  - exists 1, st. cbn [crawlLoop]. unfold bind, get. by rewrite Hc.
Qed.

(** A run on a ready instance completes: with fuel enough, [crawl]
    returns the results and a summary. *)
Lemma crawl_completes startUrl st :
  ready st →
  ∃ fuel rs summary st',
    crawl fuel startUrl st = (Normal (rs, summary), st').
Proof.
  intros Hst.
  destruct (crawlLoop_terminates [Item.mk startUrl 0 None] st Hst)
    as (fuel & st1 & E).
  exists fuel. unfold crawl, bind at 1, now at 1, try_catch.
  unfold bind at 1. rewrite E.
  unfold bind, now, get, log, modify, ret. simpl. eauto.
Qed.

(** ** A page that fails for good *)

(** What the scheduler does with a rejected promise: the URL goes into
    [failedUrls], the 'error' event is emitted with the URL and the cause,
    and the queue is left as it is; but with no listener for 'error' the
    emission throws. *)
Lemma handleResult_rejected item reason queue st :
  handleResult item (Rejected reason) queue st
  = (if Nat.ltb 0 (errorListeners st) then Normal queue
     else Throw (UnhandledError (Item.url item) reason),
     set_trace (cons (EvEmitError (Item.url item) reason))
       (set_failedUrls (union {[Item.url item]})
          (set_trace (cons (EvFailed (Item.url item))) st))).
Proof.
  unfold handleResult, emit_error, bind, log, modify, get, ret, throw.
  simpl. by destruct (Nat.ltb 0 (errorListeners st)).
Qed.

(** X1. On a ready instance no page failure stops the run: [crawl]
    returns a summary that counts the failed set, every failure of the run
    is in that set, and no URL is pushed on the queue once it has
    failed. *)
Theorem crawl_survives_failures (startUrl : string) (st : Crawler) :
  ready st →
  ∃ fuel rs summary st' evs,
    crawl fuel startUrl st = (Normal (rs, summary), st') ∧
    failedPages summary = size (failedUrls st') ∧
    trace st' = evs ++ trace st ∧
    (∀ u, EvFailed u ∈ evs → u ∈ failedUrls st') ∧
    (∀ l1 item l2, evs = l1 ++ EvPush item :: l2 →
                   (EvFailed (Item.url item) ∉ l2) ∧
                   (Item.url item ∉ failedUrls st)).
Proof.
  intros Hst.
  destruct (crawl_completes startUrl st Hst)
    as (fuel & rs & summary & st' & E).
  destruct (crawl_History fuel startUrl st) as [evs H].
  rewrite E in H. simpl in H.
  exists fuel, rs, summary, st', evs. split_and!.
  - done.
  - pose proof (crawl_returns fuel startUrl st) as Hr.
    unfold wp in Hr. rewrite E in Hr. simpl in Hr.
    by destruct Hr as [_ [endTime ->]].
  - by apply History_trace.
  - intros u Hu. rewrite (History_failed _ _ _ H).
    apply elem_of_union. left.
    by apply elem_of_list_to_set, elem_of_failures.
  - intros l1 item l2 ->.
    destruct (History_inv _ _ _ _ _ H) as (st2 & H2 & _ & Hf & _).
    rewrite (History_failed _ _ _ H2) in Hf.
    apply not_elem_of_union in Hf as [Hf1 Hf2]. split; [|done].
    intros Hin. apply Hf1.
    by apply elem_of_list_to_set, elem_of_failures.
Qed.

(** ** The page limit *)

(** Once the results have reached [maxPages] the loop dispatches nothing
    more. *)
Lemma crawlLoop_stops_at_maxPages fuel queue st :
  (maxPages (options st) ≤ length (results st))%nat →
  crawlLoop (S fuel) queue st = (Normal tt, st).
Proof.
  intros H. cbn [crawlLoop]. unfold bind, get.
  rewrite (proj2 (Nat.ltb_ge _ _) H). by rewrite andb_false_r.
Qed.

Lemma handleResult_adds item result queue st :
  wp (handleResult item result queue)
     (fun _ st' =>
        options st' = options st ∧
        (length (results st') ≤ length (results st) + 1)%nat)
     (fun st' =>
        options st' = options st ∧
        (length (results st') ≤ length (results st) + 1)%nat)
     st.
Proof.
  unfold handleResult, emit_error. wp_steps; simpl;
    rewrite ?length_app; simpl; try (split; [done|lia]).
  eapply wp_mono;
    [apply (enqueueNew_keeps
              (set_results (fun rs => rs ++ [p])
                 (set_trace (cons (EvResult p)) st))), keeps_refl| |done].
  intros queue' st' [Ho Hli Hr Hf]. wp_steps. simpl.
  rewrite Hr, Ho. simpl. rewrite length_app. simpl. split; [done|lia].
Qed.

Lemma handleResults_adds batch batchResults queue st :
  wp (handleResults batch batchResults queue)
     (fun _ st' =>
        options st' = options st ∧
        (length (results st') ≤ length (results st) + length batch)%nat)
     (fun st' =>
        options st' = options st ∧
        (length (results st') ≤ length (results st) + length batch)%nat)
     st.
Proof.
  revert batchResults queue st.
  induction batch as [|item batch IH]; intros [|r rs] queue st; simpl;
    wp_steps; try (split; [done|lia]).
  wp_call handleResult_adds.
  - intros queue1 st1 [Ho1 Hl1].
    eapply wp_mono; [apply IH| |]; cbv beta.
    + intros queue2 st2 [Ho2 Hl2]. split; [congruence|lia].
    + intros st2 [Ho2 Hl2]. split; [congruence|lia].
  - intros st1 [Ho1 Hl1]. split; [done|lia].
Qed.

(** The loop keeps the results within any bound that is at least
    [maxPages - 1 + maxConcurrency] and holds when it starts. *)
Lemma crawlLoop_page_bound_from fuel queue st bound :
  (maxPages (options st) - 1 + maxConcurrency (options st) ≤ bound)%nat →
  (length (results st) ≤ bound)%nat →
  wp (crawlLoop fuel queue)
     (fun _ st' => (length (results st') ≤ bound)%nat)
     (fun st' => (length (results st') ≤ bound)%nat) st.
Proof.
  revert queue st.
  induction fuel as [|fuel IH]; intros queue st Hm Hb; simpl;
    wp_steps; try done.
  apply andb_true_iff in Heqb as [_ Hp]. apply Nat.ltb_lt in Hp.
  pose proof (dispatch_safe st (take (maxConcurrency (options st)) queue)
                st (keeps_refl st)) as Hd.
  unfold wpx in Hd. unfold wp at 1.
  destruct (dispatch _ st) as [[rs|e|] st2]; try done.
  destruct Hd as [[Ho2 _ Hr2 _] Hrs].
  assert (∀ st3,
            options st3 = options st2 ∧
            (length (results st3)
             ≤ length (results st2)
               + length (take (maxConcurrency (options st)) queue))%nat →
            options st3 = options st ∧ (length (results st3) ≤ bound)%nat)
    as Hstep.
  { intros st3 [Ho3 Hl3]. split; [congruence|].
    rewrite Hr2, length_take in Hl3. lia. }
  wp_call handleResults_adds.
  - intros queue' st3 [Ho3 Hb3]%Hstep.
    wp_steps; apply IH; simpl; rewrite ?Ho3; done.
  - by intros st3 [Ho3 Hb3]%Hstep.
Qed.

(** The results never outgrow the larger of what the instance held before
    the run and [maxPages - 1 + maxConcurrency]: the limit is tested
    between batches only, and a batch has up to [maxConcurrency] pages. *)
Lemma crawl_page_bound_from fuel startUrl st bound :
  (maxPages (options st) - 1 + maxConcurrency (options st) ≤ bound)%nat →
  (length (results st) ≤ bound)%nat →
  (length (results (crawl fuel startUrl st).2) ≤ bound)%nat.
Proof.
  intros Hm Hb.
  assert (wp (crawl fuel startUrl)
             (fun _ st' => (length (results st') ≤ bound)%nat)
             (fun st' => (length (results st') ≤ bound)%nat) st) as H.
  { unfold crawl, emit_fatal. wp_steps. apply wp_try_catch.
    wp_call (crawlLoop_page_bound_from fuel [Item.mk startUrl 0 None] st
               bound); [done..| |].
    - intros [] st1 H1. by wp_steps.
    - intros st1 H1. split; [done|]. intros e _. by wp_steps. }
  unfold wp in H. by destruct (crawl fuel startUrl st) as [[v|e|] st'].
Qed.

(** X2. The page limit as the code keeps it.  The results never outgrow
    the larger of what the instance held before the run and
    [maxPages - 1 + maxConcurrency]: the limit is tested between batches
    only, and a batch has up to [maxConcurrency] pages. *)
Theorem crawl_page_bound (fuel : nat) (startUrl : string) (st : Crawler) :
  (length (results (crawl fuel startUrl st).2)
   ≤ Nat.max (length (results st))
       (maxPages (options st) - 1 + maxConcurrency (options st)))%nat.
Proof. apply crawl_page_bound_from; lia. Qed.

(** ** Fuel

    More fuel never changes what a run that was not cut short does. *)
Lemma bind_agree {A B} (m : M A) (k k' : A → M B) st :
  (∀ a s, (k a s).1 ≠ OutOfFuel → k' a s = k a s) →
  (bind m k st).1 ≠ OutOfFuel → bind m k' st = bind m k st.
Proof.
  intros Hk. unfold bind. destruct (m st) as [[a|e|] s]; try done.
  apply Hk.
Qed.

Lemma loopBody_agree (next next' : list Item.t → M unit) queue st :
  (∀ q s, (next q s).1 ≠ OutOfFuel → next' q s = next q s) →
  (loopBody next queue st).1 ≠ OutOfFuel →
  loopBody next' queue st = loopBody next queue st.
Proof.
  intros Hn. unfold loopBody. apply bind_agree. intros st0 s.
  destruct (_ && _); [|done].
  apply bind_agree. intros rs s1. apply bind_agree. intros q s2.
  apply bind_agree. intros [] s3. apply Hn.
Qed.

Lemma crawlLoop_more_fuel fuel queue st :
  (crawlLoop fuel queue st).1 ≠ OutOfFuel →
  crawlLoop (S fuel) queue st = crawlLoop fuel queue st.
Proof.
  revert queue st. induction fuel as [|fuel IH]; intros queue st H;
    [done|].
  change (crawlLoop (S (S fuel)) queue)
    with (loopBody (crawlLoop (S fuel)) queue).
  change (crawlLoop (S fuel) queue) with (loopBody (crawlLoop fuel) queue)
    in H |- *.
  by apply loopBody_agree.
Qed.

Lemma crawlLoop_fuel_mono fuel fuel' queue st :
  (crawlLoop fuel queue st).1 ≠ OutOfFuel → (fuel ≤ fuel')%nat →
  crawlLoop fuel' queue st = crawlLoop fuel queue st.
Proof.
  intros H. induction 1 as [|fuel' _ IH]; [done|].
  rewrite <- IH. apply crawlLoop_more_fuel. by rewrite IH.
Qed.

(** X3. Termination.  On a ready instance [crawl] returns, and what it
    returns does not depend on the fuel once there is enough of it:
    the loop of the source ends, whatever the network answers. *)
Theorem crawl_terminates (startUrl : string) (st : Crawler) :
  ready st →
  ∃ fuel rs summary st',
    ∀ fuel', (fuel ≤ fuel')%nat →
             crawl fuel' startUrl st = (Normal (rs, summary), st').
Proof.
  intros Hst.
  destruct (crawlLoop_terminates [Item.mk startUrl 0 None] st Hst)
    as (fuel & st1 & E).
  exists fuel, (results st1),
    (summarize st1 (date_now (world st)) (date_now (world st1))),
    (set_trace (cons (EvEmitComplete (length (results st1)))) st1).
  intros fuel' Hf.
  pose proof (crawlLoop_fuel_mono fuel fuel'
                [Item.mk startUrl 0 None] st) as Hm.
  rewrite E in Hm. specialize (Hm ltac:(done) Hf).
  unfold crawl, bind at 1, now at 1, try_catch.
  unfold bind at 1. rewrite Hm.
  by unfold bind, now, get, log, modify, ret.
Qed.

(** X4. A run on an instance that already holds [maxPages] results does
    nothing: it returns the results it found, with a summary of zero
    elapsed time, without a request, a wait or a change to the sets. *)
Theorem crawl_saturated (fuel : nat) (startUrl : string) (st : Crawler) :
  (maxPages (options st) ≤ length (results st))%nat →
  crawl (S fuel) startUrl st
  = (Normal (results st,
             summarize st (date_now (world st)) (date_now (world st))),
     set_trace (cons (EvEmitComplete (length (results st)))) st).
Proof.
  intros H. unfold crawl, bind at 1, now at 1, try_catch.
  unfold bind at 1. rewrite (crawlLoop_stops_at_maxPages _ _ _ H).
  by unfold bind, now, get, log, modify, ret.
Qed.

(** X5. A run from a seed that the instance has already visited fetches
    nothing: the seed is skipped, the queue is empty, and [crawl] returns
    the results the instance held, changing nothing but the ghost
    trace. *)
Theorem crawl_visited_seed (fuel : nat) (startUrl : string)
    (st : Crawler) :
  startUrl ∈ visitedUrls st →
  (1 ≤ maxConcurrency (options st))%nat →
  ∃ evs,
    crawl (S (S fuel)) startUrl st
    = (Normal (results st,
               summarize st (date_now (world st)) (date_now (world st))),
       set_trace (app evs) st).
Proof.
  intros Hv Hc.
  destruct (decide (maxPages (options st) ≤ length (results st))%nat)
    as [Hp|Hp].
  - exists [EvEmitComplete (length (results st))].
    unfold crawl, bind at 1, now at 1, try_catch.
    unfold bind at 1. rewrite (crawlLoop_stops_at_maxPages _ _ _ Hp).
    by unfold bind, now, get, log, modify, ret.
  - exists [EvEmitComplete (length (results st)); EvSkip startUrl].
    set (seed := Item.mk startUrl 0 None).
    set (st1 := set_trace (cons (EvSkip startUrl)) st).
    assert (take (maxConcurrency (options st)) [seed] = [seed]) as Ht
      by (apply take_ge; simpl; lia).
    assert (drop (maxConcurrency (options st)) [seed] = []) as Hd
      by (apply drop_ge; simpl; lia).
    assert (crawlLoop (S (S fuel)) [seed] st = (Normal tt, st1)) as E.
    { rewrite (crawlLoop_pass _ _ _ [Fulfilled None] st1 [] st1).
      - simpl. unfold bind, get. simpl. done.
      - simpl. apply Nat.ltb_lt. lia.
      - rewrite Ht. simpl. unfold bind, settle, crawlPage.
        unfold bind, get. rewrite bool_decide_eq_true_2 by done. done.
      - by rewrite Ht, Hd. }
    unfold crawl, bind at 1, now at 1, try_catch.
    unfold bind at 1. fold seed. rewrite E.
    by unfold bind, now, get, log, modify, ret.
Qed.

(** ** More of the page fetch *)

Lemma crawlPage_marks u d p st :
  wp (crawlPage u d p) (fun _ st' => u ∈ visitedUrls st')
     (fun st' => u ∈ visitedUrls st') st.
Proof.
  assert (∀ st1 st2, u ∈ visitedUrls st1 → extends st1 st2 →
                     u ∈ visitedUrls st2) as Hin
    by (intros st1 st2 Hu E; by apply (ext_visited _ _ E)).
  unfold crawlPage. wp_steps.
  - by apply bool_decide_eq_true_1 in Heqb.
  - set (st1 := set_visitedUrls _ _).
    assert (u ∈ visitedUrls st1) as Hu by (subst st1; simpl; set_solver).
    clearbody st1.
    wp_call (isAllowedByRobots_extends st1 u st1 (extends_refl st1));
      [|intros; by eapply Hin].
    intros allowed st2 E2. wp_steps; [by eapply Hin|].
    eapply wp_mono; [by apply (fetchLoop_extends st2)|..]; cbv beta;
      intros; (eapply Hin; [|eassumption]); by eapply Hin.
  - set (st1 := set_visitedUrls _ _).
    assert (u ∈ visitedUrls st1) as Hu by (subst st1; simpl; set_solver).
    clearbody st1.
    eapply wp_mono; [by apply (fetchLoop_extends st1)|..]; cbv beta;
      intros; by eapply Hin.
Qed.

Lemma isAllowedByRobots_returns u st :
  ∃ allowed, (isAllowedByRobots u st).1 = Normal allowed.
Proof.
  pose proof (checkRobots_fueled u st) as Hf.
  unfold isAllowedByRobots, try_catch, fueled in *.
  destruct (checkRobots u st) as [[allowed|e|] st']; simpl in *; eauto.
  done.
Qed.

Lemma atFetch_keeps u st : keeps st (atFetch u st).
Proof.
  unfold atFetch. destruct (respectRobotsTxt (options st)); [|by split].
  pose proof (isAllowedByRobots_keeps st u (afterVisit u st)) as H.
  unfold wp in H.
  destruct (isAllowedByRobots u (afterVisit u st)) as [[a|e|] st1];
    apply H; by split.
Qed.

Lemma atFetch_trace u st :
  ∃ pre, trace (atFetch u st) = pre ++ trace st ∧
         Forall (fun e => is_retry_event e = false) pre.
Proof.
  unfold atFetch. destruct (respectRobotsTxt (options st)).
  - pose proof (isAllowedByRobots_trace u (afterVisit u st)) as H.
    destruct (isAllowedByRobots_returns u (afterVisit u st)) as [a Ha].
    unfold wp in H.
    destruct (isAllowedByRobots u (afterVisit u st)) as [c st1];
      simpl in *. subst c.
    destruct H as (_ & evs & Ht & Hevs).
    exists (evs ++ [EvVisit u]). rewrite Ht. simpl.
    rewrite <- app_assoc. split; [done|].
    apply Forall_app. split; [done|]. by repeat constructor.
  - exists [EvVisit u]. split; [done|]. by repeat constructor.
Qed.

Lemma crawlPage_visited u d p st :
  u ∈ visitedUrls st →
  crawlPage u d p st = (Normal None, set_trace (cons (EvSkip u)) st).
Proof.
  intros Hu. unfold crawlPage, bind at 1, get at 1.
  by rewrite bool_decide_eq_true_2 by done.
Qed.

Lemma crawlPage_unvisited u d p st :
  u ∉ visitedUrls st →
  crawlPage u d p st =
    if respectRobotsTxt (options st) then
      match isAllowedByRobots u (afterVisit u st) with
      | (Normal true, st1) =>
          fetchLoop (S (maxRetries (options st))) u d p
                    (date_now (world st1)) 0 st1
      | (Normal false, st1) => (Normal None, st1)
      | (Throw e, st1) => (Throw e, st1)
      | (OutOfFuel, st1) => (OutOfFuel, st1)
      end
    else fetchLoop (S (maxRetries (options st))) u d p
                   (date_now (world (afterVisit u st))) 0 (afterVisit u st).
Proof.
  intros Hu. unfold crawlPage, bind at 1, get at 1.
  rewrite bool_decide_eq_false_2 by done.
  unfold bind at 1, log at 1, modify at 1.
  unfold bind at 1, modify at 1. fold (afterVisit u st).
  destruct (respectRobotsTxt (options st)); [|done].
  unfold bind at 1. unfold bind at 1.
  by destruct (isAllowedByRobots u (afterVisit u st)) as [[[]|e|] st1].
Qed.

Lemma crawlPage_enters u d p st :
  u ∉ visitedUrls st → robots_allow u st →
  crawlPage u d p st
  = fetchLoop (S (maxRetries (options st))) u d p
              (date_now (world (atFetch u st))) 0 (atFetch u st).
Proof.
  intros Hu Hrobots. rewrite crawlPage_unvisited by done.
  unfold robots_allow, atFetch in *.
  destruct (respectRobotsTxt (options st)); [|done].
  specialize (Hrobots eq_refl).
  destruct (isAllowedByRobots u (afterVisit u st)) as [c st1].
  simpl in *. by subst c.
Qed.

Lemma fetchLoop_answer fuel u d p t0 retries st response :
  (retries ≤ maxRetries (options st))%nat →
  (axios_get u (world st)).1 = inr response →
  fetchLoop (S fuel) u d p t0 retries st =
    let st1 := set_world (fun _ => (axios_get u (world st)).2)
                 (set_trace (cons (EvGetPage u)) st) in
    let contentType := js_or (content_type response) "" in
    if includes "text/html" contentType
    then (Normal (Some (pageResult u d p response contentType t0
                          (date_now (world st1)) (date_now (world st1)))),
          st1)
    else (Normal None, st1).
Proof.
  intros Hr He. cbn [fetchLoop].
  unfold httpClient_get, now. unfold bind, get, log, modify, ret.
  simpl. rewrite (proj2 (Nat.leb_le _ _) Hr).
  destruct (axios_get u (world st)) as [r w]. simpl in *. subst r.
  by destruct (includes _ _).
Qed.

Lemma fetchLoop_recovers u d p t0 response k retries fuel st :
  (retries + k ≤ maxRetries (options st))%nat → (k < fuel)%nat →
  (∀ j, (j < k)%nat →
        ∃ e, (axios_get u (retryWorld u retries j (world st))).1 = inl e) →
  (axios_get u (retryWorld u retries k (world st))).1 = inr response →
  includes "text/html" (js_or (content_type response) "") = true →
  ∃ st',
    fetchLoop fuel u d p t0 retries st
    = (Normal (Some (pageResult u d p response
                       (js_or (content_type response) "") t0
                       (date_now (world st')) (date_now (world st')))), st') ∧
    world st' = (axios_get u (retryWorld u retries k (world st))).2 ∧
    trace st' = rev (attempts u retries k) ++ trace st.
Proof.
  revert retries fuel st.
  induction k as [|k IH]; intros retries fuel st Hk Hfuel Hfail Hok Hhtml;
    (destruct fuel as [|fuel]; [lia|]).
  - simpl in Hok.
    rewrite (fetchLoop_answer _ _ _ _ _ _ _ response) by (done || lia).
    cbv zeta. rewrite Hhtml. eauto.
  - destruct (Hfail 0%nat) as [e He]; [lia|]. simpl in He.
    rewrite (fetchLoop_failed_attempt _ _ _ _ _ _ _ e) by (done || lia).
    cbv zeta. rewrite (proj2 (Nat.ltb_ge _ _)) by lia.
    set (st2 := set_world (set_timeout (1000 * S retries)) _).
    destruct (IH (S retries) fuel st2) as (st' & E' & Hw & Ht');
      [simpl; lia|lia| |exact Hok|exact Hhtml|].
    + intros j Hj. apply (Hfail (S j)). lia.
    + rewrite E'. exists st'. split; [done|]. split; [done|].
      rewrite Ht'. simpl. by rewrite <- !app_assoc.
Qed.

Lemma fetchLoop_origin fuel u d p t0 retries st r st' :
  fetchLoop fuel u d p t0 retries st = (Normal (Some r), st') →
  ∃ k response,
    (retries + k ≤ maxRetries (options st))%nat ∧
    (∀ j, (j < k)%nat →
          ∃ e, (axios_get u (retryWorld u retries j (world st))).1 = inl e) ∧
    (axios_get u (retryWorld u retries k (world st))).1 = inr response ∧
    includes "text/html" (js_or (content_type response) "") = true ∧
    world st' = (axios_get u (retryWorld u retries k (world st))).2 ∧
    r = pageResult u d p response (js_or (content_type response) "") t0
          (date_now (world st')) (date_now (world st')).
Proof.
  revert retries st. induction fuel as [|fuel IH]; intros retries st E;
    [discriminate E|].
  destruct (decide (retries ≤ maxRetries (options st))%nat) as [Hr|Hr].
  2: { cbn [fetchLoop] in E. unfold bind at 1, get at 1 in E.
       rewrite (proj2 (Nat.leb_gt _ _)) in E by lia. discriminate E. }
  destruct (axios_get u (world st)).1 as [e|response] eqn:Eg.
  - rewrite (fetchLoop_failed_attempt _ _ _ _ _ _ _ e) in E by done.
    cbv zeta in E. destruct (Nat.ltb _ _) eqn:El; [discriminate E|].
    apply Nat.ltb_ge in El.
    apply IH in E as (k & response & Hk & Hfail & Hok & Hct & Hw & Hres).
    simpl in Hk, Hfail, Hok, Hw.
    exists (S k), response. simpl. split_and!; try done; [lia|].
    intros [|j] Hj; [by exists e|]. apply Hfail. lia.
  - rewrite (fetchLoop_answer _ _ _ _ _ _ _ response) in E by done.
    cbv zeta in E. destruct (includes _ _) eqn:Hct; [|discriminate E].
    injection E as <- <-. exists 0%nat, response. simpl.
    split_and!; try done; [lia|]. intros j Hj. lia.
Qed.

Lemma crawlPage_origin u d p st r st' :
  crawlPage u d p st = (Normal (Some r), st') →
  (u ∉ visitedUrls st) ∧
  ∃ k response,
    (k ≤ maxRetries (options st))%nat ∧
    (∀ j, (j < k)%nat →
          ∃ e, (axios_get u (retryWorld u 0 j (world (atFetch u st)))).1
               = inl e) ∧
    (axios_get u (retryWorld u 0 k (world (atFetch u st)))).1
    = inr response ∧
    includes "text/html" (js_or (content_type response) "") = true ∧
    world st' = (axios_get u (retryWorld u 0 k (world (atFetch u st)))).2 ∧
    r = pageResult u d p response (js_or (content_type response) "")
          (date_now (world (atFetch u st)))
          (date_now (world st')) (date_now (world st')).
Proof.
  intros E.
  assert (u ∉ visitedUrls st) as Hu.
  { intros Hu. rewrite crawlPage_visited in E by done. discriminate E. }
  split; [done|].
  pose proof (atFetch_keeps u st) as Hk.
  rewrite crawlPage_unvisited in E by done. unfold atFetch in *.
  destruct (respectRobotsTxt (options st)).
  - destruct (isAllowedByRobots u (afterVisit u st)) as [[[]|e|] st1];
      try discriminate E.
    apply fetchLoop_origin in E as (k & response & Hle & H).
    simpl in Hk, H. rewrite (keeps_options _ _ Hk) in Hle.
    by exists k, response.
  - apply fetchLoop_origin in E as (k & response & Hle & H).
    simpl in Hle. by exists k, response.
Qed.

(** C9. The fallbacks of a page record.  Whatever [crawlPage] returns for
    a fetched HTML page is the record of the document fetched, that is of
    the body of the response that its last request for the page returned
    (the first to succeed, after at most [maxRetries] failures), a
    response whose content type includes text/html.  In it: the title is
    'No title' when the document has no title element or the trimmed
    title text is empty; description and keywords are the empty string
    when their meta tag is absent; the headings map has exactly the keys
    h1 to h6, each bound to the empty list when the document has no such
    heading. *)
Theorem crawlPage_fallbacks (u : string) (d : nat) (p : option string)
    (st st' : Crawler) (r : PageResult) :
  crawlPage u d p st = (Normal (Some r), st') →
  ∃ k response,
    (k ≤ maxRetries (options st))%nat ∧
    (∀ j, (j < k)%nat →
          ∃ e, (axios_get u (retryWorld u 0 j (world (atFetch u st)))).1
               = inl e) ∧
    (axios_get u (retryWorld u 0 k (world (atFetch u st)))).1
    = inr response ∧
    let doc := cheerio_load (data response) in
    includes "text/html" (js_or (content_type response) "") = true ∧
    (select_tag "title" doc = [] → title r = "No title") ∧
    (trim (text (select_tag "title" doc)) = "" → title r = "No title") ∧
    (select_meta "description" doc = [] → description r = "") ∧
    (select_meta "keywords" doc = [] → keywords r = "") ∧
    dom (headings r) = {[ "h1"; "h2"; "h3"; "h4"; "h5"; "h6" ]} ∧
    (∀ tag, tag ∈ headingTags → select_tag tag doc = [] →
            headings r !! tag = Some []).
Proof.
  intros E.
  destruct (crawlPage_origin _ _ _ _ _ _ E)
    as (_ & k & response & Hk & Hfail & Hok & Hct & _ & ->).
  exists k, response. split; [done|]. split; [done|]. split; [done|].
  cbv zeta. unfold pageResult.
  cbn [title description keywords headings]. split_and!; try done.
  - by intros ->.
  - by intros ->.
  - by intros ->.
  - by intros ->.
  - intros tag Ht Hn. rewrite (extractHeadings_lookup _ _ Ht).
    unfold headingTexts. by rewrite Hn.
Qed.

(** X6. A page that is not HTML.  When [u] is not yet visited, the robots
    check lets it through and the first response has a content type
    without text/html, [crawlPage] returns null after that one request:
    it does not retry and does not wait, [u] is visited, and the results
    and the failed set are as before. *)
Theorem crawlPage_skips_non_html (u : string) (d : nat) (p : option string)
    (st : Crawler) (response : Response) :
  u ∉ visitedUrls st → robots_allow u st →
  (axios_get u (world (atFetch u st))).1 = inr response →
  includes "text/html" (js_or (content_type response) "") = false →
  ∃ st' evs,
    crawlPage u d p st = (Normal None, st') ∧
    trace st' = evs ++ trace st ∧
    fetchesOf evs = [u] ∧ sleepsOf evs = [] ∧
    u ∈ visitedUrls st' ∧
    results st' = results st ∧ failedUrls st' = failedUrls st.
Proof.
  intros Hu Hrobots Hok Hct.
  pose proof (atFetch_keeps u st) as Hk.
  destruct (atFetch_trace u st) as (pre & Ht & Hpre).
  pose proof (crawlPage_marks u d p st) as Hm. unfold wp in Hm.
  rewrite crawlPage_enters in * by done.
  rewrite (fetchLoop_answer _ _ _ _ _ _ _ response) in *
    by (done || lia).
  cbv zeta in *. rewrite Hct in *.
  eexists _, (EvGetPage u :: pre). split; [done|]. split_and!.
  - simpl. by rewrite Ht.
  - cbn [fetchesOf omap list_omap]. fold (fetchesOf pre).
    by rewrite fetchesOf_none.
  - cbn [sleepsOf omap list_omap]. fold (sleepsOf pre).
    by rewrite sleepsOf_none.
  - done.
  - simpl. apply (keeps_results _ _ Hk).
  - simpl. apply (keeps_failed _ _ Hk).
Qed.

(** X7. A page that robots.txt disallows.  When [u] is not yet visited,
    the robots check is enabled and answers no, [crawlPage] returns null
    without any request for the page; [u] stays in the visited set, and
    the results and the failed set are as before. *)
Theorem crawlPage_blocked_by_robots (u : string) (d : nat)
    (p : option string) (st : Crawler) :
  u ∉ visitedUrls st →
  respectRobotsTxt (options st) = true →
  (isAllowedByRobots u (afterVisit u st)).1 = Normal false →
  ∃ st' evs,
    crawlPage u d p st = (Normal None, st') ∧
    trace st' = evs ++ trace st ∧
    fetchesOf evs = [] ∧ sleepsOf evs = [] ∧
    u ∈ visitedUrls st' ∧
    results st' = results st ∧ failedUrls st' = failedUrls st.
Proof.
  intros Hu Hon Hno.
  pose proof (atFetch_keeps u st) as Hk.
  destruct (atFetch_trace u st) as (pre & Ht & Hpre).
  pose proof (crawlPage_marks u d p st) as Hm. unfold wp in Hm.
  rewrite crawlPage_unvisited in * by done.
  unfold atFetch in *. rewrite Hon in *.
  destruct (isAllowedByRobots u (afterVisit u st)) as [c st1].
  simpl in *. subst c.
  exists st1, pre. split_and!; try done.
  - by apply fetchesOf_none.
  - by apply sleepsOf_none.
  - apply (keeps_results _ _ Hk).
  - apply (keeps_failed _ _ Hk).
Qed.

(** X8. A page that answers after some failures.  When [u] is not yet
    visited, the robots check lets it through, the first [k] requests fail
    ([k] at most [maxRetries]) and the next one returns HTML, [crawlPage]
    returns the record of that response: its requests and waits are a
    request, then for each j from 1 to [k] a wait of 1000 * j ms followed
    by a request, and [crawlTime] runs from the start of the first attempt
    to the answer, waits included. *)
Theorem crawlPage_retries_then_succeeds (u : string) (d : nat)
    (p : option string) (st : Crawler) (k : nat) (response : Response) :
  u ∉ visitedUrls st → robots_allow u st →
  (k ≤ maxRetries (options st))%nat →
  (∀ j, (j < k)%nat →
        ∃ e, (axios_get u (retryWorld u 0 j (world (atFetch u st)))).1
             = inl e) →
  (axios_get u (retryWorld u 0 k (world (atFetch u st)))).1 = inr response →
  includes "text/html" (js_or (content_type response) "") = true →
  ∃ r st' evs,
    crawlPage u d p st = (Normal (Some r), st') ∧
    trace st' = evs ++ trace st ∧
    filter (fun e => is_retry_event e = true) (rev evs) = attempts u 0 k ∧
    fetchesOf (rev evs) = replicate (k + 1) u ∧
    sleepsOf (rev evs) = map (fun j => 1000 * j) (seq 1 k) ∧
    statusCode r = status response ∧
    crawlTime r
    = (date_now (axios_get u (retryWorld u 0 k (world (atFetch u st)))).2
       - date_now (world (atFetch u st)))%Z.
Proof.
  intros Hu Hrobots Hk Hfail Hok Hhtml.
  pose proof (atFetch_keeps u st) as Hkeep.
  destruct (atFetch_trace u st) as (pre & Ht & Hpre).
  rewrite crawlPage_enters by done.
  destruct (fetchLoop_recovers u d p (date_now (world (atFetch u st)))
              response k 0 (S (maxRetries (options st))) (atFetch u st))
    as (st' & E & Hw & Ht'); [|lia|done..|].
  { rewrite (keeps_options _ _ Hkeep). simpl. lia. }
  rewrite E.
  eexists _, st', (rev (attempts u 0 k) ++ pre).
  rewrite rev_app_distr, rev_involutive.
  assert (Forall (fun e => is_retry_event e = false) (rev pre)) as Hrev
    by (by apply Forall_rev).
  split_and!.
  - done.
  - rewrite Ht', Ht. by rewrite <- app_assoc.
  - rewrite filter_app, filter_retry_none by done.
    apply filter_retry_attempts.
  - unfold fetchesOf. rewrite omap_app. fold (fetchesOf (rev pre)).
    rewrite fetchesOf_none by done.
    rewrite Nat.add_1_r. apply fetchesOf_attempts.
  - unfold sleepsOf. rewrite omap_app. fold (sleepsOf (rev pre)).
    rewrite sleepsOf_none by done. apply sleepsOf_attempts.
  - done.
  - cbn [pageResult crawlTime]. by rewrite Hw.
Qed.

(** X9. What a page record says of its page.  Whenever [crawlPage] returns
    a record for [u], [u] was not visited before the call and is visited
    after it; the record carries [u] as [originalUrl] with the depth and
    the parent given; it is the record of the response that the last
    request of the call returned (the first to succeed, after at most
    [maxRetries] failures): its [url] is the final URL of that response
    or else, when the response names none, [u]; its status and its
    content type, which includes text/html, are those of that response;
    and the call has changed neither the results nor the failed set. *)
Theorem crawlPage_record (u : string) (d : nat) (p : option string)
    (st st' : Crawler) (r : PageResult) :
  crawlPage u d p st = (Normal (Some r), st') →
  (u ∉ visitedUrls st) ∧ u ∈ visitedUrls st' ∧
  originalUrl r = u ∧ depth r = d ∧ parent r = p ∧
  includes "text/html" (contentType r) = true ∧
  (∃ k response,
     (k ≤ maxRetries (options st))%nat ∧
     (∀ j, (j < k)%nat →
           ∃ e, (axios_get u (retryWorld u 0 j (world (atFetch u st)))).1
                = inl e) ∧
     (axios_get u (retryWorld u 0 k (world (atFetch u st)))).1
     = inr response ∧
     url r = js_or (responseUrl response) u ∧
     statusCode r = status response ∧
     contentType r = js_or (content_type response) "" ∧
     contentLength r = js_length (data response)) ∧
  results st' = results st ∧ failedUrls st' = failedUrls st.
Proof.
  intros E.
  pose proof (crawlPage_marks u d p st) as Hm.
  pose proof (crawlPage_safe st u d p st (keeps_refl st)) as Hs.
  unfold wp, wpx in *. rewrite E in *.
  destruct (crawlPage_origin _ _ _ _ _ _ E)
    as (Hu & k & response & Hk & Hfail & Hok & Hct & _ & ->).
  split_and!; try done.
  - by exists k, response.
  - apply (keeps_results _ _ Hs).
  - apply (keeps_failed _ _ Hs).
Qed.

Lemma checkRobots_caches u st :
  wp (checkRobots u)
     (fun _ st' => is_Some (robotsCache st' !! robotsUrlOf u))
     (fun st' => is_Some (robotsCache st' !! robotsUrlOf u)) st.
Proof.
  unfold checkRobots. wp_steps; simpl in *.
  all: try (by rewrite lookup_insert_eq).
  all: try (by apply bool_decide_eq_true_1 in Heqb).
  all: by rewrite Heqo.
Qed.

Lemma isAllowedByRobots_caches u st :
  wp (isAllowedByRobots u)
     (fun _ st' => is_Some (robotsCache st' !! robotsUrlOf u))
     (fun st' => is_Some (robotsCache st' !! robotsUrlOf u)) st.
Proof.
  unfold isAllowedByRobots. apply wp_try_catch.
  wp_call checkRobots_caches; [done|].
  intros st' H. split; [done|]. intros. by wp_steps.
Qed.

(** X10. The robots cache is filled once.  After a robots check the host
    of [u] has a cache entry, and no entry that was there has changed. *)
Theorem isAllowedByRobots_fills_cache (u : string) (st : Crawler) :
  is_Some (robotsCache (isAllowedByRobots u st).2 !! robotsUrlOf u) ∧
  robotsCache st ⊆ robotsCache (isAllowedByRobots u st).2.
Proof.
  split.
  - pose proof (isAllowedByRobots_caches u st) as H. unfold wp in H.
    by destruct (isAllowedByRobots u st) as [[a|e|] st'].
  - pose proof (isAllowedByRobots_extends st u st (extends_refl st)) as H.
    unfold wp in H.
    destruct (isAllowedByRobots u st) as [[a|e|] st']; by apply ext_cache.
Qed.

(** X11. The robots cache is read.  When the host of [u] has a cache entry,
    the robots check makes no request and leaves the instance as it is;
    its answer is read off the entry: yes for [null] and when [isAllowed]
    throws, else what [isAllowed] says. *)
Theorem isAllowedByRobots_cached (u : string) (st : Crawler)
    (entry : option Robots) :
  robotsCache st !! robotsUrlOf u = Some entry →
  isAllowedByRobots u st = (Normal (entryAllows u st entry), st).
Proof.
  intros Hentry.
  unfold isAllowedByRobots, try_catch, checkRobots.
  unfold bind at 1, get at 1.
  rewrite bool_decide_eq_true_2 by (by rewrite Hentry).
  unfold bind, get, ret. simpl. rewrite Hentry.
  destruct entry as [robots|]; [|done]. simpl.
  by destruct (robots_isAllowed _ _ _).
Qed.

Lemma isAllowedByRobots_requests u st :
  ∃ evs,
    trace (isAllowedByRobots u st).2 = evs ++ trace st ∧
    (evs = [] ∨ evs = [EvGetRobots (robotsUrlOf u)]).
Proof.
  assert (wp (checkRobots u)
            (fun _ st' =>
               ∃ evs, trace st' = evs ++ trace st ∧
                      (evs = [] ∨ evs = [EvGetRobots (robotsUrlOf u)]))
            (fun st' =>
               ∃ evs, trace st' = evs ++ trace st ∧
                      (evs = [] ∨ evs = [EvGetRobots (robotsUrlOf u)]))
            st) as H.
  { unfold checkRobots. wp_steps; simpl.
    all: first [ by exists []; split; [|left]
               | by eexists [_]; split; [|right] ]. }
  unfold isAllowedByRobots, try_catch, wp in *.
  by destruct (checkRobots u st) as [[a|e|] st'].
Qed.

Lemma fetchLoop_requests fuel u d p t0 retries st :
  (retries ≤ maxRetries (options st))%nat →
  ∃ evs,
    trace (fetchLoop fuel u d p t0 retries st).2 = evs ++ trace st ∧
    Forall (fun e => is_retry_event e = true) evs ∧
    Forall (fun x => x = u) (fetchesOf evs) ∧
    (length (fetchesOf evs) + retries ≤ maxRetries (options st) + 1)%nat ∧
    (length (sleepsOf evs) + retries ≤ maxRetries (options st))%nat.
Proof.
  revert retries st. induction fuel as [|fuel IH]; intros retries st Hr.
  { exists []. simpl. split_and!; try done; lia. }
  destruct (axios_get u (world st)).1 as [e|response] eqn:Eg.
  - rewrite (fetchLoop_failed_attempt _ _ _ _ _ _ _ e) by done.
    cbv zeta. destruct (Nat.ltb _ _) eqn:El.
    + exists [EvGetPage u]. simpl.
      split_and!; try done; try (by repeat constructor); lia.
    + apply Nat.ltb_ge in El.
      set (st2 := set_world (set_timeout (1000 * S retries)) _).
      destruct (IH (S retries) st2) as (evs & Ht & Hev & Hf & Hl & Hs);
        [simpl; lia|].
      exists (evs ++ [EvSleep (1000 * S retries); EvGetPage u]).
      rewrite Ht. simpl in *. unfold fetchesOf, sleepsOf in *.
      rewrite !omap_app, !length_app. simpl.
      split_and!; try lia; try (by rewrite <- app_assoc);
        apply Forall_app; (split; [done|]); by repeat constructor.
  - rewrite (fetchLoop_answer _ _ _ _ _ _ _ response) by done.
    cbv zeta. exists [EvGetPage u].
    destruct (includes _ _); simpl; split_and!; try done;
      try (by repeat constructor); lia.
Qed.

(** X26. What one call of [crawlPage] may ask for.  However the call
    ends, it has made at most [maxRetries + 1] page requests, all for its
    own URL, at most [maxRetries] waits, and at most one robots.txt
    request, which is for the host of its URL. *)
Theorem crawlPage_requests (u : string) (d : nat) (p : option string)
    (st : Crawler) :
  ∃ evs,
    trace (crawlPage u d p st).2 = evs ++ trace st ∧
    Forall (fun x => x = u) (fetchesOf evs) ∧
    (length (fetchesOf evs) ≤ maxRetries (options st) + 1)%nat ∧
    (length (sleepsOf evs) ≤ maxRetries (options st))%nat ∧
    Forall (fun k => k = robotsUrlOf u) (robotsOf evs) ∧
    (length (robotsOf evs) ≤ 1)%nat.
Proof.
  destruct (decide (u ∈ visitedUrls st)) as [Hu|Hu].
  { rewrite crawlPage_visited by done. exists [EvSkip u]. simpl.
    split_and!; try done; try constructor; lia. }
  assert (∀ pre st1,
            trace st1 = pre ++ EvVisit u :: trace st →
            options st1 = options st →
            (pre = [] ∨ pre = [EvGetRobots (robotsUrlOf u)]) →
            ∃ evs,
              trace (fetchLoop (S (maxRetries (options st))) u d p
                       (date_now (world st1)) 0 st1).2 = evs ++ trace st ∧
              Forall (fun x => x = u) (fetchesOf evs) ∧
              (length (fetchesOf evs) ≤ maxRetries (options st) + 1)%nat ∧
              (length (sleepsOf evs) ≤ maxRetries (options st))%nat ∧
              Forall (fun k => k = robotsUrlOf u) (robotsOf evs) ∧
              (length (robotsOf evs) ≤ 1)%nat) as Hloop.
  { intros pre st1 Ht1 Ho1 Hpre.
    destruct (fetchLoop_requests (S (maxRetries (options st))) u d p
                (date_now (world st1)) 0 st1)
      as (evs & Ht & Hev & Hf & Hl & Hs); [lia|].
    rewrite Ho1 in Hl, Hs.
    assert (robotsOf evs = []) as Hno.
    { clear -Hev. induction Hev as [|e evs He _ IH]; [done|].
      by destruct e. }
    exists (evs ++ pre ++ [EvVisit u]). rewrite Ht, Ht1.
    unfold fetchesOf, sleepsOf, robotsOf in *.
    rewrite !omap_app, !length_app, Hno.
    destruct Hpre as [-> | ->]; simpl; rewrite ?app_nil_r;
      split_and!; try done; try (by rewrite <- app_assoc);
      try (by repeat constructor); lia. }
  rewrite crawlPage_unvisited by done.
  destruct (respectRobotsTxt (options st)) eqn:Hon.
  - destruct (isAllowedByRobots_requests u (afterVisit u st))
      as (pre & Ht1 & Hpre).
    pose proof (isAllowedByRobots_keeps st u (afterVisit u st)) as Hk.
    unfold wp in Hk.
    destruct (isAllowedByRobots u (afterVisit u st)) as [[[]|e|] st1];
      simpl in Ht1.
    + apply (Hloop pre st1); [done| |done].
      apply keeps_options, Hk. by split.
    + exists (pre ++ [EvVisit u]). simpl. rewrite Ht1.
      unfold fetchesOf, sleepsOf, robotsOf.
      destruct Hpre as [-> | ->]; simpl;
        split_and!; try done; try (by repeat constructor); lia.
    + exists (pre ++ [EvVisit u]). simpl. rewrite Ht1.
      unfold fetchesOf, sleepsOf, robotsOf.
      destruct Hpre as [-> | ->]; simpl;
        split_and!; try done; try (by repeat constructor); lia.
    + exists (pre ++ [EvVisit u]). simpl. rewrite Ht1.
      unfold fetchesOf, sleepsOf, robotsOf.
      destruct Hpre as [-> | ->]; simpl;
        split_and!; try done; try (by repeat constructor); lia.
  - apply (Hloop [] (afterVisit u st)); [done|done|by left].
Qed.

(** ** More of the URL filter *)

Lemma some_match_none patterns u b :
  some_match patterns u = inr b →
  (∀ pattern, pattern ∈ patterns → regexp_test pattern u = Some false) →
  b = false.
Proof.
  induction patterns as [|q rest IH]; simpl; intros H Hall; [congruence|].
  rewrite (Hall q) in H by left. apply IH; [done|].
  intros pattern Hp. apply Hall. by right.
Qed.

Lemma some_match_some patterns u b :
  some_match patterns u = inr b →
  (∃ pattern, pattern ∈ patterns ∧ regexp_test pattern u = Some true) →
  b = true.
Proof.
  induction patterns as [|q rest IH]; simpl; intros H (pattern & Hp & Ht).
  - by apply elem_of_nil in Hp.
  - destruct (regexp_test q u) as [[|]|] eqn:E; [congruence|..|done].
    apply IH; [done|]. exists pattern. split; [|done].
    apply elem_of_cons in Hp as [->|Hp]; [congruence|done].
Qed.

Lemma keepUrl_complete o baseUrl u b :
  keepUrl o baseUrl u = inr b → passes o baseUrl u → b = true.
Proof.
  unfold keepUrl, passes. intros H (Hp & Hh & Ha & He & Hi).
  rewrite bool_decide_eq_true_2 in H by set_solver. simpl in H.
  destruct (followExternalLinks o) eqn:Hf; simpl in H.
  2: rewrite bool_decide_eq_true_2 in H by auto; simpl in H.
  all: destruct (allowedDomains o) as [|a ds] eqn:Hd; simpl in H.
  2,4: rewrite bool_decide_eq_true_2 in H by auto; simpl in H.
  all: destruct (some_match (excludePatterns o) u) as [|x] eqn:Hx;
    [done|].
  all: rewrite (some_match_none _ _ _ Hx He) in H.
  all: destruct (includePatterns o) as [|q qs] eqn:Hq; simpl in H;
    [congruence|].
  all: change (match regexp_test q u with
               | Some true => inr true
               | Some false => some_match qs u
               | None => inl (RegExpSyntaxError q)
               end) with (some_match (q :: qs) u) in H.
  all: destruct (some_match (q :: qs) u) as [|matched] eqn:Hm; [done|].
  all: injection H as <-; apply (some_match_some _ _ _ Hm); by apply Hi.
Qed.

(** X12. The URL filter drops nothing it should keep: whenever
    [extractAndFilterUrls] returns a list, the URL of every link given
    that passes the five rules (protocol, same host, allowed domains,
    exclude patterns, include patterns) is in the list. *)
Theorem extractAndFilterUrls_complete (o : Options) (ls : list Link.t)
    (baseUrl : string) (d : nat) (urls : list string) (link : Link.t) :
  extractAndFilterUrls o ls baseUrl d = inr urls →
  link ∈ ls → passes o baseUrl (Link.url link) →
  Link.url link ∈ urls.
Proof.
  unfold extractAndFilterUrls. intros H Hl Hp.
  destruct (filterUrls o baseUrl ls) as [|kept] eqn:Hk; [done|].
  injection H as <-. apply elem_of_set_spread.
  revert kept Hk. induction ls as [|l rest IH]; simpl; intros kept Hk.
  - by apply elem_of_nil in Hl.
  - destruct (keepUrl o baseUrl (Link.url l)) as [|keep] eqn:Ek; [done|].
    destruct (filterUrls o baseUrl rest) as [|kept'] eqn:Er; [done|].
    injection Hk as <-.
    apply elem_of_cons in Hl as [->|Hl].
    + rewrite (keepUrl_complete _ _ _ _ Ek Hp). left.
    + specialize (IH Hl kept' eq_refl). destruct keep; [by right|done].
Qed.

(** ** More of the scheduler *)

Lemma dispatch_marks batch st :
  wp (dispatch batch)
     (fun _ st' => ∀ item, item ∈ batch → Item.url item ∈ visitedUrls st')
     (fun _ => True) st.
Proof.
  revert st. induction batch as [|item rest IH]; intros st; simpl;
    wp_steps; [by intros item Hi; apply elem_of_nil in Hi|].
  assert (∀ r st1, Item.url item ∈ visitedUrls st1 →
            wp (bind (dispatch rest) (fun rs => ret (r :: rs)))
               (fun _ st' =>
                  ∀ it, it ∈ item :: rest → Item.url it ∈ visitedUrls st')
               (fun _ => True) st1) as Hrest.
  { intros r st1 H1. apply wp_bind. eapply wp_mono.
    - apply wp_conj; [apply IH|apply (dispatch_extends st1), extends_refl].
    - cbv beta. intros rs st2 [H2 E2]. wp_steps.
      intros it [->|Hit]%elem_of_cons; [|by apply H2].
      by apply (ext_visited _ _ E2).
    - done. }
  apply wp_settle. eapply wp_mono; [apply crawlPage_marks| |]; cbv beta.
  - intros v st1 H1. by apply Hrest.
  - intros st1 H1. split; [done|]. intros e _. by apply Hrest.
Qed.

Lemma crawlPage_answers u d p st :
  wp (crawlPage u d p)
     (fun v _ => ∀ r, v = Some r →
                      originalUrl r = u ∧ depth r = d ∧ parent r = p)
     (fun _ => True) st.
Proof.
  eapply wp_mono; [apply crawlPage_result| |done]. cbv beta.
  intros v st' H r Er.
  by destruct (H r Er) as (response & t0 & t1 & stamp & _ & ->).
Qed.

Lemma dispatch_answers batch st :
  wp (dispatch batch) (fun rs _ => Forall2 answers batch rs)
     (fun _ => True) st.
Proof.
  revert st. induction batch as [|item rest IH]; intros st; simpl;
    wp_steps; [done|].
  apply wp_settle. eapply wp_mono; [apply crawlPage_answers| |]; cbv beta.
  - intros v st1 Hv. wp_call IH; [|done].
    intros rs st2 Hrs. wp_steps. constructor; [|done].
    intros r [= ->]. by apply Hv.
  - intros st1 _. split; [done|]. intros e _. wp_call IH; [|done].
    intros rs st2 Hrs. wp_steps. by constructor.
Qed.

Lemma dispatch_settled batch st :
  ∃ rs st',
    dispatch batch st = (Normal rs, st') ∧
    length rs = length batch ∧
    Forall2 answers batch rs ∧
    (∀ item, item ∈ batch → Item.url item ∈ visitedUrls st') ∧
    keeps st st'.
Proof.
  pose proof (dispatch_safe st batch st (keeps_refl st)) as Hs.
  pose proof (dispatch_marks batch st) as Hm.
  pose proof (dispatch_answers batch st) as Ha.
  unfold wp, wpx in *.
  destruct (dispatch batch st) as [[rs|e|] st']; try done.
  destruct Hs as [Hk Hl]. by exists rs, st'.
Qed.

Lemma answers_settled_for batch rs :
  Forall2 answers batch rs → Forall2 settled_for batch rs.
Proof.
  intros Ha. eapply Forall2_impl; [exact Ha|].
  intros item r H x Ex. by destruct (H x Ex) as (_ & ? & _).
Qed.

(** X13. A batch is always settled in full.  [dispatch] never throws: it
    returns one settled result for every item of the batch, in batch
    order, and a page record in a slot carries the URL, the depth and the
    parent of the item in that slot.  Afterwards the URL of every item of
    the batch is visited, and neither the results nor the failed set have
    changed. *)
Theorem dispatch_settles_all (batch : list Item.t) (st : Crawler) :
  ∃ rs st',
    dispatch batch st = (Normal rs, st') ∧
    length rs = length batch ∧
    Forall2 answers batch rs ∧
    (∀ item, item ∈ batch → Item.url item ∈ visitedUrls st') ∧
    results st' = results st ∧ failedUrls st' = failedUrls st.
Proof.
  destruct (dispatch_settled batch st) as (rs & st' & E & Hl & Ha & Hm & Hk).
  exists rs, st'. split_and!; try done.
  - apply (keeps_results _ _ Hk).
  - apply (keeps_failed _ _ Hk).
Qed.

Lemma enqueueNew_eq newUrls d parent queue st :
  ∃ evs,
    enqueueNew newUrls d parent queue st
    = (Normal (queue ++ pushed st newUrls d parent), set_trace (app evs) st).
Proof.
  revert queue st. induction newUrls as [|u rest IH]; intros queue st.
  - exists []. unfold pushed. simpl. rewrite app_nil_r. by destruct st.
  - cbn [enqueueNew]. unfold bind at 1, get at 1. unfold pushed.
    destruct (decide ((u ∉ visitedUrls st) ∧ (u ∉ failedUrls st)))
      as [[Hv Hf]|Hn].
    + rewrite !bool_decide_eq_false_2 by done. simpl.
      rewrite filter_cons_True by done.
      unfold bind at 1, log at 1, modify at 1.
      destruct (IH (queue ++ [Item.mk u d (Some parent)])
                   (set_trace (cons (EvPush (Item.mk u d (Some parent))))
                      st)) as (evs & E).
      exists (evs ++ [EvPush (Item.mk u d (Some parent))]).
      rewrite E. unfold pushed, set_trace. simpl.
      by rewrite <- !app_assoc.
    + rewrite filter_cons_False by done.
      assert (negb (bool_decide (u ∈ visitedUrls st))
              && negb (bool_decide (u ∈ failedUrls st)) = false) as ->.
      { destruct (bool_decide (u ∈ visitedUrls st)) eqn:Ev; [done|].
        destruct (bool_decide (u ∈ failedUrls st)) eqn:Ef; [done|].
        apply bool_decide_eq_false_1 in Ev, Ef. by destruct Hn. }
      apply IH.
Qed.

(** X14. What [enqueueNew] pushes.  The queue is only appended to: the
    items that were waiting stay in front, in order, and behind them comes
    one item for each new URL that is neither visited nor failed, in the
    order of the URLs, with the depth and the parent given.  URLs already
    waiting in the queue are not looked at.  The sets, the results and the
    world are left alone. *)
Theorem enqueueNew_appends (newUrls : list string) (d : nat)
    (parent : string) (queue : list Item.t) (st : Crawler) :
  ∃ st',
    enqueueNew newUrls d parent queue st
    = (Normal (queue ++ pushed st newUrls d parent), st') ∧
    visitedUrls st' = visitedUrls st ∧ failedUrls st' = failedUrls st ∧
    results st' = results st ∧ world st' = world st.
Proof.
  destruct (enqueueNew_eq newUrls d parent queue st) as [evs E].
  by exists (set_trace (app evs) st).
Qed.

(** ** Breadth first *)

Lemma breadth_first_sorted handled waiting :
  breadth_first handled waiting → StronglySorted le handled.
Proof. intros [H _]. by apply StronglySorted_app_1_l in H. Qed.

Lemma breadth_first_skip handled w waiting :
  breadth_first handled (w :: waiting) → breadth_first handled waiting.
Proof.
  intros [Hs Hb]. apply StronglySorted_app in Hs as (Hc & Hh & Hw).
  apply StronglySorted_cons in Hw as [Hle Hw]. split.
  - apply StronglySorted_app. split_and!; [|done..].
    intros x1 x2 H1 H2. apply Hc; [done|by right].
  - intros x Hx. destruct waiting as [|w' ws]; [by apply elem_of_nil in Hx|].
    simpl in *. apply Forall_cons in Hle as [Hle _].
    assert (x ≤ w + 1)%nat by (apply Hb; by right). lia.
Qed.

Lemma breadth_first_push handled w waiting children :
  breadth_first handled (w :: waiting) →
  (∀ c, c ∈ children → c = (w + 1)%nat) →
  breadth_first (handled ++ [w]) (waiting ++ children).
Proof.
  intros [Hs Hb] Hc. simpl in Hb.
  assert (StronglySorted le children) as Hcs.
  { clear -Hc. induction children as [|c cs IH]; constructor.
    - apply IH. intros x Hx. apply Hc. by right.
    - apply Forall_forall. intros x Hx.
      rewrite (Hc c) by left. rewrite (Hc x); [done|by right]. }
  pose proof Hs as Hs'.
  apply StronglySorted_app in Hs' as (Hcross & Hh & Hw).
  apply StronglySorted_cons in Hw as [Hle Hw].
  rewrite Forall_forall in Hle. split.
  - rewrite <- app_assoc. simpl.
    change (w :: waiting ++ children) with ((w :: waiting) ++ children).
    rewrite app_assoc. apply StronglySorted_app_2; [|done..].
    intros x1 x2 H1 H2. rewrite (Hc x2 H2).
    apply elem_of_app in H1 as [H1|H1].
    + assert (x1 ≤ w)%nat by (apply Hcross; [done|left]). lia.
    + by apply Hb.
  - intros x Hx. destruct waiting as [|w' ws]; simpl in *.
    + destruct children as [|c cs]; [by apply elem_of_nil in Hx|].
      simpl. rewrite (Hc x Hx), (Hc c) by left. lia.
    + assert (w ≤ w')%nat by (apply Hle; left).
      apply elem_of_cons in Hx as [->|Hx]; [lia|].
      apply elem_of_app in Hx as [Hx|Hx].
      * assert (x ≤ w + 1)%nat by (apply Hb; right; by right). lia.
      * rewrite (Hc x Hx). lia.
Qed.

Lemma in_order_push item r rest queue new st st' :
  in_order st (item :: rest ++ queue) →
  depth r = Item.depth item →
  results st' = results st ++ [r] →
  (∀ x, x ∈ new → Item.depth x = (Item.depth item + 1)%nat) →
  in_order st' (rest ++ queue ++ new).
Proof.
  unfold in_order. intros H Hd Hr Hn. rewrite Hr, map_app. simpl.
  rewrite Hd, app_assoc, (map_app _ (rest ++ queue)).
  apply breadth_first_push; [done|].
  intros c (x & -> & Hx)%list_elem_of_fmap. by apply Hn.
Qed.

Lemma handleResult_in_order item result rest queue st :
  settled_for item result → in_order st (item :: rest ++ queue) →
  wp (handleResult item result queue)
     (fun queue' st' => in_order st' (rest ++ queue'))
     (fun st' => StronglySorted le (map depth (results st'))) st.
Proof.
  intros Hr H. unfold handleResult, emit_error.
  assert (in_order st (rest ++ queue)) as Hskip
    by (by eapply breadth_first_skip).
  pose proof (breadth_first_sorted _ _ H) as Hsorted.
  destruct result as [[r|]|reason]; wp_steps; try done.
  - eapply breadth_first_sorted.
    apply (in_order_push item r rest queue [] st); simpl; try done.
    + by apply Hr.
    + by intros x Hx; apply elem_of_nil in Hx.
  - set (st1 := set_results _ _).
    destruct (enqueueNew_eq l (Item.depth item + 1) (url r) queue st1)
      as [evs E].
    unfold wp at 1. rewrite E. wp_steps.
    apply (in_order_push item r rest queue _ st); simpl; try done.
    + by apply Hr.
    + unfold pushed. by intros x (u & -> & _)%list_elem_of_fmap.
  - rewrite <- (app_nil_r queue).
    apply (in_order_push item r rest queue [] st); simpl; try done.
    + by apply Hr.
    + by intros x Hx; apply elem_of_nil in Hx.
Qed.

Lemma handleResults_in_order batch batchResults queue st :
  Forall2 settled_for batch batchResults → in_order st (batch ++ queue) →
  wp (handleResults batch batchResults queue)
     (fun queue' st' => in_order st' queue')
     (fun st' => StronglySorted le (map depth (results st'))) st.
Proof.
  intros Hr. revert queue st.
  induction Hr as [|item r batch rs Hir Hrs IH]; intros queue st H;
    simpl; wp_steps; [done|].
  wp_call (handleResult_in_order item r batch queue st); [done..| |done].
  intros queue' st' H'. by apply IH.
Qed.

Lemma crawlLoop_in_order fuel queue st :
  in_order st queue →
  wp (crawlLoop fuel queue)
     (fun _ st' => StronglySorted le (map depth (results st')))
     (fun st' => StronglySorted le (map depth (results st'))) st.
Proof.
  revert queue st. induction fuel as [|fuel IH]; intros queue st H;
    pose proof (breadth_first_sorted _ _ H) as Hsorted;
    simpl; wp_steps; try done.
  destruct (dispatch_settled (take (maxConcurrency (options st)) queue) st)
    as (rs & st1 & E & _ & Ha & _ & Hk).
  unfold wp at 1. rewrite E.
  wp_call (handleResults_in_order
             (take (maxConcurrency (options st)) queue) rs
             (drop (maxConcurrency (options st)) queue) st1).
  - by apply answers_settled_for.
  - unfold in_order. rewrite (keeps_results _ _ Hk), take_drop. exact H.
  - intros queue' st2 H2. wp_steps; by apply IH.
  - done.
Qed.

(** X15. Breadth first.  On an instance without results, the results of a
    run are recorded in order of depth: no page is recorded before a page
    that lies nearer to the start URL, however the run ends. *)
Theorem crawl_breadth_first (fuel : nat) (startUrl : string)
    (st : Crawler) :
  results st = [] →
  StronglySorted le (map depth (results (crawl fuel startUrl st).2)).
Proof.
  intros Hr.
  assert (wp (crawl fuel startUrl)
             (fun _ st' => StronglySorted le (map depth (results st')))
             (fun st' => StronglySorted le (map depth (results st'))) st)
    as H.
  { unfold crawl, emit_fatal. wp_steps. apply wp_try_catch.
    wp_call (crawlLoop_in_order fuel [Item.mk startUrl 0 None] st).
    - unfold in_order, breadth_first. rewrite Hr. simpl. split.
      + repeat constructor.
      + intros w ->%list_elem_of_singleton. lia.
    - intros [] st1 H1. by wp_steps.
    - intros st1 H1. split; [done|]. intros e _. by wp_steps. }
  unfold wp in H. by destruct (crawl fuel startUrl st) as [[v|e|] st'].
Qed.

(** ** Crawling without robots.txt *)

Lemma robotless_refl st : robotless st st.
Proof. split; try done. by exists []. Qed.

Lemma robotless_more st0 st st' evs :
  robotless st0 st →
  options st' = options st → robotsCache st' = robotsCache st →
  trace st' = evs ++ trace st →
  Forall (fun e => is_robots_request e = false) evs →
  robotless st0 st'.
Proof.
  intros [Ho Hc (evs0 & Ht & Hevs)] Ho' Hc' Ht' Hevs'.
  split; [congruence..|]. exists (evs ++ evs0). split.
  - rewrite Ht', Ht. by rewrite app_assoc.
  - by apply Forall_app.
Qed.

Ltac robotless_auto :=
  lazymatch goal with
  | H : robotless ?s0 ?st |- robotless ?s0 ?st' =>
      let t := eval simpl in (trace st') in
      lazymatch t with
      | trace st => apply (robotless_more s0 st st' [] H)
      | ?e :: trace st => apply (robotless_more s0 st st' [e] H)
      | ?e2 :: ?e1 :: trace st =>
          apply (robotless_more s0 st st' [e2; e1] H)
      end; [done|done|done|by repeat constructor]
  end.

Lemma fetchLoop_robotless st0 fuel u d p t0 retries st :
  robotless st0 st →
  wp (fetchLoop fuel u d p t0 retries)
     (fun _ => robotless st0) (robotless st0) st.
Proof.
  revert retries st. induction fuel as [|fuel IH]; intros retries st H;
    simpl; wp_steps; try robotless_auto.
  apply IH. robotless_auto.
Qed.

Lemma crawlPage_robotless st0 u d p st :
  respectRobotsTxt (options st0) = false → robotless st0 st →
  wp (crawlPage u d p) (fun _ => robotless st0) (robotless st0) st.
Proof.
  intros Hoff H. unfold crawlPage. wp_steps; try robotless_auto.
  - rewrite (robotless_options _ _ H) in Heqb0. congruence.
  - apply fetchLoop_robotless. robotless_auto.
Qed.

Lemma dispatch_robotless st0 batch st :
  respectRobotsTxt (options st0) = false → robotless st0 st →
  wp (dispatch batch) (fun _ => robotless st0) (robotless st0) st.
Proof.
  intros Hoff. revert st. induction batch as [|item rest IH]; intros st H;
    simpl; wp_steps; [done|].
  apply wp_settle. wp_call (crawlPage_robotless st0); [done..| |].
  - intros v st' H'. wp_call IH; [done| |done]. intros. by wp_steps.
  - intros st' H'. split; [done|]. intros e _.
    wp_call IH; [done| |done]. intros. by wp_steps.
Qed.

Lemma enqueueNew_robotless st0 newUrls d parent queue st :
  robotless st0 st →
  wp (enqueueNew newUrls d parent queue)
     (fun _ => robotless st0) (robotless st0) st.
Proof.
  revert queue st. induction newUrls as [|u rest IH]; intros queue st H;
    simpl; wp_steps; try done; apply IH; robotless_auto.
Qed.

Lemma handleResult_robotless st0 item result queue st :
  robotless st0 st →
  wp (handleResult item result queue)
     (fun _ => robotless st0) (robotless st0) st.
Proof.
  intros H. unfold handleResult, emit_error.
  wp_steps; try robotless_auto; try done.
  wp_call (enqueueNew_robotless st0); [robotless_auto| |done].
  intros queue' st' H'. wp_steps. robotless_auto.
Qed.

Lemma handleResults_robotless st0 batch batchResults queue st :
  robotless st0 st →
  wp (handleResults batch batchResults queue)
     (fun _ => robotless st0) (robotless st0) st.
Proof.
  revert batchResults queue st.
  induction batch as [|item batch IH]; intros [|r rs] queue st H; simpl;
    wp_steps; try done.
  wp_call (handleResult_robotless st0); [done| |done].
  intros queue' st' H'. by apply IH.
Qed.

Lemma crawlLoop_robotless st0 fuel queue st :
  respectRobotsTxt (options st0) = false → robotless st0 st →
  wp (crawlLoop fuel queue) (fun _ => robotless st0) (robotless st0) st.
Proof.
  intros Hoff. revert queue st.
  induction fuel as [|fuel IH]; intros queue st H; simpl;
    wp_steps; try done.
  wp_call (dispatch_robotless st0); [done..| |done]. intros rs st1 H1.
  wp_call (handleResults_robotless st0); [done| |done].
  intros queue' st2 H2. wp_steps; apply IH; try done. robotless_auto.
Qed.

(** X16. Crawling with [respectRobotsTxt] off.  However the run ends, it
    has asked for no robots.txt and the robots cache is as it was. *)
Theorem crawl_without_robots (fuel : nat) (startUrl : string)
    (st : Crawler) :
  respectRobotsTxt (options st) = false →
  robotsCache (crawl fuel startUrl st).2 = robotsCache st ∧
  ∃ evs, trace (crawl fuel startUrl st).2 = evs ++ trace st ∧
         ∀ robotsUrl, EvGetRobots robotsUrl ∉ evs.
Proof.
  intros Hoff.
  assert (wp (crawl fuel startUrl)
             (fun _ => robotless st) (robotless st) st) as H.
  { unfold crawl, emit_fatal. wp_steps. apply wp_try_catch.
    wp_call (crawlLoop_robotless st); [done|apply robotless_refl| |].
    - intros _ st1 H1. wp_steps. robotless_auto.
    - intros st1 H1. split; [done|]. intros e _.
      wp_steps; robotless_auto. }
  unfold wp in H.
  assert (robotless st (crawl fuel startUrl st).2) as [_ Hc (evs & Ht & He)]
    by (by destruct (crawl fuel startUrl st) as [[v|e|] st']).
  split; [done|]. exists evs. split; [done|].
  intros robotsUrl Hin. rewrite Forall_forall in He.
  by specialize (He _ Hin).
Qed.

(** ** One outcome for each URL *)

Lemma dispatch_outcomes batch st rs st' :
  dispatch batch st = (Normal rs, st') →
  NoDup (outcomes batch rs) ∧
  ∀ u, u ∈ outcomes batch rs → (u ∉ visitedUrls st) ∧ u ∈ visitedUrls st'.
Proof.
  revert st rs. induction batch as [|item rest IH]; intros st rs E.
  - simpl. split; [constructor|]. by intros u Hu; apply elem_of_nil in Hu.
  - cbn [dispatch] in E. unfold bind at 1, settle in E.
    pose proof (crawlPage_marks (Item.url item) (Item.depth item)
                  (Item.parent item) st) as Hm.
    pose proof (crawlPage_extends st (Item.url item) (Item.depth item)
                  (Item.parent item) st (extends_refl st)) as He.
    assert (Item.url item ∈ visitedUrls st →
            crawlPage (Item.url item) (Item.depth item) (Item.parent item)
                      st = (Normal None, set_trace (cons (EvSkip (Item.url item))) st))
      as Hv by apply crawlPage_visited.
    unfold wp in Hm, He.
    destruct (crawlPage (Item.url item) (Item.depth item)
                (Item.parent item) st) as [[v|e|] st1]; [| |done].
    all: unfold bind in E.
    all: pose proof (dispatch_extends st1 rest st1 (extends_refl st1)) as He2.
    all: unfold wp in He2.
    all: destruct (dispatch rest st1) as [[rs'|e'|] st2] eqn:E2; try done.
    all: injection E as <- <-.
    all: destruct (IH st1 rs' E2) as [Hnd Hall].
    all: assert (∀ u, u ∈ outcomes rest rs' →
                      (u ∉ visitedUrls st) ∧ u ∈ visitedUrls st2) as Hrest
           by (intros u Hu; destruct (Hall u Hu) as [H1 H2];
               split; [|done]; intros Hin; apply H1;
               by apply (ext_visited _ _ He)).
    all: assert (Item.url item ∉ outcomes rest rs') as Hnew
           by (intros Hin; by destruct (Hall _ Hin)).
    + destruct v as [r|]; simpl; [|done].
      split; [by constructor|].
      intros u [->|Hu]%elem_of_cons; [|by apply Hrest].
      split; [|by apply (ext_visited _ _ He2)].
      intros Hin. by specialize (Hv Hin).
    + simpl. split; [by constructor|].
      intros u [->|Hu]%elem_of_cons; [|by apply Hrest].
      split; [|by apply (ext_visited _ _ He2)].
      intros Hin. by specialize (Hv Hin).
Qed.

Lemma pending_result st st' u us x :
  pending st (u :: us) → originalUrl x = u →
  results st' = results st ++ [x] →
  visitedUrls st' = visitedUrls st → failedUrls st' = failedUrls st →
  pending st' us.
Proof.
  intros ([Hfv Hrv Hra Hro] & Hnd & Hall) Hx Hr Hv Hf.
  apply NoDup_cons in Hnd as [Hu Hnd].
  destruct (Hall u) as (Huv & Huf & Hur); [left|].
  split_and!.
  - split; rewrite ?Hr, ?Hv, ?Hf; try done.
    + intros r [Hin| ->%list_elem_of_singleton]%elem_of_app;
        [by apply Hrv|by rewrite Hx].
    + intros r [Hin| ->%list_elem_of_singleton]%elem_of_app;
        [by apply Hra|by rewrite Hx].
    + rewrite map_app. simpl. apply NoDup_app. split_and!; [done| |].
      * intros y Hy ->%list_elem_of_singleton. by rewrite Hx in Hy.
      * apply NoDup_singleton.
  - done.
  - intros y Hy. destruct (Hall y) as (Hyv & Hyf & Hyr); [by right|].
    rewrite Hr, Hv, Hf, map_app. split_and!; try done. simpl.
    intros [Hin| ->%list_elem_of_singleton]%elem_of_app; [done|].
    by rewrite Hx in Hy.
Qed.

Lemma pending_failed st st' u us :
  pending st (u :: us) →
  failedUrls st' = {[u]} ∪ failedUrls st →
  results st' = results st → visitedUrls st' = visitedUrls st →
  pending st' us.
Proof.
  intros ([Hfv Hrv Hra Hro] & Hnd & Hall) Hf Hr Hv.
  apply NoDup_cons in Hnd as [Hu Hnd].
  destruct (Hall u) as (Huv & Huf & Hur); [left|].
  split_and!.
  - split; rewrite ?Hr, ?Hv, ?Hf; try done.
    + set_solver.
    + intros r Hin [Heq%elem_of_singleton|Hin']%elem_of_union;
        [|by apply (Hra r)].
      apply Hur. rewrite <- Heq. by apply list_elem_of_fmap_2.
  - done.
  - intros y Hy. destruct (Hall y) as (Hyv & Hyf & Hyr); [by right|].
    rewrite Hr, Hv, Hf. split_and!; try done.
    intros [Heq%elem_of_singleton|Hin]%elem_of_union; [|done].
    by rewrite Heq in Hy.
Qed.

Lemma handleResult_pending item result rest rs queue st :
  answers item result →
  pending st (outcomes (item :: rest) (result :: rs)) →
  wp (handleResult item result queue)
     (fun _ st' => pending st' (outcomes rest rs)) consistent st.
Proof.
  intros Ha H. unfold handleResult, emit_error.
  destruct result as [[r|]|reason]; cbn [outcomes] in H.
  - destruct (Ha r eq_refl) as (Hu & _).
    assert (∀ st', results st' = results st ++ [r] →
                   visitedUrls st' = visitedUrls st →
                   failedUrls st' = failedUrls st →
                   pending st' (outcomes rest rs)) as Hp
      by (intros st'; by apply (pending_result st st' (Item.url item))).
    wp_steps; try (apply Hp; done); try (by apply Hp).
    set (st1 := set_results _ _).
    destruct (enqueueNew_eq l (Item.depth item + 1) (url r) queue st1)
      as [evs E].
    unfold wp at 1. rewrite E. wp_steps. by apply Hp.
  - by wp_steps.
  - assert (∀ st', failedUrls st' = {[Item.url item]} ∪ failedUrls st →
                   results st' = results st →
                   visitedUrls st' = visitedUrls st →
                   pending st' (outcomes rest rs)) as Hp
      by (intros st'; by apply (pending_failed st st' (Item.url item))).
    wp_steps; by apply Hp.
Qed.

Lemma handleResults_pending batch batchResults queue st :
  Forall2 answers batch batchResults →
  pending st (outcomes batch batchResults) →
  wp (handleResults batch batchResults queue)
     (fun _ => consistent) consistent st.
Proof.
  intros Ha. revert queue st.
  induction Ha as [|item r batch rs Hir Hrs IH]; intros queue st H;
    simpl; wp_steps; [by destruct H|].
  wp_call (handleResult_pending item r batch rs queue st); [done..| |done].
  intros queue' st' H'. by apply IH.
Qed.

Lemma crawlLoop_consistent fuel queue st :
  consistent st →
  wp (crawlLoop fuel queue) (fun _ => consistent) consistent st.
Proof.
  revert queue st. induction fuel as [|fuel IH]; intros queue st H;
    simpl; wp_steps; try done.
  set (batch := take (maxConcurrency (options st)) queue).
  destruct (dispatch_settled batch st)
    as (rs & st1 & E & _ & Ha & _ & Hk).
  destruct (dispatch_outcomes batch st rs st1 E) as [Hnd Hall].
  pose proof (dispatch_extends st batch st (extends_refl st)) as He.
  unfold wp in He. rewrite E in He.
  unfold wp at 1. rewrite E.
  destruct H as [Hfv Hrv Hra Hro].
  wp_call (handleResults_pending batch rs
             (drop (maxConcurrency (options st)) queue) st1).
  - done.
  - split_and!; [|done|].
    + split; rewrite ?(keeps_results _ _ Hk), ?(keeps_failed _ _ Hk);
        try done.
      * etrans; [done|]. by apply (ext_visited _ _ He).
      * intros r Hr. by apply (ext_visited _ _ He), Hrv.
    + intros u Hu. destruct (Hall u Hu) as [Hnv Hv].
      rewrite (keeps_results _ _ Hk), (keeps_failed _ _ Hk).
      split_and!; [done| |].
      * intros Hin. apply Hnv. by apply Hfv.
      * intros (r & -> & Hr)%list_elem_of_fmap. apply Hnv. by apply Hrv.
  - intros queue' st2 H2. wp_steps; apply IH; by destruct H2.
  - done.
Qed.

Lemma consistent_count st :
  consistent st →
  (length (results st) + size (failedUrls st) ≤ size (visitedUrls st))%nat.
Proof.
  intros [Hfv Hrv Hra Hro].
  set (A := list_to_set (map originalUrl (results st)) : gset string).
  assert (size A = length (results st)) as <-
    by (subst A; by rewrite size_list_to_set, length_map).
  assert (A ## failedUrls st) as Hd.
  { intros u (r & -> & Hr)%elem_of_list_to_set%list_elem_of_fmap.
    by apply Hra. }
  rewrite <- size_union by done. apply subseteq_size.
  apply union_subseteq. split; [|done].
  intros u (r & -> & Hr)%elem_of_list_to_set%list_elem_of_fmap.
  by apply Hrv.
Qed.

(** X17. One outcome for each URL.  A run keeps the instance consistent,
    however it ends: every failed URL and the original URL of every result
    is visited, no URL is both failed and the original URL of a result, no
    two results have the same original URL; so [getSummary] never counts
    more pages and failures together than visited URLs. *)
Theorem crawl_single_outcome (fuel : nat) (startUrl : string)
    (st : Crawler) :
  consistent st →
  consistent (crawl fuel startUrl st).2 ∧
  (Stats.totalPages (getSummary (crawl fuel startUrl st).2)
   + Stats.failedUrls (getSummary (crawl fuel startUrl st).2)
   ≤ Stats.visitedUrls (getSummary (crawl fuel startUrl st).2))%nat.
Proof.
  intros Hc.
  assert (wp (crawl fuel startUrl) (fun _ => consistent) consistent st)
    as H.
  { unfold crawl, emit_fatal. wp_steps. apply wp_try_catch.
    wp_call (crawlLoop_consistent fuel [Item.mk startUrl 0 None] st);
      [done| |].
    - intros [] st1 H1. wp_steps. by destruct H1.
    - intros st1 H1. split; [done|]. intros e _.
      wp_steps; by destruct H1. }
  unfold wp in H.
  assert (consistent (crawl fuel startUrl st).2) as Hc'
    by (by destruct (crawl fuel startUrl st) as [[v|e|] st']).
  split; [done|]. by apply consistent_count.
Qed.

Lemma size_list_to_set_length (l : list string) :
  (size (list_to_set l : gset string) ≤ length l)%nat.
Proof.
  induction l as [|x l IH].
  - done.
  - rewrite list_to_set_cons, size_union_alt, size_singleton. simpl.
    assert (size (list_to_set l ∖ {[x]} : gset string)
            ≤ size (list_to_set l : gset string))%nat
      by (apply subseteq_size; set_solver).
    lia.
Qed.

(** X18. The numbers of [getSummary] against those of the run.  When
    [crawl] returns, [getResults] gives the results returned, [getSummary]
    counts the same pages and failures as the summary of the run, and it
    never counts more domains than pages. *)
Theorem getSummary_after_crawl (fuel : nat) (startUrl : string)
    (st st' : Crawler) (rs : list PageResult) (summary : Summary) :
  crawl fuel startUrl st = (Normal (rs, summary), st') →
  getResults st' = rs ∧
  Stats.totalPages (getSummary st') = totalPages summary ∧
  Stats.failedUrls (getSummary st') = failedPages summary ∧
  (Stats.uniqueDomains (getSummary st')
   ≤ Stats.totalPages (getSummary st'))%nat.
Proof.
  intros E. pose proof (crawl_returns fuel startUrl st) as Hr.
  unfold wp in Hr. rewrite E in Hr. simpl in Hr.
  unfold getResults, getSummary. simpl. split_and!.
  4: { etrans; [apply size_list_to_set_length|]. by rewrite length_map. }
  all: destruct Hr as [Hrs [endTime ->]]; simpl; congruence.
Qed.

(** ** Which pages are asked for *)

Lemma admitted_more o s rs r u :
  admitted o s rs u → admitted o s (rs ++ [r]) u.
Proof.
  intros [->|(x & Hx & Hp)]; [by left|]. right. exists x.
  split; [|done]. apply elem_of_app. by left.
Qed.

Lemma polite_more o s tr0 rs st st' evs :
  polite o s tr0 rs st →
  options st' = options st → results st' = results st →
  trace st' = evs ++ trace st →
  Forall (admitted o s rs) (fetchesOf evs) →
  polite o s tr0 rs st'.
Proof.
  intros [Ho Hr (evs0 & Ht & Hf)] Ho' Hr' Ht' Hf'.
  split; [congruence..|]. exists (evs ++ evs0). split.
  - rewrite Ht', Ht. by rewrite app_assoc.
  - unfold fetchesOf in *. rewrite omap_app. by apply Forall_app.
Qed.

Lemma polite_push o s tr0 rs st st' r :
  polite o s tr0 rs st →
  options st' = options st → results st' = results st ++ [r] →
  trace st' = EvResult r :: trace st →
  polite o s tr0 (rs ++ [r]) st'.
Proof.
  intros [Ho Hr (evs0 & Ht & Hf)] Ho' Hr' Ht'.
  split; [congruence..|]. exists (EvResult r :: evs0). split.
  - by rewrite Ht', Ht.
  - change (fetchesOf (EvResult r :: evs0)) with (fetchesOf evs0).
    eapply Forall_impl; [exact Hf|]. intros u. apply admitted_more.
Qed.

Ltac polite_auto :=
  lazymatch goal with
  | H : polite ?o ?s ?tr0 ?rs ?st |- polite ?o ?s ?tr0 ?rs ?st' =>
      let t := eval simpl in (trace st') in
      lazymatch t with
      | trace st => apply (polite_more o s tr0 rs st st' [] H)
      | ?e :: trace st => apply (polite_more o s tr0 rs st st' [e] H)
      | ?e2 :: ?e1 :: trace st =>
          apply (polite_more o s tr0 rs st st' [e2; e1] H)
      end;
      [done|done|done
      |first [ apply List.Forall_nil
             | apply List.Forall_cons; [assumption|apply List.Forall_nil] ]]
  end.

Lemma checkRobots_polite o s tr0 rs u st :
  polite o s tr0 rs st →
  wp (checkRobots u) (fun _ => polite o s tr0 rs) (polite o s tr0 rs) st.
Proof.
  intros H. unfold checkRobots. wp_steps; polite_auto.
Qed.

Lemma isAllowedByRobots_polite o s tr0 rs u st :
  polite o s tr0 rs st →
  wp (isAllowedByRobots u) (fun _ => polite o s tr0 rs)
     (polite o s tr0 rs) st.
Proof.
  intros H. unfold isAllowedByRobots. apply wp_try_catch.
  wp_call (checkRobots_polite o s tr0 rs); [done|done|].
  intros st' H'. split; [done|]. intros. by wp_steps.
Qed.

Lemma fetchLoop_polite o s tr0 rs fuel u d p t0 retries st :
  admitted o s rs u → polite o s tr0 rs st →
  wp (fetchLoop fuel u d p t0 retries) (fun _ => polite o s tr0 rs)
     (polite o s tr0 rs) st.
Proof.
  intros Hu. revert retries st.
  induction fuel as [|fuel IH]; intros retries st H;
    simpl; wp_steps; try polite_auto.
  apply IH. polite_auto.
Qed.

Lemma crawlPage_polite o s tr0 rs u d p st :
  admitted o s rs u → polite o s tr0 rs st →
  wp (crawlPage u d p) (fun _ => polite o s tr0 rs)
     (polite o s tr0 rs) st.
Proof.
  intros Hu H. unfold crawlPage. wp_steps; try polite_auto.
  - wp_call (isAllowedByRobots_polite o s tr0 rs); [polite_auto| |done].
    intros allowed st' H'. wp_steps; [done|].
    by apply fetchLoop_polite.
  - apply fetchLoop_polite; [done|]. polite_auto.
Qed.

Lemma dispatch_polite o s tr0 rs batch st :
  Forall (fun item => admitted o s rs (Item.url item)) batch →
  polite o s tr0 rs st →
  wp (dispatch batch) (fun _ => polite o s tr0 rs) (polite o s tr0 rs) st.
Proof.
  intros Hb. revert st.
  induction Hb as [|item rest Hi Hrest IH]; intros st H;
    simpl; wp_steps; [done|].
  apply wp_settle. wp_call (crawlPage_polite o s tr0 rs); [done..| |].
  - intros v st' H'. wp_call IH; [done| |done]. intros. by wp_steps.
  - intros st' H'. split; [done|]. intros e _.
    wp_call IH; [done| |done]. intros. by wp_steps.
Qed.

Lemma enqueueNew_polite o s tr0 rs newUrls d parent queue st :
  polite o s tr0 rs st →
  wp (enqueueNew newUrls d parent queue) (fun _ => polite o s tr0 rs)
     (polite o s tr0 rs) st.
Proof.
  revert queue st. induction newUrls as [|u rest IH]; intros queue st H;
    simpl; wp_steps; try done; apply IH; polite_auto.
Qed.

Lemma extractAndFilterUrls_passes o ls baseUrl d urls :
  extractAndFilterUrls o ls baseUrl d = inr urls →
  ∀ u, u ∈ urls → passes o baseUrl u.
Proof.
  unfold extractAndFilterUrls. intros H u Hu.
  destruct (filterUrls o baseUrl ls) as [|kept] eqn:Hk; [done|].
  injection H as <-. rewrite elem_of_set_spread in Hu.
  by destruct (filterUrls_spec _ _ _ _ Hk u Hu).
Qed.

Lemma handleResult_polite o s tr0 item result queue st :
  polite o s tr0 (results st) st →
  Forall (fun x => admitted o s (results st) (Item.url x)) queue →
  wp (handleResult item result queue)
     (fun queue' st' =>
        polite o s tr0 (results st') st' ∧
        Forall (fun x => admitted o s (results st') (Item.url x)) queue')
     (fun st' => polite o s tr0 (results st') st') st.
Proof.
  intros H Hq. unfold handleResult, emit_error.
  destruct result as [[r|]|reason].
  - set (st1 := set_results (fun rs => rs ++ [r])
                  (set_trace (cons (EvResult r)) st)).
    assert (polite o s tr0 (results st1) st1) as H1
      by (by apply (polite_push o s tr0 (results st) st)).
    assert (Forall (fun x => admitted o s (results st1) (Item.url x)) queue)
      as Hq1.
    { eapply Forall_impl; [exact Hq|]. intros x. apply admitted_more. }
    assert (∀ st2, polite o s tr0 (results st1) st2 →
                       polite o s tr0 (results st1)
                              (set_trace (cons (EvEmitPage r)) st2)) as Hemit.
    { intros st2 H2.
      apply (polite_more o s tr0 (results st1) st2 _ [EvEmitPage r] H2);
        done. }
    wp_steps; fold st1.
    + exact H1.
    + destruct (enqueueNew_eq l (Item.depth item + 1) (url r) queue st1)
        as [evs E].
      pose proof (enqueueNew_polite o s tr0 (results st1) l
                    (Item.depth item + 1) (url r) queue st1 H1) as Hp.
      unfold wp in Hp. rewrite E in Hp. unfold wp at 1. rewrite E.
      wp_steps. split; [by apply Hemit|].
      apply Forall_app. split; [exact Hq1|].
      apply Forall_forall. intros x (u & -> & Hu)%list_elem_of_fmap.
      apply list_elem_of_filter in Hu as [_ Hu]. right. exists r. split.
      * apply elem_of_app. right. left.
      * simpl. rewrite <- (polite_options _ _ _ _ _ H).
        by apply (extractAndFilterUrls_passes _ _ _ _ _ Heqs0).
    + split; [by apply Hemit|exact Hq1].
  - wp_steps. by split.
  - wp_steps; [split; [|done]|]; polite_auto.
Qed.

Lemma handleResults_polite o s tr0 batch batchResults queue st :
  polite o s tr0 (results st) st →
  Forall (fun x => admitted o s (results st) (Item.url x)) queue →
  wp (handleResults batch batchResults queue)
     (fun queue' st' =>
        polite o s tr0 (results st') st' ∧
        Forall (fun x => admitted o s (results st') (Item.url x)) queue')
     (fun st' => polite o s tr0 (results st') st') st.
Proof.
  revert batchResults queue st.
  induction batch as [|item batch IH]; intros [|r rs] queue st H Hq; simpl;
    wp_steps; try done.
  wp_call (handleResult_polite o s tr0 item r queue st); [done..| |done].
  intros queue' st' [H' Hq']. by apply IH.
Qed.

Lemma crawlLoop_polite o s tr0 fuel queue st :
  polite o s tr0 (results st) st →
  Forall (fun x => admitted o s (results st) (Item.url x)) queue →
  wp (crawlLoop fuel queue)
     (fun _ st' => polite o s tr0 (results st') st')
     (fun st' => polite o s tr0 (results st') st') st.
Proof.
  revert queue st. induction fuel as [|fuel IH]; intros queue st H Hq;
    simpl; wp_steps; try done.
  set (batch := take (maxConcurrency (options st)) queue).
  pose proof (dispatch_polite o s tr0 (results st) batch st
                (Forall_take _ _ _ Hq) H) as Hd.
  destruct (dispatch_settled batch st) as (rs & st1 & E & _ & _ & _ & Hk).
  unfold wp in Hd. rewrite E in Hd. unfold wp at 1. rewrite E.
  rewrite <- (keeps_results _ _ Hk) in Hd, Hq.
  wp_call (handleResults_polite o s tr0 batch rs
             (drop (maxConcurrency (options st)) queue) st1);
    [done|by apply Forall_drop| |done].
  intros queue' st2 [H2 Hq2]. wp_steps; apply IH; try done.
  polite_auto.
Qed.

(** X25. Which pages are asked for.  Every page that a run requests is
    the start URL or a URL that passes the filter against the final URL of
    a page among the results: in particular its protocol is http or https,
    and unless [followExternalLinks] is set its host name is that of the
    page that linked to it. *)
Theorem crawl_fetches_admitted (fuel : nat) (startUrl : string)
    (st : Crawler) :
  ∃ evs,
    trace (crawl fuel startUrl st).2 = evs ++ trace st ∧
    ∀ u, EvGetPage u ∈ evs →
         u = startUrl ∨
         ∃ r, r ∈ results (crawl fuel startUrl st).2 ∧
              passes (options st) (url r) u ∧
              (url_protocol u = "http:" ∨ url_protocol u = "https:") ∧
              (followExternalLinks (options st) = false →
               url_hostname u = url_hostname (url r)).
Proof.
  assert (wp (crawl fuel startUrl)
             (fun _ st' =>
                polite (options st) startUrl (trace st) (results st') st')
             (fun st' =>
                polite (options st) startUrl (trace st) (results st') st')
             st) as H.
  { unfold crawl, emit_fatal. wp_steps. apply wp_try_catch.
    wp_call (crawlLoop_polite (options st) startUrl (trace st) fuel
               [Item.mk startUrl 0 None] st).
    - split; [done..|]. exists []. split; [done|constructor].
    - repeat constructor.
    - intros [] st1 H1. wp_steps. polite_auto.
    - intros st1 H1. split; [done|]. intros e _. wp_steps; polite_auto. }
  unfold wp in H.
  assert (polite (options st) startUrl (trace st)
            (results (crawl fuel startUrl st).2) (crawl fuel startUrl st).2)
    as [_ _ (evs & Ht & Hf)]
    by (by destruct (crawl fuel startUrl st) as [[v|e|] st']).
  exists evs. split; [done|]. intros u Hu.
  rewrite Forall_forall in Hf.
  destruct (Hf u) as [->|(r & Hr & Hp)]; [|by left|].
  - unfold fetchesOf. apply list_elem_of_omap. by exists (EvGetPage u).
  - right. exists r. split; [done|]. split; [done|].
    by destruct Hp as (? & ? & _).
Qed.

(** ** How long the crawler waits *)

Lemma paced_more o tr0 st st' evs :
  paced o tr0 st →
  options st' = options st → trace st' = evs ++ trace st →
  Forall (scheduled o) (sleepsOf evs) →
  paced o tr0 st'.
Proof.
  intros [Ho (evs0 & Ht & Hs)] Ho' Ht' Hs'.
  split; [congruence|]. exists (evs ++ evs0). split.
  - rewrite Ht', Ht. by rewrite app_assoc.
  - unfold sleepsOf in *. rewrite omap_app. by apply Forall_app.
Qed.

Ltac paced_auto :=
  lazymatch goal with
  | H : paced ?o ?tr0 ?st |- paced ?o ?tr0 ?st' =>
      let t := eval simpl in (trace st') in
      lazymatch t with
      | trace st => apply (paced_more o tr0 st st' [] H)
      | ?e :: trace st => apply (paced_more o tr0 st st' [e] H)
      | ?e2 :: ?e1 :: trace st =>
          apply (paced_more o tr0 st st' [e2; e1] H)
      end;
      [done|done
      |first [ apply List.Forall_nil
             | apply List.Forall_cons; [|apply List.Forall_nil] ]]
  end.

Lemma checkRobots_paced o tr0 u st :
  paced o tr0 st →
  wp (checkRobots u) (fun _ => paced o tr0) (paced o tr0) st.
Proof.
  intros H. unfold checkRobots. wp_steps; paced_auto.
Qed.

Lemma isAllowedByRobots_paced o tr0 u st :
  paced o tr0 st →
  wp (isAllowedByRobots u) (fun _ => paced o tr0) (paced o tr0) st.
Proof.
  intros H. unfold isAllowedByRobots. apply wp_try_catch.
  wp_call (checkRobots_paced o tr0); [done|done|].
  intros st' H'. split; [done|]. intros. by wp_steps.
Qed.

Lemma fetchLoop_paced o tr0 fuel u d p t0 retries st :
  paced o tr0 st →
  wp (fetchLoop fuel u d p t0 retries) (fun _ => paced o tr0)
     (paced o tr0) st.
Proof.
  revert retries st. induction fuel as [|fuel IH]; intros retries st H;
    simpl; wp_steps; try paced_auto.
  apply IH. paced_auto.
  apply Nat.ltb_ge in Heqb0. rewrite (paced_options _ _ _ H) in Heqb0.
  right. exists (S retries). split; [lia|done].
Qed.

Lemma crawlPage_paced o tr0 u d p st :
  paced o tr0 st →
  wp (crawlPage u d p) (fun _ => paced o tr0) (paced o tr0) st.
Proof.
  intros H. unfold crawlPage. wp_steps; try paced_auto.
  - wp_call (isAllowedByRobots_paced o tr0); [paced_auto| |done].
    intros allowed st' H'. wp_steps; [done|].
    by apply fetchLoop_paced.
  - apply fetchLoop_paced. paced_auto.
Qed.

Lemma dispatch_paced o tr0 batch st :
  paced o tr0 st →
  wp (dispatch batch) (fun _ => paced o tr0) (paced o tr0) st.
Proof.
  revert st. induction batch as [|item rest IH]; intros st H;
    simpl; wp_steps; [done|].
  apply wp_settle. wp_call (crawlPage_paced o tr0); [done| |].
  - intros v st' H'. wp_call IH; [done| |done]. intros. by wp_steps.
  - intros st' H'. split; [done|]. intros e _.
    wp_call IH; [done| |done]. intros. by wp_steps.
Qed.

Lemma enqueueNew_paced o tr0 newUrls d parent queue st :
  paced o tr0 st →
  wp (enqueueNew newUrls d parent queue) (fun _ => paced o tr0)
     (paced o tr0) st.
Proof.
  revert queue st. induction newUrls as [|u rest IH]; intros queue st H;
    simpl; wp_steps; try done; apply IH; paced_auto.
Qed.

Lemma handleResult_paced o tr0 item result queue st :
  paced o tr0 st →
  wp (handleResult item result queue) (fun _ => paced o tr0)
     (paced o tr0) st.
Proof.
  intros H. unfold handleResult, emit_error.
  wp_steps; try paced_auto; try done.
  wp_call (enqueueNew_paced o tr0); [paced_auto| |done].
  intros queue' st' H'. wp_steps. paced_auto.
Qed.

Lemma handleResults_paced o tr0 batch batchResults queue st :
  paced o tr0 st →
  wp (handleResults batch batchResults queue) (fun _ => paced o tr0)
     (paced o tr0) st.
Proof.
  revert batchResults queue st.
  induction batch as [|item batch IH]; intros [|r rs] queue st H; simpl;
    wp_steps; try done.
  wp_call (handleResult_paced o tr0); [done| |done].
  intros queue' st' H'. by apply IH.
Qed.

Lemma crawlLoop_paced o tr0 fuel queue st :
  paced o tr0 st →
  wp (crawlLoop fuel queue) (fun _ => paced o tr0) (paced o tr0) st.
Proof.
  revert queue st. induction fuel as [|fuel IH]; intros queue st H;
    simpl; wp_steps; try done.
  wp_call (dispatch_paced o tr0); [done| |done]. intros rs st1 H1.
  wp_call (handleResults_paced o tr0); [done| |done].
  intros queue' st2 H2. wp_steps; apply IH; try done.
  paced_auto. apply andb_true_iff in Heqb0 as [_ Hd].
  apply Nat.ltb_lt in Hd. rewrite (paced_options _ _ _ H) in *.
  by left.
Qed.

(** X27. How long the crawler waits.  Every wait of a run is a scheduled
    one: the [delay] between two batches, taken only when it is not zero,
    or the back-off before a retry, of 1000 * k ms for some k from 1 to
    [maxRetries]. *)
Theorem crawl_waits (fuel : nat) (startUrl : string) (st : Crawler) :
  ∃ evs,
    trace (crawl fuel startUrl st).2 = evs ++ trace st ∧
    ∀ ms, EvSleep ms ∈ evs →
          (ms = delay (options st) ∧ (0 < delay (options st))%nat) ∨
          ∃ k, (1 ≤ k ≤ maxRetries (options st))%nat ∧
               ms = (1000 * k)%nat.
Proof.
  assert (wp (crawl fuel startUrl)
             (fun _ => paced (options st) (trace st))
             (paced (options st) (trace st)) st) as H.
  { unfold crawl, emit_fatal. wp_steps. apply wp_try_catch.
    wp_call (crawlLoop_paced (options st) (trace st) fuel
               [Item.mk startUrl 0 None] st).
    - split; [done|]. exists []. split; [done|constructor].
    - intros [] st1 H1. wp_steps. paced_auto.
    - intros st1 H1. split; [done|]. intros e _. wp_steps; paced_auto. }
  unfold wp in H.
  assert (paced (options st) (trace st) (crawl fuel startUrl st).2)
    as [_ (evs & Ht & Hs)]
    by (by destruct (crawl fuel startUrl st) as [[v|e|] st']).
  exists evs. split; [done|]. intros ms Hms.
  rewrite Forall_forall in Hs. apply (Hs ms).
  unfold sleepsOf. apply list_elem_of_omap. by exists (EvSleep ms).
Qed.

(** ** What the listeners are told *)

Lemma told_refl st : told st st [].
Proof. exists []. simpl. by rewrite app_nil_r. Qed.

Lemma told_more st0 st st' late evs :
  told st0 st late →
  results st' = results st → trace st' = evs ++ trace st →
  pagesOf evs = [] → errorsOf evs = failures evs → completions evs = [] →
  told st0 st' late.
Proof.
  intros (evs0 & Ht & Hr & He & Hc) Hr' Ht' Hp' He' Hc'.
  exists (evs ++ evs0). unfold pagesOf, errorsOf, failures, completions in *.
  rewrite !omap_app, Hp', He', Hc', He, Hc, Ht', Ht, Hr', Hr.
  by rewrite app_assoc.
Qed.

Lemma told_push st0 st st' r :
  told st0 st [] →
  results st' = results st ++ [r] → trace st' = EvResult r :: trace st →
  told st0 st' [r].
Proof.
  intros (evs0 & Ht & Hr & He & Hc) Hr' Ht'.
  exists (EvResult r :: evs0). rewrite Ht', Ht, Hr', Hr.
  split_and!; try done. by rewrite app_nil_r, <- app_assoc.
Qed.

Lemma told_page st0 st st' r :
  told st0 st [r] →
  results st' = results st → trace st' = EvEmitPage r :: trace st →
  told st0 st' [].
Proof.
  intros (evs0 & Ht & Hr & He & Hc) Hr' Ht'.
  exists (EvEmitPage r :: evs0). rewrite Ht', Ht, Hr', Hr.
  split_and!; try done.
  change (pagesOf (EvEmitPage r :: evs0)) with (r :: pagesOf evs0).
  simpl. by rewrite app_nil_r.
Qed.

Lemma told_failure st0 st st' u cause :
  told st0 st [] →
  results st' = results st →
  trace st' = EvEmitError u cause :: EvFailed u :: trace st →
  told st0 st' [].
Proof.
  intros (evs0 & Ht & Hr & He & Hc) Hr' Ht'.
  exists (EvEmitError u cause :: EvFailed u :: evs0).
  rewrite Ht', Ht, Hr', Hr. split_and!; try done.
  change (errorsOf (EvEmitError u cause :: EvFailed u :: evs0))
    with (u :: errorsOf evs0).
  change (failures (EvEmitError u cause :: EvFailed u :: evs0))
    with (u :: failures evs0).
  by rewrite He.
Qed.

Ltac told_auto :=
  lazymatch goal with
  | H : told ?s0 ?st ?late |- told ?s0 ?st' ?late =>
      let t := eval simpl in (trace st') in
      lazymatch t with
      | trace st => apply (told_more s0 st st' late [] H)
      | ?e :: trace st => apply (told_more s0 st st' late [e] H)
      | ?e2 :: ?e1 :: trace st =>
          apply (told_more s0 st st' late [e2; e1] H)
      end; done
  end.

Lemma checkRobots_told st0 late u st :
  told st0 st late →
  wp (checkRobots u) (fun _ st' => told st0 st' late)
     (fun st' => told st0 st' late) st.
Proof. intros H. unfold checkRobots. wp_steps; told_auto. Qed.

Lemma isAllowedByRobots_told st0 late u st :
  told st0 st late →
  wp (isAllowedByRobots u) (fun _ st' => told st0 st' late)
     (fun st' => told st0 st' late) st.
Proof.
  intros H. unfold isAllowedByRobots. apply wp_try_catch.
  wp_call (checkRobots_told st0 late); [done|done|].
  intros st' H'. split; [done|]. intros. by wp_steps.
Qed.

Lemma fetchLoop_told st0 late fuel u d p t0 retries st :
  told st0 st late →
  wp (fetchLoop fuel u d p t0 retries) (fun _ st' => told st0 st' late)
     (fun st' => told st0 st' late) st.
Proof.
  revert retries st. induction fuel as [|fuel IH]; intros retries st H;
    simpl; wp_steps; try told_auto.
  apply IH. told_auto.
Qed.

Lemma crawlPage_told st0 late u d p st :
  told st0 st late →
  wp (crawlPage u d p) (fun _ st' => told st0 st' late)
     (fun st' => told st0 st' late) st.
Proof.
  intros H. unfold crawlPage. wp_steps; try told_auto.
  - wp_call (isAllowedByRobots_told st0 late); [told_auto| |done].
    intros allowed st' H'. wp_steps; [done|].
    by apply fetchLoop_told.
  - apply fetchLoop_told. told_auto.
Qed.

Lemma dispatch_told st0 late batch st :
  told st0 st late →
  wp (dispatch batch) (fun _ st' => told st0 st' late)
     (fun st' => told st0 st' late) st.
Proof.
  revert st. induction batch as [|item rest IH]; intros st H;
    simpl; wp_steps; [done|].
  apply wp_settle. wp_call (crawlPage_told st0 late); [done| |].
  - intros v st' H'. wp_call IH; [done| |done]. intros. by wp_steps.
  - intros st' H'. split; [done|]. intros e _.
    wp_call IH; [done| |done]. intros. by wp_steps.
Qed.

Lemma enqueueNew_told st0 late newUrls d parent queue st :
  told st0 st late →
  wp (enqueueNew newUrls d parent queue) (fun _ st' => told st0 st' late)
     (fun st' => told st0 st' late) st.
Proof.
  revert queue st. induction newUrls as [|u rest IH]; intros queue st H;
    simpl; wp_steps; try done; apply IH; told_auto.
Qed.

Lemma handleResult_told st0 item result queue st :
  told st0 st [] →
  wp (handleResult item result queue) (fun _ st' => told st0 st' [])
     (fun st' => ∃ late, told st0 st' late ∧ (length late ≤ 1)%nat) st.
Proof.
  intros H. unfold handleResult, emit_error.
  destruct result as [[r|]|reason]; wp_steps; try done.
  - exists [r]. split; [|done]. by apply (told_push st0 st).
  - set (st1 := set_results _ _).
    assert (told st0 st1 [r]) as H1 by (by apply (told_push st0 st)).
    clearbody st1.
    wp_call (enqueueNew_told st0 [r]); [done| |].
    + intros queue' st2 H2. wp_steps. by apply (told_page st0 st2 _ r).
    + intros st2 H2. by exists [r].
  - apply (told_page st0
             (set_results (fun rs => rs ++ [r])
                (set_trace (cons (EvResult r)) st)) _ r); [|done..].
    by apply (told_push st0 st).
  - by apply (told_failure st0 st _ (Item.url item) reason).
  - exists []. split; [|simpl; lia].
    by apply (told_failure st0 st _ (Item.url item) reason).
Qed.

Lemma handleResults_told st0 batch batchResults queue st :
  told st0 st [] →
  wp (handleResults batch batchResults queue)
     (fun _ st' => told st0 st' [])
     (fun st' => ∃ late, told st0 st' late ∧ (length late ≤ 1)%nat) st.
Proof.
  revert batchResults queue st.
  induction batch as [|item batch IH]; intros [|r rs] queue st H; simpl;
    wp_steps; try done.
  wp_call (handleResult_told st0); [done| |done].
  intros queue' st' H'. by apply IH.
Qed.

Lemma crawlLoop_told st0 fuel queue st :
  told st0 st [] →
  wp (crawlLoop fuel queue) (fun _ st' => told st0 st' [])
     (fun st' => ∃ late, told st0 st' late ∧ (length late ≤ 1)%nat) st.
Proof.
  revert queue st. induction fuel as [|fuel IH]; intros queue st H;
    simpl; wp_steps; try done.
  - exists []. split; [done|simpl; lia].
  - wp_call (dispatch_told st0 []); [done| |].
    + intros rs st1 H1. wp_call (handleResults_told st0); [done| |done].
      intros queue' st2 H2. wp_steps; apply IH; try done. told_auto.
    + intros st1 H1. exists []. split; [done|simpl; lia].
Qed.

(** X24. What the listeners are told.  When [crawl] returns, the run has
    emitted one 'page' event for each result it has added, in the order
    of the results, one 'error' event for each URL it has added to the
    failed set, and then one 'complete' event, its last event, with the
    number of results.  When the run does not return, no 'complete' event
    is emitted, and at most the last result added has gone without its
    'page' event. *)
Theorem crawl_announces (fuel : nat) (startUrl : string) (st : Crawler) :
  wp (crawl fuel startUrl)
     (fun _ st' =>
        ∃ evs,
          trace st' = EvEmitComplete (length (results st')) :: evs
                      ++ trace st ∧
          results st' = results st ++ rev (pagesOf evs) ∧
          errorsOf evs = failures evs ∧
          completions evs = [])
     (fun st' =>
        ∃ evs late,
          trace st' = evs ++ trace st ∧
          results st' = results st ++ rev (pagesOf evs) ++ late ∧
          (length late ≤ 1)%nat ∧
          errorsOf evs = failures evs ∧
          completions evs = [])
     st.
Proof.
  unfold crawl, emit_fatal. wp_steps. apply wp_try_catch.
  wp_call (crawlLoop_told st fuel [Item.mk startUrl 0 None] st);
    [apply told_refl| |].
  - intros [] st1 (evs & Ht & Hr & He & Hc). wp_steps. simpl.
    exists evs. rewrite Ht, Hr. by rewrite app_nil_r.
  - intros st1 (late & (evs & Ht & Hr & He & Hc) & Hl).
    split; [by exists evs, late|]. intros e _.
    wp_steps; simpl; exists (EvEmitFatal e :: evs), late;
      by rewrite Ht, Hr.
Qed.

(** ** The program of [src/app.js] *)

Lemma crawl_depths fuel startUrl st :
  Forall (fun r => (depth r ≤ maxDepth (options st))%nat) (results st) →
  Forall (fun r => (depth r ≤ maxDepth (options st))%nat)
         (results (crawl fuel startUrl st).2).
Proof.
  intros H0. destruct (crawl_History fuel startUrl st) as [evs H].
  rewrite (History_results _ _ _ H). apply Forall_app. split; [done|].
  apply Forall_rev, Forall_forall. intros r Hr.
  apply elem_of_pushedResults, list_elem_of_split in Hr as (l1 & l2 & ->).
  destruct (History_inv _ _ _ _ _ H) as (st2 & H2 & Hg). simpl in Hg.
  by rewrite (History_options _ _ _ H2) in Hg.
Qed.

(** X19. The program of app.js.  Once the class is loaded, whatever the
    network answers, [runCrawler] builds its crawler and ends in the [try]
    block: [crawl]
    returns, with at most 14 results (the 10 of [maxPages], less one, plus
    a batch of 5), all of depth 0 or 1, and a summary that counts them;
    the [catch] block is never entered. *)
Theorem runCrawler_returns (w : World) :
  ∃ fuel rs summary st',
    (∀ fuel', (fuel ≤ fuel')%nat →
              runCrawler fuel' w
              = inr (Normal (App.Returned rs summary), st')) ∧
    (length rs ≤ 14)%nat ∧
    Forall (fun r => (depth r ≤ 1)%nat) rs ∧
    totalPages summary = length rs.
Proof.
  unfold runCrawler.
  destruct (WebCrawler App.options w) as [e|crawler] eqn:Ec;
    [by vm_compute in Ec|].
  assert (ready (on_error crawler)) as Hst.
  { apply (WebCrawler_ready _ _ _ Ec). intros pattern u Hp.
    by apply elem_of_nil in Hp. }
  assert (crawler = fresh (mergeOptions App.options) w) as Hc
    by (unfold WebCrawler in Ec; simpl in Ec; congruence).
  set (st := on_error crawler) in *.
  set (seed := [Item.mk App.startUrl 0 None]).
  destruct (crawlLoop_terminates seed st Hst) as (fuel & st1 & E).
  exists fuel, (results st1),
    (summarize st1 (date_now (world st)) (date_now (world st1))),
    (set_trace (cons (EvEmitComplete (length (results st1)))) st1).
  assert (∀ fuel', (fuel ≤ fuel')%nat →
            crawl fuel' App.startUrl st
            = (Normal (results st1,
                       summarize st1 (date_now (world st))
                                 (date_now (world st1))),
               set_trace (cons (EvEmitComplete (length (results st1))))
                         st1)) as Hrun.
  { intros fuel' Hf.
    pose proof (crawlLoop_fuel_mono fuel fuel' seed st) as Hm.
    rewrite E in Hm. specialize (Hm ltac:(done) Hf).
    unfold crawl, bind at 1, now at 1, try_catch.
    unfold bind at 1. fold seed. rewrite Hm.
    by unfold bind, now, get, log, modify, ret. }
  split_and!.
  - intros fuel' Hf. unfold try_catch, bind. by rewrite (Hrun fuel' Hf).
  - pose proof (crawl_page_bound_from fuel App.startUrl st 14) as Hb.
    rewrite (Hrun fuel) in Hb by done. apply Hb; subst st crawler; simpl; lia.
  - pose proof (crawl_depths fuel App.startUrl st) as Hd.
    rewrite (Hrun fuel) in Hd by done.
    assert (maxDepth (options st) = 1%nat) as Hmax
      by (by subst st crawler).
    rewrite Hmax in Hd. apply Hd. subst st crawler. simpl. constructor.
  - done.
Qed.

(** ** Strings *)

(** Each white space on its own trims to the empty string. *)
Lemma trim_whiteSpace w : w ∈ whiteSpace → trim w = "".
Proof.
  unfold whiteSpace. simpl. intros H.
  repeat (apply elem_of_cons in H as [->|H]; [by vm_compute|]).
  by apply elem_of_nil in H.
Qed.

(** A no-break space, a space, [Home], a line separator and a line feed;
    inner white space stays. *)
Example trim_unicode :
  trim (utf8 [194; 160; 32; 72; 111; 109; 101; 226; 128; 168; 10]) = "Home" ∧
  trim (utf8 [97; 194; 160; 98; 239; 187; 191])
  = utf8 [97; 194; 160; 98].
Proof. by vm_compute. Qed.

(** [length] counts code units: one for a no-break space, two for a code
    point outside the basic plane (here U+1F600). *)
Example js_length_units :
  js_length "title" = 5%nat ∧ js_length (utf8 [194; 160]) = 1%nat ∧
  js_length (utf8 [226; 128; 168]) = 1%nat ∧
  js_length (utf8 [240; 159; 152; 128]) = 2%nat.
Proof. by vm_compute. Qed.

(** ** The extractors *)

Lemma foldl_omap {A B} (f : A → option B) (l : list A) (acc : list B) :
  foldl (fun acc x => match f x with Some y => acc ++ [y] | None => acc end)
        acc l
  = acc ++ omap f l.
Proof.
  revert acc. induction l as [|x l IH]; intros acc; simpl.
  - by rewrite app_nil_r.
  - rewrite IH. destruct (f x); [|done]. by rewrite <- app_assoc.
Qed.

Lemma foldl_agree {A B} (f g : B → A → B) (l : list A) (acc : B) :
  (∀ b x, f b x = g b x) → foldl f acc l = foldl g acc l.
Proof.
  intros H. revert acc. induction l as [|x l IH]; intros acc; simpl;
    [done|]. by rewrite H, IH.
Qed.

Lemma extractLinks_omap doc baseUrl :
  extractLinks doc baseUrl
  = omap (linkOf baseUrl) (select_with_attr "a" "href" doc).
Proof.
  unfold extractLinks. rewrite <- (app_nil_l (omap _ _)), <- foldl_omap.
  apply foldl_agree. intros links el. unfold linkOf.
  destruct (attr "href" el) as [[|c r]|]; try done.
  by destruct (url_resolve _ _).
Qed.

Lemma extractImages_omap doc baseUrl :
  extractImages doc baseUrl
  = omap (imageOf baseUrl) (select_with_attr "img" "src" doc).
Proof.
  unfold extractImages. rewrite <- (app_nil_l (omap _ _)), <- foldl_omap.
  apply foldl_agree. intros images el. unfold imageOf.
  destruct (attr "src" el) as [[|c r]|]; try done.
  by destruct (url_resolve _ _).
Qed.

Lemma length_omap_le {A B} (f : A → option B) (l : list A) :
  (length (omap f l) ≤ length l)%nat.
Proof.
  induction l as [|x l IH]; [done|].
  change (omap f (x :: l))
    with (match f x with Some y => y :: omap f l | None => omap f l end).
  destruct (f x); simpl; lia.
Qed.

Lemma elem_of_select_with_attr tag a doc el :
  el ∈ select_with_attr tag a doc
  ↔ el ∈ doc ∧ tagName el = tag ∧ is_Some (attr a el).
Proof. unfold select_with_attr. rewrite list_elem_of_filter. tauto. Qed.

(** X20. What [extractLinks] keeps.  The links come in document order, at
    most one for each anchor, and a link is in the list exactly when some
    anchor of the document has a non-empty [href] that resolves against
    the base to the URL of the link, the link carrying the trimmed text
    of the anchor and its [title] attribute or else the empty string. *)
Theorem extractLinks_spec (doc : list Element) (baseUrl : string) :
  extractLinks doc baseUrl
  = omap (linkOf baseUrl) (select_with_attr "a" "href" doc) ∧
  (length (extractLinks doc baseUrl) ≤ length (select_tag "a" doc))%nat ∧
  ∀ link,
    link ∈ extractLinks doc baseUrl ↔
    ∃ el href,
      el ∈ doc ∧ tagName el = "a" ∧ attr "href" el = Some href ∧
      href ≠ "" ∧ url_resolve href baseUrl = Some (Link.url link) ∧
      Link.text link = trim (textContent el) ∧
      Link.title link = js_or (attr "title" el) "".
Proof.
  split_and!; [apply extractLinks_omap| |].
  - rewrite extractLinks_omap. etrans; [apply length_omap_le|].
    unfold select_with_attr, select_tag.
    induction doc as [|el doc IH]; [done|].
    rewrite !filter_cons.
    destruct (decide (tagName el = "a")) as [Ht|Ht].
    + destruct (decide (tagName el = "a" ∧ is_Some (attr "href" el)));
        simpl; lia.
    + rewrite decide_False by tauto. done.
  - intros link. rewrite extractLinks_omap, list_elem_of_omap. split.
    + intros (el & Hel & Hl). apply elem_of_select_with_attr in Hel
        as (Hd & Ht & _).
      unfold linkOf in Hl.
      destruct (attr "href" el) as [[|c r]|] eqn:Hh; try done.
      destruct (url_resolve _ _) as [absoluteUrl|] eqn:Hr; [|done].
      injection Hl as <-. by exists el, (String c r).
    + intros (el & href & Hd & Ht & Hh & Hne & Hr & Htext & Htitle).
      exists el. split.
      * apply elem_of_select_with_attr. by rewrite Hh.
      * unfold linkOf. rewrite Hh. destruct href as [|c r]; [done|].
        rewrite Hr. destruct link as [lu lt ltitle]. simpl in *.
        by rewrite Htext, Htitle.
Qed.

(** X21. What [extractImages] keeps.  The images come in document order
    and an image is in the list exactly when some [img] element of the
    document has a non-empty [src] that resolves against the base to the
    URL of the image, the record carrying the [alt], [title], [width] and
    [height] attributes of the element, each the empty string when
    absent. *)
Theorem extractImages_spec (doc : list Element) (baseUrl : string) :
  extractImages doc baseUrl
  = omap (imageOf baseUrl) (select_with_attr "img" "src" doc) ∧
  ∀ image,
    image ∈ extractImages doc baseUrl ↔
    ∃ el src,
      el ∈ doc ∧ tagName el = "img" ∧ attr "src" el = Some src ∧
      src ≠ "" ∧ url_resolve src baseUrl = Some (Image.url image) ∧
      Image.alt image = js_or (attr "alt" el) "" ∧
      Image.title image = js_or (attr "title" el) "" ∧
      Image.width image = js_or (attr "width" el) "" ∧
      Image.height image = js_or (attr "height" el) "".
Proof.
  split; [apply extractImages_omap|].
  intros image. rewrite extractImages_omap, list_elem_of_omap. split.
  - intros (el & Hel & Hl). apply elem_of_select_with_attr in Hel
      as (Hd & Ht & _).
    unfold imageOf in Hl.
    destruct (attr "src" el) as [[|c r]|] eqn:Hh; try done.
    destruct (url_resolve _ _) as [absoluteUrl|] eqn:Hr; [|done].
    injection Hl as <-. by exists el, (String c r).
  - intros (el & src & Hd & Ht & Hh & Hne & Hr & Ha & Hti & Hw & Hhe).
    exists el. split.
    + apply elem_of_select_with_attr. by rewrite Hh.
    + unfold imageOf. rewrite Hh. destruct src as [|c r]; [done|].
      rewrite Hr. destruct image as [iu ia it iw ih]. simpl in *.
      by rewrite Ha, Hti, Hw, Hhe.
Qed.

(** X22. What [extractHeadings] keeps.  A key of the headings object is
    one of h1 to h6, and its list holds, in document order, the trimmed
    texts of the elements of that tag, the empty ones left out: a text is
    in the list exactly when it is not empty and is the trimmed text of
    such an element. *)
Theorem extractHeadings_spec (doc : list Element) (tag : string)
    (texts : list string) :
  extractHeadings doc !! tag = Some texts →
  tag ∈ headingTags ∧
  texts = filter (fun t => t ≠ "")
                 (map (fun el => trim (textContent el))
                      (select_tag tag doc)) ∧
  ∀ t, t ∈ texts ↔
       t ≠ "" ∧
       ∃ el, el ∈ doc ∧ tagName el = tag ∧ t = trim (textContent el).
Proof.
  intros Hl.
  assert (tag ∈ headingTags) as Ht.
  { destruct (decide (tag ∈ headingTags)) as [|Hn]; [done|]. exfalso.
    unfold extractHeadings, headingTags in *. simpl in Hl.
    rewrite !lookup_insert_ne in Hl by (intros <-; apply Hn; set_solver).
    by rewrite lookup_empty in Hl. }
  rewrite (extractHeadings_lookup _ _ Ht) in Hl. injection Hl as <-.
  split_and!; [done..|].
  intros t. unfold headingTexts, select_tag.
  rewrite list_elem_of_filter, list_elem_of_fmap.
  split.
  - intros (Hne & el & -> & Hel%list_elem_of_filter). split; [done|].
    exists el. by destruct Hel.
  - intros (Hne & el & Hd & Htag & ->). split; [done|].
    exists el. split; [done|]. by apply list_elem_of_filter.
Qed.

(** ** The constructor *)

(** X23. The constructor.  [new WebCrawler(options)] throws exactly when
    [maxConcurrency] is given as 0: the value given is written over the
    default and [pLimit] refuses it.  Otherwise the instance starts with
    nothing visited, nothing failed, no result and an empty robots cache
    (so it is consistent), and an option that is given keeps its value
    even when that is falsy:
    a [maxDepth], [maxRetries] or [delay] of 0 and a [respectRobotsTxt]
    of false are not replaced by the defaults. *)
Theorem WebCrawler_constructs (o : UserOptions.t) (w : World) :
  ((∃ e, WebCrawler o w = inl e) ↔ UserOptions.maxConcurrency o = Some 0%nat) ∧
  ∀ c, WebCrawler o w = inr c →
       visitedUrls c = ∅ ∧ failedUrls c = ∅ ∧ results c = [] ∧
       robotsCache c = ∅ ∧ consistent c ∧
       (∀ v, UserOptions.maxDepth o = Some v → maxDepth (options c) = v) ∧
       (∀ v, UserOptions.maxRetries o = Some v →
             maxRetries (options c) = v) ∧
       (∀ v, UserOptions.delay o = Some v → delay (options c) = v) ∧
       (∀ v, UserOptions.respectRobotsTxt o = Some v →
             respectRobotsTxt (options c) = v).
Proof.
  unfold WebCrawler. split.
  - destruct o as [? ? [[|n]|] ? ? ? ? ? ? ? ? ?]; simpl; split;
      try done; try (by intros [e [=]]); by eexists.
  - intros c Hc. destruct (Nat.ltb _ _); [done|]. injection Hc as <-.
    simpl. split_and!; try done.
    + split; simpl; try done; try constructor;
        by intros r Hr; apply elem_of_nil in Hr.
    + by intros v ->.
    + by intros v ->.
    + by intros v ->.
    + by intros v ->.
Qed.

End Reasoning.

(** * Runs on the small web *)

(** * Runs on the slow web *)

Section SlowRuns.
#[local] Existing Instance Slow.platform.

Lemma crawlPage_skips_non_html_witness :
  let u := "https://slow.test/paper.pdf" in
  let st := Slow.instance 5000 in
  let response := {| status := 200; content_type := Some "application/pdf";
                     data := "%PDF-1.7"; responseUrl := None |} in
  (u ∉ visitedUrls st) ∧ robots_allow u st ∧
  (axios_get u (world (atFetch u st))).1 = inr response ∧
  includes "text/html" (js_or (content_type response) "") = false ∧
  ∃ st' evs,
    crawlPage u 0 None st = (Normal None, st') ∧
    trace st' = evs ++ trace st ∧
    fetchesOf evs = [u] ∧ sleepsOf evs = [] ∧
    u ∈ visitedUrls st' ∧
    results st' = results st ∧ failedUrls st' = failedUrls st.
Proof.
  intros u st response.
  assert (u ∉ visitedUrls st) as H1 by (vm_compute; set_solver).
  assert (robots_allow u st) as H2 by (intros _; vm_compute; reflexivity).
  assert ((axios_get u (world (atFetch u st))).1 = inr response) as H3
    by (vm_compute; reflexivity).
  assert (includes "text/html" (js_or (content_type response) "") = false)
    as H4 by (vm_compute; reflexivity).
  split_and!; [exact H1|exact H2|exact H3|exact H4|].
  exact (crawlPage_skips_non_html u 0 None st response H1 H2 H3 H4).
Defined.

Lemma crawlPage_retries_then_succeeds_witness :
  let u := "https://slow.test/" in
  let st := Slow.instance 0 in
  let response := {| status := 200;
                     content_type := Some "text/html; charset=utf-8";
                     data := "slow"; responseUrl := None |} in
  (u ∉ visitedUrls st) ∧ robots_allow u st ∧
  (2 ≤ maxRetries (options st))%nat ∧
  (∀ j, (j < 2)%nat →
        ∃ e, (axios_get u (retryWorld u 0 j (world (atFetch u st)))).1
             = inl e) ∧
  (axios_get u (retryWorld u 0 2 (world (atFetch u st)))).1 = inr response ∧
  includes "text/html" (js_or (content_type response) "") = true ∧
  ∃ r st' evs,
    crawlPage u 0 None st = (Normal (Some r), st') ∧
    fetchesOf (rev evs) = [u; u; u] ∧
    sleepsOf (rev evs) = [1000; 2000]%nat ∧
    statusCode r = 200%nat ∧
    crawlTime r = 3600%Z.
Proof.
  intros u st response.
  assert (u ∉ visitedUrls st) as H1 by (vm_compute; set_solver).
  assert (robots_allow u st) as H2 by (intros _; vm_compute; reflexivity).
  assert (2 ≤ maxRetries (options st))%nat as H3 by (vm_compute; lia).
  assert (∀ j, (j < 2)%nat →
            ∃ e, (axios_get u (retryWorld u 0 j (world (atFetch u st)))).1
                 = inl e) as H4.
  { intros [|[|j]] Hj; [| |lia];
      exists (HttpError "connect ECONNREFUSED"); vm_compute; reflexivity. }
  assert ((axios_get u (retryWorld u 0 2 (world (atFetch u st)))).1
          = inr response) as H5 by (vm_compute; reflexivity).
  assert (includes "text/html" (js_or (content_type response) "") = true)
    as H6 by (vm_compute; reflexivity).
  split_and!; [exact H1|exact H2|exact H3|exact H4|exact H5|exact H6|].
  destruct (crawlPage_retries_then_succeeds u 0 None st 2 response
              H1 H2 H3 H4 H5 H6)
    as (r & st' & evs & E & _ & _ & Hf & Hs & Hc & Ht).
  exists r, st', evs.
  split; [exact E|].
  split; [exact Hf|].
  split; [exact Hs|].
  split; [exact Hc|].
  rewrite Ht. vm_compute. reflexivity.
Defined.

Lemma crawlPage_fallbacks_witness :
  let u := "https://slow.test/blank" in
  let st := Slow.instance 5000 in
  ∃ page st',
    crawlPage u 0 None st = (Normal (Some page), st') ∧
    title page = "No title" ∧ headings page !! "h1" = Some [] ∧
    map Link.text (links page) = ["next"] ∧
    ∃ k response,
      (axios_get u (retryWorld u 0 k (world (atFetch u st)))).1
      = inr response ∧
      data response = "blank" ∧
      trim (text (select_tag "title" (cheerio_load (data response)))) = "" ∧
      select_meta "description" (cheerio_load (data response)) = [] ∧
      description page = "".
Proof.
  intros u st.
  assert (match (crawlPage u 0 None st).1 with
          | Normal (Some page) =>
              headings page !! "h1" = Some [] ∧
              map Link.text (links page) = ["next"]
          | _ => False
          end) as H by (vm_compute; by split_and!).
  revert H.
  destruct (crawlPage u 0 None st) as [[[page|]|e|] st'] eqn:E; simpl;
    [|contradiction..].
  intros (H1 & H2).
  destruct (crawlPage_fallbacks _ _ _ _ _ _ E)
    as (k & response & Hk & Hfail & Hok & _ & _ & Htrim & Hdesc & _).
  assert (k = 0%nat) as ->.
  { destruct k as [|k]; [reflexivity|]. exfalso.
    destruct (Hfail 0%nat) as [e He]; [lia|]. vm_compute in He.
    discriminate He. }
  assert (data response = "blank") as Hdata
    by (vm_compute in Hok; injection Hok as <-; reflexivity).
  assert (trim (text (select_tag "title" (cheerio_load (data response))))
          = "") as Ht by (rewrite Hdata; vm_compute; reflexivity).
  assert (select_meta "description" (cheerio_load (data response)) = [])
    as Hd by (rewrite Hdata; vm_compute; reflexivity).
  exists page, st'.
  split; [reflexivity|].
  split; [exact (Htrim Ht)|].
  split; [exact H1|].
  split; [exact H2|].
  exists 0%nat, response.
  split; [exact Hok|].
  split; [exact Hdata|].
  split; [exact Ht|].
  split; [exact Hd|exact (Hdesc Hd)].
Defined.

End SlowRuns.

#[local] Existing Instance Toy.platform.

(** C1. The page limit is overrun.  With [maxPages] set to 2 and the
    default concurrency of 5, a run from [https://site.test/] fetches the
    seed, then dispatches its three links as one batch, and returns four
    results: the limit is tested only between batches.  (The loop then
    stops although the queue still holds items.) *)
Theorem crawl_exceeds_maxPages :
  let st := Toy.instance Toy.maxPages2 1 in
  WebCrawler Toy.maxPages2 0%Z = inr (Toy.instance Toy.maxPages2 0) ∧
  maxPages (options st) = 2%nat ∧
  maxConcurrency (options st) = 5%nat ∧
  match (crawl 10 "https://site.test/" st).1 with
  | Normal (rs, summary) =>
      map url rs = ["https://site.test/"; "https://site.test/a";
                    "https://site.test/b"; "https://site.test/c"] ∧
      totalPages summary = 4%nat
  | _ => False
  end ∧
  length (results (crawl 10 "https://site.test/" st).2) = 4%nat.
Proof. split; [reflexivity|]. vm_compute. by split_and!. Qed.

(** C7. A page failure aborts the run when nobody listens for 'error'.
    On an instance without an 'error' listener, a run from
    [https://shop.test/], whose page [/dead] never answers, ends with
    [crawl] throwing the error that [emit] raises for the unhandled event;
    the failed URL is in [failedUrls] by then.  With one listener attached
    the same run returns its two results and a summary with one failed
    page. *)
Theorem crawl_throws_without_error_listener :
  let bare := crawl 10 "https://shop.test/"
                (Toy.instance UserOptions.empty 0) in
  let heard := crawl 10 "https://shop.test/"
                 (Toy.instance UserOptions.empty 1) in
  WebCrawler UserOptions.empty 0%Z
  = inr (Toy.instance UserOptions.empty 0) ∧
  bare.1 = Throw (UnhandledError "https://shop.test/dead"
                    (HttpError "Request failed with status code 404")) ∧
  elements (failedUrls bare.2) = ["https://shop.test/dead"] ∧
  match heard.1 with
  | Normal (rs, summary) =>
      map url rs = ["https://shop.test/"; "https://shop.test/ok"] ∧
      failedPages summary = 1%nat
  | _ => False
  end.
Proof. split; [reflexivity|]. vm_compute. by split_and!. Qed.

Lemma crawlPage_retries_then_throws_witness :
  let u := "https://down.test/" in
  let st := Toy.instance UserOptions.empty 0 in
  (u ∉ visitedUrls st) ∧ always_fails u ∧ robots_allow u st ∧
  ∃ e st' evs,
    crawlPage u 0 None st = (Throw e, st') ∧
    trace st' = evs ++ trace st ∧
    filter (fun e => is_retry_event e = true) (rev evs)
      = attempts u 0 (maxRetries (options st)) ∧
    fetchesOf (rev evs) = replicate (maxRetries (options st) + 1) u ∧
    sleepsOf (rev evs)
      = map (fun k => 1000 * k)%nat (seq 1 (maxRetries (options st))).
Proof.
  intros u st.
  assert (u ∉ visitedUrls st) as H1 by (vm_compute; set_solver).
  assert (always_fails u) as H2
    by (intros w; exists (HttpError "connect ECONNREFUSED"); reflexivity).
  assert (robots_allow u st) as H3 by (intros _; vm_compute; reflexivity).
  split_and!; [exact H1|exact H2|exact H3|].
  exact (crawlPage_retries_then_throws u 0 None st H1 H2 H3).
Defined.

Lemma crawl_depth_bound_witness :
  let st := Toy.instance Toy.appOptions 1 in
  Forall (fun r => (depth r ≤ maxDepth (options st))%nat) (results st) ∧
  Forall (fun r => (depth r ≤ 1)%nat)
         (results (crawl 10 "https://site.test/" st).2).
Proof.
  intros st.
  assert (Forall (fun r => (depth r ≤ maxDepth (options st))%nat)
                 (results st)) as H by constructor.
  split; [exact H|].
  exact (proj1 (crawl_depth_bound 10 "https://site.test/" st H)).
Defined.

Lemma visited_exactly_once_witness :
  let st := Toy.instance UserOptions.empty 1 in
  let st' := (crawl 10 "https://site.test/" st).2 in
  "https://site.test/d" ∈ visitedUrls st' ∧
  crawlPage "https://site.test/d" 2 None st'
  = (Normal None, set_trace (cons (EvSkip "https://site.test/d")) st').
Proof.
  intros st st'.
  assert ("https://site.test/d" ∈ visitedUrls st') as H
    by (vm_compute; set_solver).
  split; [exact H|].
  exact (proj1 (proj2 (visited_exactly_once 10 "https://site.test/" st))
           "https://site.test/d" 2%nat None st' H).
Defined.

Lemma extractAndFilterUrls_sound_witness :
  let o := mergeOptions
             (UserOptions.mk None None None None None None None None None
                (Some ["/admin"]) None None) in
  let ls := [Link.mk "https://a.com/admin/x" "" "";
             Link.mk "https://b.com/" "" "";
             Link.mk "https://a.com/ok" "" "";
             Link.mk "mailto:me@a.com" "" "";
             Link.mk "https://a.com/ok" "" ""] in
  extractAndFilterUrls o ls "https://a.com/" 1 = inr ["https://a.com/ok"] ∧
  NoDup ["https://a.com/ok"].
Proof.
  intros o ls.
  assert (extractAndFilterUrls o ls "https://a.com/" 1
          = inr ["https://a.com/ok"]) as H by (vm_compute; reflexivity).
  split; [exact H|].
  exact (proj1 (extractAndFilterUrls_sound o ls "https://a.com/" 1 _ H)).
Defined.

Lemma isAllowedByRobots_never_raises_witness :
  let u := "https://site.test/" in
  let st := Toy.instance UserOptions.empty 0 in
  robots_unavailable u st ∧
  ∃ allowed,
    (isAllowedByRobots u st).1 = Normal allowed ∧
    (robots_unavailable u st →
     allowed = true ∧
     robotsCache (isAllowedByRobots u st).2 !! robotsUrlOf u = Some None) ∧
    (∀ e, (checkRobots u st).1 = Throw e → allowed = true).
Proof.
  intros u st. split.
  - split; [vm_compute; reflexivity|]. intros response. vm_compute.
    discriminate.
  - exact (isAllowedByRobots_never_raises u st).
Defined.

Lemma crawl_summary_witness :
  ∃ rs summary st',
    crawl 10 "https://site.test/" (Toy.instance Toy.appOptions 1)
    = (Normal (rs, summary), st') ∧
    length rs = 4%nat ∧ totalTime summary = 2000%Z ∧
    QArith_base.Qeq (averageTime summary) (QArith_base.inject_Z 500) ∧
    totalPages summary = length rs ∧
    failedPages summary = size (failedUrls st').
Proof.
  assert (match (crawl 10 "https://site.test/"
                   (Toy.instance Toy.appOptions 1)).1 with
          | Normal (rs, summary) =>
              length rs = 4%nat ∧ totalTime summary = 2000%Z ∧
              QArith_base.Qeq (averageTime summary)
                (QArith_base.inject_Z 500)
          | _ => False
          end) as H by (vm_compute; by split_and!).
  revert H.
  destruct (crawl 10 "https://site.test/" (Toy.instance Toy.appOptions 1))
    as [[[rs summary]|e|] st'] eqn:E; simpl; [|contradiction..].
  intros (H1 & H2 & H3).
  pose proof (crawl_summary _ _ _ _ _ _ E) as (_ & H4 & H5 & _).
  exists rs, summary, st'.
  split; [reflexivity|].
  split; [exact H1|].
  split; [exact H2|].
  split; [exact H3|].
  split; [exact H4|exact H5].
Defined.

Lemma crawl_never_resets_witness :
  let st := Toy.instance Toy.appOptions 1 in
  let st1 := (crawl 10 "https://site.test/" st).2 in
  let st2 := (crawl 10 "https://shop.test/" st1).2 in
  "https://site.test/a" ∈ visitedUrls st1 ∧
  length (results st1) = 4%nat ∧ length (results st2) = 6%nat ∧
  results st1 `prefix_of` results st2 ∧
  crawlPage "https://site.test/a" 0 None st2
  = (Normal None, set_trace (cons (EvSkip "https://site.test/a")) st2).
Proof.
  intros st st1 st2.
  assert ("https://site.test/a" ∈ visitedUrls st1) as H
    by (vm_compute; set_solver).
  pose proof (crawl_never_resets 10 10 "https://site.test/"
                "https://shop.test/" st) as (_ & E2 & _ & Hskip).
  split; [exact H|].
  split; [vm_compute; reflexivity|].
  split; [vm_compute; reflexivity|].
  split; [exact (ext_results _ _ E2)|].
  exact (Hskip "https://site.test/a" 0%nat None st2 H E2).
Defined.

Lemma crawl_terminates_witness :
  let st := Toy.instance Toy.appOptions 1 in
  ready st ∧
  ∃ fuel rs summary st',
    ∀ fuel', (fuel ≤ fuel')%nat →
             crawl fuel' "https://site.test/" st
             = (Normal (rs, summary), st').
Proof.
  intros st.
  assert (ready st) as H.
  { split.
    - vm_compute. lia.
    - intros pattern u Hp. vm_compute in Hp. by apply elem_of_nil in Hp.
    - vm_compute. lia. }
  split; [exact H|].
  exact (crawl_terminates "https://site.test/" st H).
Defined.

Lemma crawl_survives_failures_witness :
  let st := Toy.instance UserOptions.empty 1 in
  ready st ∧
  ∃ fuel rs summary st' evs,
    crawl fuel "https://shop.test/" st = (Normal (rs, summary), st') ∧
    failedPages summary = size (failedUrls st') ∧
    trace st' = evs ++ trace st ∧
    (∀ u, EvFailed u ∈ evs → u ∈ failedUrls st').
Proof.
  intros st.
  assert (ready st) as H.
  { split.
    - vm_compute. lia.
    - intros pattern u Hp. vm_compute in Hp. by apply elem_of_nil in Hp.
    - vm_compute. lia. }
  split; [exact H|].
  destruct (crawl_survives_failures "https://shop.test/" st H)
    as (fuel & rs & summary & st' & evs & E & Hf & Ht & Hin & _).
  exists fuel, rs, summary, st', evs.
  split; [exact E|].
  split; [exact Hf|].
  split; [exact Ht|exact Hin].
Defined.

Lemma crawl_saturated_witness :
  let st := (crawl 10 "https://site.test/"
               (Toy.instance Toy.maxPages2 1)).2 in
  (maxPages (options st) ≤ length (results st))%nat ∧
  crawl 1 "https://shop.test/" st
  = (Normal (results st,
             summarize st (date_now (world st)) (date_now (world st))),
     set_trace (cons (EvEmitComplete (length (results st)))) st).
Proof.
  intros st.
  assert (maxPages (options st) ≤ length (results st))%nat as H
    by (vm_compute; lia).
  split; [exact H|].
  exact (crawl_saturated 0 "https://shop.test/" st H).
Defined.

Lemma crawl_visited_seed_witness :
  let st := (crawl 10 "https://site.test/"
               (Toy.instance Toy.appOptions 1)).2 in
  "https://site.test/" ∈ visitedUrls st ∧
  (1 ≤ maxConcurrency (options st))%nat ∧
  ∃ evs,
    crawl 2 "https://site.test/" st
    = (Normal (results st,
               summarize st (date_now (world st)) (date_now (world st))),
       set_trace (app evs) st).
Proof.
  intros st.
  assert ("https://site.test/" ∈ visitedUrls st) as H1
    by (vm_compute; set_solver).
  assert (1 ≤ maxConcurrency (options st))%nat as H2 by (vm_compute; lia).
  split; [exact H1|].
  split; [exact H2|].
  exact (crawl_visited_seed 0 "https://site.test/" st H1 H2).
Defined.

Lemma crawlPage_blocked_by_robots_witness :
  let u := "https://private.test/diary" in
  let st := Toy.instance UserOptions.empty 0 in
  (u ∉ visitedUrls st) ∧
  respectRobotsTxt (options st) = true ∧
  (isAllowedByRobots u (afterVisit u st)).1 = Normal false ∧
  ∃ st' evs,
    crawlPage u 0 None st = (Normal None, st') ∧
    trace st' = evs ++ trace st ∧
    fetchesOf evs = [] ∧ sleepsOf evs = [] ∧
    u ∈ visitedUrls st' ∧
    results st' = results st ∧ failedUrls st' = failedUrls st.
Proof.
  intros u st.
  assert (u ∉ visitedUrls st) as H1 by (vm_compute; set_solver).
  assert (respectRobotsTxt (options st) = true) as H2 by reflexivity.
  assert ((isAllowedByRobots u (afterVisit u st)).1 = Normal false) as H3
    by (vm_compute; reflexivity).
  split_and!; [exact H1|exact H2|exact H3|].
  exact (crawlPage_blocked_by_robots u 0 None st H1 H2 H3).
Defined.

Lemma crawlPage_record_witness :
  let u := "https://site.test/a" in
  let st := Toy.instance UserOptions.empty 0 in
  ∃ page st',
    crawlPage u 1 (Some "https://site.test/") st
    = (Normal (Some page), st') ∧
    (u ∉ visitedUrls st) ∧ u ∈ visitedUrls st' ∧
    originalUrl page = u ∧ depth page = 1%nat ∧
    parent page = Some "https://site.test/" ∧
    (∃ k response,
       (axios_get u (retryWorld u 0 k (world (atFetch u st)))).1
       = inr response ∧
       url page = js_or (responseUrl response) u ∧
       statusCode page = status response) ∧
    url page = u ∧ statusCode page = 200%nat ∧
    results st' = results st ∧ failedUrls st' = failedUrls st.
Proof.
  intros u st.
  assert (match (crawlPage u 1 (Some "https://site.test/") st).1 with
          | Normal (Some page) => url page = u ∧ statusCode page = 200%nat
          | _ => False
          end) as H by (vm_compute; by split_and!).
  revert H.
  destruct (crawlPage u 1 (Some "https://site.test/") st)
    as [[[page|]|e|] st'] eqn:E; simpl; [|contradiction..].
  intros (Hurl & Hstatus).
  destruct (crawlPage_record _ _ _ _ _ _ E)
    as (H1 & H2 & H3 & H4 & H5 & _ & Hresp & H6 & H7).
  destruct Hresp as (k & response & _ & _ & Hok & Hu & Hs & _).
  exists page, st'.
  split; [reflexivity|].
  split; [exact H1|].
  split; [exact H2|].
  split; [exact H3|].
  split; [exact H4|].
  split; [exact H5|].
  split; [exists k, response; split; [exact Hok|split; [exact Hu|exact Hs]]|].
  split; [exact Hurl|].
  split; [exact Hstatus|].
  split; [exact H6|exact H7].
Defined.

Lemma isAllowedByRobots_cached_witness :
  let u := "https://private.test/diary" in
  let st := (isAllowedByRobots "https://private.test/"
               (Toy.instance UserOptions.empty 0)).2 in
  robotsCache st !! robotsUrlOf u = Some (Some true) ∧
  isAllowedByRobots u st = (Normal false, st).
Proof.
  intros u st.
  assert (robotsCache st !! robotsUrlOf u = Some (Some true)) as H
    by (vm_compute; reflexivity).
  split; [exact H|].
  exact (isAllowedByRobots_cached u st (Some true) H).
Defined.

Lemma extractAndFilterUrls_complete_witness :
  let o := mergeOptions
             (UserOptions.mk None None None None None None None None None
                (Some ["/admin"]) None None) in
  let link := Link.mk "https://a.com/ok" "" "" in
  let ls := [Link.mk "https://a.com/admin/x" "" "";
             Link.mk "https://b.com/" "" ""; link;
             Link.mk "mailto:me@a.com" "" ""] in
  extractAndFilterUrls o ls "https://a.com/" 1 = inr ["https://a.com/ok"] ∧
  link ∈ ls ∧ passes o "https://a.com/" (Link.url link) ∧
  Link.url link ∈ ["https://a.com/ok"].
Proof.
  intros o link ls.
  assert (extractAndFilterUrls o ls "https://a.com/" 1
          = inr ["https://a.com/ok"]) as H1 by (vm_compute; reflexivity).
  assert (link ∈ ls) as H2 by (right; right; left).
  assert (passes o "https://a.com/" (Link.url link)) as H3.
  { split_and!.
    - right. vm_compute. reflexivity.
    - intros _. vm_compute. reflexivity.
    - intros Hn. exfalso. apply Hn. reflexivity.
    - intros pattern Hp. apply list_elem_of_singleton in Hp. subst pattern.
      vm_compute. reflexivity.
    - intros Hn. exfalso. apply Hn. reflexivity. }
  split; [exact H1|].
  split; [exact H2|].
  split; [exact H3|].
  exact (extractAndFilterUrls_complete o ls "https://a.com/" 1 _ link
           H1 H2 H3).
Defined.

Lemma crawl_breadth_first_witness :
  let st := Toy.instance UserOptions.empty 1 in
  results st = [] ∧
  map depth (results (crawl 10 "https://site.test/" st).2)
  = [0; 1; 1; 1; 2]%nat ∧
  StronglySorted le (map depth (results (crawl 10 "https://site.test/" st).2)).
Proof.
  intros st.
  assert (results st = []) as H by reflexivity.
  split; [exact H|].
  split; [vm_compute; reflexivity|].
  exact (crawl_breadth_first 10 "https://site.test/" st H).
Defined.

Lemma crawl_without_robots_witness :
  let st := Toy.instance
              (UserOptions.mk None None None None None None (Some false)
                 None None None None None) 1 in
  respectRobotsTxt (options st) = false ∧
  length (results (crawl 10 "https://site.test/" st).2) = 5%nat ∧
  robotsCache (crawl 10 "https://site.test/" st).2 = robotsCache st ∧
  ∃ evs, trace (crawl 10 "https://site.test/" st).2 = evs ++ trace st ∧
         ∀ robotsUrl, EvGetRobots robotsUrl ∉ evs.
Proof.
  intros st.
  assert (respectRobotsTxt (options st) = false) as H by reflexivity.
  split; [exact H|].
  split; [vm_compute; reflexivity|].
  exact (crawl_without_robots 10 "https://site.test/" st H).
Defined.

Lemma crawl_single_outcome_witness :
  let st := Toy.instance UserOptions.empty 1 in
  let st' := (crawl 10 "https://shop.test/" st).2 in
  consistent st ∧ consistent st' ∧
  (Stats.totalPages (getSummary st') + Stats.failedUrls (getSummary st')
   ≤ Stats.visitedUrls (getSummary st'))%nat.
Proof.
  intros st st'.
  assert (consistent st) as H.
  { split.
    - vm_compute. set_solver.
    - intros r Hr. vm_compute in Hr. by apply elem_of_nil in Hr.
    - intros r Hr. vm_compute in Hr. by apply elem_of_nil in Hr.
    - vm_compute. constructor. }
  split; [exact H|].
  exact (crawl_single_outcome 10 "https://shop.test/" st H).
Defined.

Lemma getSummary_after_crawl_witness :
  ∃ rs summary st',
    crawl 10 "https://shop.test/" (Toy.instance UserOptions.empty 1)
    = (Normal (rs, summary), st') ∧
    getResults st' = rs ∧
    Stats.totalPages (getSummary st') = totalPages summary ∧
    Stats.failedUrls (getSummary st') = failedPages summary ∧
    (Stats.uniqueDomains (getSummary st')
     ≤ Stats.totalPages (getSummary st'))%nat.
Proof.
  assert (match (crawl 10 "https://shop.test/"
                   (Toy.instance UserOptions.empty 1)).1 with
          | Normal (rs, summary) => True
          | _ => False
          end) as H by (vm_compute; exact I).
  revert H.
  destruct (crawl 10 "https://shop.test/" (Toy.instance UserOptions.empty 1))
    as [[[rs summary]|e|] st'] eqn:E; simpl; [|contradiction..].
  intros _.
  exists rs, summary, st'.
  split; [reflexivity|].
  exact (getSummary_after_crawl _ _ _ _ _ _ E).
Defined.

Lemma extractHeadings_spec_witness :
  let nbsp := utf8 [194; 160] in
  let doc :=
    [ {| tagName := "h1"; attribs := []; textContent := nbsp |};
      {| tagName := "h1"; attribs := [];
         textContent := nbsp +:+ " Home " +:+ nbsp |};
      {| tagName := "h2"; attribs := []; textContent := "More" |} ] in
  extractHeadings doc !! "h1" = Some ["Home"] ∧
  "h1" ∈ headingTags ∧
  ∀ t, t ∈ ["Home"] ↔
       t ≠ "" ∧
       ∃ el, el ∈ doc ∧ tagName el = "h1" ∧ t = trim (textContent el).
Proof.
  intros nbsp doc.
  assert (extractHeadings doc !! "h1" = Some ["Home"]) as H
    by (vm_compute; reflexivity).
  split; [exact H|].
  destruct (extractHeadings_spec doc "h1" ["Home"] H) as (H1 & _ & H2).
  split; [exact H1|exact H2].
Defined.
